(** * clin: where command-line input comes from and how it is chunked

    A shallow embedding of package [clin] (clin.go): the [Input]
    configuration, its methods [Args], [Fields], [Reader] and the split
    function [scanArgs], together with the parts of Go's standard library
    they run on ([io.Reader], [bufio.Scanner], [bufio.ScanRunes],
    [unicode/utf8], [strings.Join], [os.Open]).

    Conventions.
    - A Go [string] and the contents of a [[]byte] are [list byte].
    - Go [int] values are [Z]; every length that occurs is far below the
      range of a 64-bit [int], so no wrap-around is written out.
    - [[]byte] fields are slice headers into a heap of backing arrays, and
      [io.Reader] values are handles into a store of reader objects: both
      are shared when an [Input] is copied.
    - A call either returns, panics, or exhausts the recursion budget of an
      unbounded [for] loop: see [result]. *)

From Stdlib Require Import ZArith Strings.Byte Strings.String.
From stdpp Require Import base option list gmap.

Local Open Scope Z_scope.

Abbreviation byte := Byte.byte.

#[global] Instance byte_eq_dec : EqDecision byte := Byte.byte_eq_dec.

(** Go [string]: an immutable sequence of bytes. *)
Definition gostring : Type := list byte.

(** The bytes of a string literal. *)
Definition str (s : string) : gostring := list_byte_of_string s.

Definition LF : byte := Byte.x0a.
Definition CR : byte := Byte.x0d.

(** [len(x)] as a Go [int]. *)
Definition len {A : Type} (l : list A) : Z := Z.of_nat (length l).

(** [x[i:j]] for [0 <= i <= j <= len(x)]. *)
Definition subslice {A : Type} (l : list A) (i j : Z) : list A :=
  take (Z.to_nat (j - i)) (drop (Z.to_nat i) l).

(** [x[i]], [None] when out of range. *)
Definition index {A : Type} (l : list A) (i : Z) : option A :=
  if i <? 0 then None else l !! Z.to_nat i.

(** ** Outcomes of a call *)

Inductive result (A : Type) : Type :=
| Ret (a : A)      (* the call returns *)
| Panic            (* a run-time panic unwinds the call *)
| Diverge.         (* the recursion budget of a loop ran out *)

Arguments Ret {A} a.
Arguments Panic {A}.
Arguments Diverge {A}.

#[global] Instance result_ret : MRet result := @Ret.
#[global] Instance result_bind : MBind result := λ A B f m,
  match m with
  | Ret a => f a
  | Panic => Panic
  | Diverge => Diverge
  end.

(** ** Errors *)

Inductive error : Type :=
| EOF                  (* io.EOF *)
| ErrNoProgress        (* io.ErrNoProgress *)
| ErrTooLong           (* bufio.ErrTooLong *)
| ErrNegativeAdvance   (* bufio.ErrNegativeAdvance *)
| ErrAdvanceTooFar     (* bufio.ErrAdvanceTooFar *)
| ErrBadReadCount      (* bufio.ErrBadReadCount *)
| ErrFinalToken        (* bufio.ErrFinalToken *)
| ErrIO (code : nat).  (* any other error of the underlying stream *)

#[global] Instance error_eq_dec : EqDecision error.
Proof. solve_decision. Defined.

(** ** io.Reader objects *)

Module io.

(** A reader object delivers [content] and then keeps answering with the
    error [fail] ([EOF] for a stream that simply ends).  [chunks] lists
    upper bounds for the next reads, so that short reads (a terminal, a
    pipe) and empty reads are covered; with no bound left a read fills
    the whole destination, which is how [strings.Reader] and regular
    files behave. *)
Record Reader : Type := mkReader {
  content : list byte;
  chunks : list nat;
  fail : error
}.

(** [r.Read(p)] with [len(p) = k]: the bytes stored into [p], the error,
    and the reader afterwards. *)
Definition Read (r : Reader) (k : Z) : list byte * option error * Reader :=
  match content r with
  | [] => ([], Some (fail r), mkReader [] (tail (chunks r)) (fail r))
  | _ =>
    let n := match chunks r with
             | [] => Z.to_nat k
             | c :: _ => Nat.min c (Z.to_nat k)
             end in
    (take n (content r), None,
     mkReader (drop n (content r)) (tail (chunks r)) (fail r))
  end.

End io.

(** ** strings *)

Module strings.

(** [strings.NewReader(s)] *)
Definition NewReader (s : gostring) : io.Reader := io.mkReader s [] EOF.

(** [strings.Join(elems, sep)] *)
Definition Join (elems : list gostring) (sep : gostring) : gostring :=
  match elems with
  | [] => []
  | [e] => e
  | e :: es => e ++ concat (map (λ s, sep ++ s) es)
  end.

End strings.

(** ** unicode/utf8 *)

Module utf8.

Definition RuneError : Z := 0xFFFD.
Definition RuneSelf : Z := 0x80.
Definition UTFMax : Z := 4.

Definition maskx : Z := 0x3F.
Definition mask2 : Z := 0x1F.
Definition mask3 : Z := 0x0F.
Definition mask4 : Z := 0x07.

(** The default lowest and highest continuation byte. *)
Definition locb : Z := 0x80.
Definition hicb : Z := 0xBF.

(** Entries of [first]: the high nibble indexes [acceptRanges] (or is F
    for the one-byte cases), the low nibble is the length of the rune. *)
Definition xx : Z := 0xF1.
Definition as_ : Z := 0xF0.
Definition s1 : Z := 0x02.
Definition s2 : Z := 0x13.
Definition s3 : Z := 0x03.
Definition s4 : Z := 0x23.
Definition s5 : Z := 0x34.
Definition s6 : Z := 0x04.
Definition s7 : Z := 0x44.

(** Information about the first byte of a UTF-8 sequence. *)
Definition first : list Z :=
  replicate 128 as_ ++                      (* 0x00-0x7F *)
  replicate 64 xx ++                        (* 0x80-0xBF *)
  [xx; xx] ++ replicate 30 s1 ++            (* 0xC0-0xDF *)
  [s2] ++ replicate 12 s3 ++ [s4; s3; s3] ++  (* 0xE0-0xEF *)
  [s5; s6; s6; s6; s7] ++ replicate 11 xx.  (* 0xF0-0xFF *)

(** [acceptRanges]: the range of valid values for the second byte. *)
Definition acceptRanges : list (Z * Z) :=
  [ (locb, hicb); (0xA0, hicb); (locb, 0x9F); (0x90, hicb); (locb, 0x8F) ]
  ++ replicate 11 (0, 0).

(** The numeric value of a byte. *)
Definition val (b : byte) : Z := Z.of_N (Byte.to_N b).

(** [p[i]] as a number.  Every use below is guarded by a length test, so
    the default is never taken. *)
Definition at_ (p : list byte) (i : nat) : Z := from_option val 0 (p !! i).

Definition first_of (p0 : Z) : Z := default xx (first !! Z.to_nat p0).
Definition accept_of (x : Z) : Z * Z :=
  default (0, 0) (acceptRanges !! Z.to_nat (Z.shiftr x 4)).

(** A value converted to [int32]. *)
Definition int32 (z : Z) : Z := (z + 2 ^ 31) mod 2 ^ 32 - 2 ^ 31.

(** [utf8.DecodeRune(p)]: the rune and its width in bytes. *)
Definition DecodeRune (p : list byte) : Z * Z :=
  let n := len p in
  if n <? 1 then (RuneError, 0) else
  let p0 := at_ p 0 in
  let x := first_of p0 in
  if x >=? as_ then
    (* 0 for ASCII, all ones for an invalid first byte *)
    let mask := Z.shiftr (int32 (Z.shiftl x 31)) 31 in
    (Z.lor (Z.land p0 (Z.lnot mask)) (Z.land RuneError mask), 1)
  else
  let sz := Z.land x 7 in
  let '(lo, hi) := accept_of x in
  if n <? sz then (RuneError, 1) else
  let b1 := at_ p 1 in
  if (b1 <? lo) || (hi <? b1) then (RuneError, 1) else
  if sz <=? 2 then
    (Z.lor (Z.shiftl (Z.land p0 mask2) 6) (Z.land b1 maskx), 2)
  else
  let b2 := at_ p 2 in
  if (b2 <? locb) || (hicb <? b2) then (RuneError, 1) else
  if sz <=? 3 then
    (Z.lor (Z.lor (Z.shiftl (Z.land p0 mask3) 12)
                  (Z.shiftl (Z.land b1 maskx) 6))
           (Z.land b2 maskx), 3)
  else
  let b3 := at_ p 3 in
  if (b3 <? locb) || (hicb <? b3) then (RuneError, 1) else
  (Z.lor (Z.lor (Z.lor (Z.shiftl (Z.land p0 mask4) 18)
                       (Z.shiftl (Z.land b1 maskx) 12))
                (Z.shiftl (Z.land b2 maskx) 6))
         (Z.land b3 maskx), 4).

(** [utf8.FullRune(p)]: do the bytes in [p] begin with a full encoding
    of a rune?  An invalid encoding counts as a full rune. *)
Definition FullRune (p : list byte) : bool :=
  let n := len p in
  if n =? 0 then false else
  let x := first_of (at_ p 0) in
  if n >=? Z.land x 7 then true else
  let '(lo, hi) := accept_of x in
  if (n >? 1) && ((at_ p 1 <? lo) || (hi <? at_ p 1)) then true
  else if (n >? 2) && ((at_ p 2 <? locb) || (hicb <? at_ p 2)) then true
  else false.

End utf8.

(** ** bufio.Scanner *)

Module bufio.

Definition MaxScanTokenSize : Z := 64 * 1024.
Definition startBufSize : Z := 4096.
Definition maxConsecutiveEmptyReads : nat := 100.
Definition maxInt : Z := 2 ^ 63 - 1.

(** [bufio.SplitFunc]: advance, token ([None] is a nil token) and error.
    [St] is the state the function closes over ([scanArgs] is a method
    value bound to an [*Input]). *)
Definition SplitFunc (St : Type) : Type :=
  St → list byte → bool → result (St * (Z * option (list byte) * option error)).

(** The scanner.  Of the buffer [s.buf] only the unread window
    [s.buf[s.start:s.end]] is observable; it is kept as [window],
    together with [start] and [buflen = len(s.buf)], and [s.end] is
    [start + len window]. *)
Record Scanner : Type := mkScanner {
  r : io.Reader;
  maxTokenSize : Z;
  token : option (list byte);
  window : list byte;
  buflen : Z;
  start : Z;
  err : option error;
  empties : Z;
  done : bool
}.

Definition end_ (s : Scanner) : Z := start s + len (window s).

Definition with_r (x : io.Reader) (s : Scanner) : Scanner :=
  mkScanner x (maxTokenSize s) (token s) (window s) (buflen s) (start s)
            (err s) (empties s) (done s).
Definition with_token (x : option (list byte)) (s : Scanner) : Scanner :=
  mkScanner (r s) (maxTokenSize s) x (window s) (buflen s) (start s)
            (err s) (empties s) (done s).
Definition with_buf (win : list byte) (st bl : Z) (s : Scanner) : Scanner :=
  mkScanner (r s) (maxTokenSize s) (token s) win bl st
            (err s) (empties s) (done s).
Definition with_err (x : option error) (s : Scanner) : Scanner :=
  mkScanner (r s) (maxTokenSize s) (token s) (window s) (buflen s) (start s)
            x (empties s) (done s).
Definition with_empties (x : Z) (s : Scanner) : Scanner :=
  mkScanner (r s) (maxTokenSize s) (token s) (window s) (buflen s) (start s)
            (err s) x (done s).
Definition with_done (x : bool) (s : Scanner) : Scanner :=
  mkScanner (r s) (maxTokenSize s) (token s) (window s) (buflen s) (start s)
            (err s) (empties s) x.

(** [bufio.NewScanner(r)] *)
Definition NewScanner (rd : io.Reader) : Scanner :=
  mkScanner rd MaxScanTokenSize None [] 0 0 None 0 false.

(** [s.Text()] *)
Definition Text (s : Scanner) : gostring := default [] (token s).

(** [s.setErr(err)]: records the first non-EOF error. *)
Definition setErr (e : error) (s : Scanner) : Scanner :=
  match err s with
  | None | Some EOF => with_err (Some e) s
  | Some _ => s
  end.

(** [s.advance(n)]: consumes [n] bytes of the buffer. *)
Definition advance (n : Z) (s : Scanner) : bool * Scanner :=
  if n <? 0 then (false, setErr ErrNegativeAdvance s)
  else if n >? end_ s - start s then (false, setErr ErrAdvanceTooFar s)
  else (true, with_buf (drop (Z.to_nat n) (window s)) (start s + n) (buflen s) s).

(** One pass through the body of the read loop at the end of [Scan]'s
    body: read into [s.buf[s.end:len(s.buf)]].  [inl] is a [break],
    [inr] an empty read that lets the loop go round again. *)
Definition readOnce (s : Scanner) : Scanner + Scanner :=
  let '(p, e, rd) := io.Read (r s) (buflen s - end_ s) in
  let n := len p in
  let s := with_r rd s in
  if (n <? 0) || (buflen s - end_ s <? n) then inl (setErr ErrBadReadCount s)
  else
    let s := with_buf (window s ++ p) (start s) (buflen s) s in
    match e with
    | Some e => inl (setErr e s)
    | None => if n >? 0 then inl (with_empties 0 s) else inr s
    end.

(** The read loop: read until bytes or an error arrive.  [k] is the
    number of empty reads still tolerated ([maxConsecutiveEmptyReads]
    minus the source's counter [loop]). *)
Fixpoint readLoop (k : nat) (s : Scanner) : Scanner :=
  match readOnce s with
  | inl s => s
  | inr s =>
    match k with
    | O => setErr ErrNoProgress s
    | S k' => readLoop k' s
    end
  end.

(** The first half of [Scan]'s loop body: offer the window to the split
    function.  [inl] is a [return] of [Scan], [inr] falls through to the
    second half. *)
Definition offer {St : Type} (split : SplitFunc St) (st : St) (s : Scanner)
  : result (bool * St * Scanner + St * Scanner) :=
  if (end_ s >? start s) || bool_decide (err s ≠ None) then
    '(st, (adv, tok, e)) ← split st (window s) (bool_decide (err s ≠ None));
    match e with
    | Some e =>
      if bool_decide (e = ErrFinalToken) then
        let s := with_done true (with_token tok s) in
        Ret (inl (bool_decide (tok ≠ None), st, s))
      else Ret (inl (false, st, setErr e s))
    | None =>
      let '(ok, s) := advance adv s in
      if negb ok then Ret (inl (false, st, s)) else
      let s := with_token tok s in
      match tok with
      | Some _ =>
        if bool_decide (err s = None) || (adv >? 0) then
          Ret (inl (true, st, with_empties 0 s))
        else
          (* returning tokens not advancing input at EOF *)
          let s := with_empties (empties s + 1) s in
          if empties s >? Z.of_nat maxConsecutiveEmptyReads then Panic
          else Ret (inl (true, st, s))
      | None => Ret (inr (st, s))
      end
    end
  else Ret (inr (st, s)).

(** The second half of [Scan]'s loop body, up to the read: give up,
    shift the window to the front of the buffer, grow the buffer.  [inl]
    is a [return false] of [Scan]. *)
Definition refill (s : Scanner) : Scanner + Scanner :=
  if bool_decide (err s ≠ None) then
    (* shut it down *)
    inl (with_buf [] 0 (buflen s) s)
  else
    let s :=
      if (start s >? 0) &&
         ((end_ s =? buflen s) || (start s >? Z.quot (buflen s) 2))
      then with_buf (window s) 0 (buflen s) s else s in
    if end_ s =? buflen s then
      if (buflen s >=? maxTokenSize s) || (buflen s >? Z.quot maxInt 2)
      then inl (setErr ErrTooLong s)
      else
        let newSize := buflen s * 2 in
        let newSize := if newSize =? 0 then startBufSize else newSize in
        let newSize := Z.min newSize (maxTokenSize s) in
        inr (readLoop maxConsecutiveEmptyReads (with_buf (window s) 0 newSize s))
    else inr (readLoop maxConsecutiveEmptyReads s).

(** The loop of [s.Scan()].  [fuel] bounds the number of iterations. *)
Fixpoint scanLoop {St : Type} (split : SplitFunc St) (fuel : nat)
    (st : St) (s : Scanner) : result (bool * St * Scanner) :=
  match fuel with
  | O => Diverge
  | S fuel =>
    o ← offer split st s;
    match o with
    | inl ret => Ret ret
    | inr (st, s) =>
      match refill s with
      | inl s => Ret (false, st, s)
      | inr s => scanLoop split fuel st s
      end
    end
  end.

(** [s.Scan()] *)
Definition Scan {St : Type} (split : SplitFunc St) (fuel : nat)
    (st : St) (s : Scanner) : result (bool * St * Scanner) :=
  if done s then Ret (false, st, s) else scanLoop split fuel st s.

Definition errorRune : list byte := [Byte.xef; Byte.xbf; Byte.xbd].

(** [bufio.ScanRunes]: a split function that returns each UTF-8-encoded
    rune as a token; invalid encodings become U+FFFD. *)
Definition ScanRunes (data : list byte) (atEOF : bool)
  : result (Z * option (list byte) * option error) :=
  if atEOF && (len data =? 0) then Ret (0, None, None) else
  match data with
  | [] => Panic  (* data[0]: index out of range *)
  | d0 :: _ =>
    (* Fast path 1: ASCII. *)
    if utf8.val d0 <? utf8.RuneSelf then Ret (1, Some (subslice data 0 1), None)
    else
      (* Fast path 2: correct UTF-8 decode without error. *)
      let '(_, width) := utf8.DecodeRune data in
      if width >? 1 then Ret (width, Some (subslice data 0 width), None)
      else if negb atEOF && negb (utf8.FullRune data) then
        (* Incomplete; get more bytes. *)
        Ret (0, None, None)
      else
        (* A real encoding error: advance only one byte. *)
        Ret (1, Some errorRune, None)
  end.

End bufio.

(** ** Package state: byte arrays, reader objects, files *)

Definition loc : Type := nat.
Definition handle : Type := nat.

(** A [[]byte] value: a slice header.  Copying the header shares the
    backing array. *)
Record slice : Type := mkSlice {
  array : loc;   (* the backing array *)
  offset : nat;  (* index of the slice's first element in the array *)
  size : nat     (* len *)
}.

Arguments mkSlice (array offset size)%_nat.

(** [Input] (clin.go, type Input). *)
Record Input : Type := mkInput {
  Stream : handle;     (* io.Reader: a reference to a reader object *)
  Literal : bool;
  ArgsDelim : slice;
  ReadDelim : slice;
  skipToken : bool
}.

Definition with_Stream (x : handle) (i : Input) : Input :=
  mkInput x (Literal i) (ArgsDelim i) (ReadDelim i) (skipToken i).
Definition with_Literal (x : bool) (i : Input) : Input :=
  mkInput (Stream i) x (ArgsDelim i) (ReadDelim i) (skipToken i).
Definition with_ArgsDelim (x : slice) (i : Input) : Input :=
  mkInput (Stream i) (Literal i) x (ReadDelim i) (skipToken i).
Definition with_ReadDelim (x : slice) (i : Input) : Input :=
  mkInput (Stream i) (Literal i) (ArgsDelim i) x (skipToken i).
Definition with_skipToken (x : bool) (i : Input) : Input :=
  mkInput (Stream i) (Literal i) (ArgsDelim i) (ReadDelim i) x.

(** Everything a call can reach besides its arguments. *)
Record World : Type := mkWorld {
  heap : gmap loc (list byte);         (* backing arrays of [[]byte] values *)
  streams : gmap handle io.Reader;     (* reader objects *)
  files : gostring → option io.Reader; (* what [os.Open] finds at a path *)
  input : Input                        (* the package variable [input] *)
}.

Definition with_heap (x : gmap loc (list byte)) (w : World) : World :=
  mkWorld x (streams w) (files w) (input w).
Definition with_streams (x : gmap handle io.Reader) (w : World) : World :=
  mkWorld (heap w) x (files w) (input w).
Definition with_input (x : Input) (w : World) : World :=
  mkWorld (heap w) (streams w) (files w) x.

(** The bytes a slice denotes. *)
Definition bytes_of (h : gmap loc (list byte)) (s : slice) : list byte :=
  take (size s) (drop (offset s) (default [] (h !! array s))).

(** [s[i] = b] *)
Definition store_byte (s : slice) (i : Z) (b : byte) (w : World) : result World :=
  if (i <? 0) || (Z.of_nat (size s) <=? i) then Panic (* index out of range *)
  else
    match heap w !! array s with
    | None => Panic
    | Some a => Ret (with_heap (<[array s := <[(offset s + Z.to_nat i)%nat := b]> a]> (heap w)) w)
    end.

(** [[]byte(str)]: a slice over a fresh array. *)
Definition new_bytes (str : gostring) (w : World) : slice * World :=
  let l := fresh (dom (heap w)) in
  (mkSlice l 0 (length str), with_heap (<[l := str]> (heap w)) w).

(** A new reader object. *)
Definition new_stream (rd : io.Reader) (w : World) : handle * World :=
  let h := fresh (dom (streams w)) in
  (h, with_streams (<[h := rd]> (streams w)) w).

Module os.

Definition Stdin : handle := 0%nat.

(** [os.Open(name)]: a reader object over the file, or an error. *)
Definition Open (name : gostring) (w : World) : option handle * World :=
  match files w name with
  | None => (None, w)
  | Some rd => let '(h, w) := new_stream rd w in (Some h, w)
  end.

End os.

(** ** Package clin *)

(** The [for] loop of [scanArgs]: [k] iterations are left, [i] is the loop
    variable.  [None] when the loop ends without a [return]. *)
Fixpoint scanArgs_for (delim data : list byte) (k : nat) (i : Z)
  : option (Z * option (list byte) * option error) :=
  match k with
  | O => None
  | S k =>
    let n := len delim in
    if bool_decide (delim = subslice data i (i + n)) then
      let j :=
        if (i >? 0) && bool_decide (index data (i - 1) = Some CR) &&
           (n =? 1) && bool_decide (index delim 0 = Some LF)
        then i - 1 else i in
      Some (i + n, Some (subslice data 0 j), None)
    else scanArgs_for delim data k (i + 1)
  end.

(** [Input.scanArgs]: the split function given to the scanner.  It reads
    [in.ArgsDelim] through the heap [h] and may set [in.skipToken]. *)
Definition Input_scanArgs (h : gmap loc (list byte)) : bufio.SplitFunc Input :=
  λ in_ data atEOF,
  let delim := bytes_of h (ArgsDelim in_) in
  let n := len delim in
  (* Split on each UTF-8 rune if ArgsDelim is empty. *)
  if n =? 0 then out ← bufio.ScanRunes data atEOF; Ret (in_, out)
  else
    (* for i := 0; i <= len(data)-n; i++ *)
    match scanArgs_for delim data (Z.to_nat (len data - n + 1)) 0 with
    | Some out => Ret (in_, out)
    | None =>
      if negb atEOF then Ret (in_, (0, None, None))
      else
        Ret (with_skipToken (len data =? 0) in_,
             (0, Some data, Some ErrFinalToken))
    end.

(** The [for s.Scan()] loop of [Args].  [fuel] bounds the iterations of
    this loop, [n] those of the loop inside each [Scan]. *)
Fixpoint Args_loop (h : gmap loc (list byte)) (n fuel : nat)
    (in_ : Input) (s : bufio.Scanner) (a : list gostring)
  : result (list gostring * Input * bufio.Scanner) :=
  match fuel with
  | O => Diverge
  | S fuel =>
    '(more, in_, s) ← bufio.Scan (Input_scanArgs h) n in_ s;
    if more : bool then
      let a := if negb (skipToken in_) then a ++ [bufio.Text s] else a in
      Args_loop h n fuel in_ s a
    else Ret (a, in_, s)
  end.

(** Recursion budget for reading a stream to its end: no loop of [Args]
    takes more iterations than the stream has bytes, plus two. *)
Definition budget (rd : io.Reader) : nat := S (S (length (io.content rd))).

(** [Input.Args] *)
Definition Input_Args (in_ : Input) (args : list gostring) (w : World)
  : result (list gostring * Input * World) :=
  if len args =? 0 then
    (* No arguments: read lines from stdin. *)
    match streams w !! Stream in_ with
    | None => Panic  (* reading from a nil io.Reader *)
    | Some rd =>
      let s := bufio.NewScanner rd in
      let a := [] in
      '(a, in', s) ← Args_loop (heap w) (budget rd) (budget rd)
                       (with_skipToken false in_) s a;
      (* the reader object behind in.Stream is where the scanner left it *)
      Ret (a, in', with_streams (<[Stream in_ := bufio.r s]> (streams w)) w)
    end
  else Ret (args, in_, w).

(** The [for range] loop of [Fields]. *)
Fixpoint Fields_loop (args : list gostring) (a : list gostring) : list gostring :=
  match args with
  | [] => a
  | s :: args => Fields_loop args (if bool_decide (s ≠ []) then a ++ [s] else a)
  end.

(** [Input.Fields] *)
Definition Input_Fields (in_ : Input) (args : list gostring) (w : World)
  : list gostring * Input * World :=
  (Fields_loop args [], in_, w).

(** [Input.Reader]: the reader object returned, and the world with the
    objects the call created. *)
Definition Input_Reader (in_ : Input) (args : list gostring) (w : World)
  : handle * World :=
  match args with
  | [] =>
    (* No arguments: read from Stream. *)
    (Stream in_, w)
  | [arg] =>
    match (if negb (Literal in_) then
             (* One argument: if it is a file path, read from the file. *)
             os.Open arg w
           else (None, w)) with
    | (Some rd, w) => (rd, w)
    | (None, w) =>
      (* One argument: not a file path, read the string itself. *)
      new_stream (strings.NewReader arg) w
    end
  | _ =>
    (* More than one argument: read from the string constructed by joining
       all arguments, delimited by ReadDelim. *)
    new_stream
      (strings.NewReader (strings.Join args (bytes_of (heap w) (ReadDelim in_)))) w
  end.

(** [Default()]: a copy of the package variable. *)
Definition Default (w : World) : Input := input w.

(** The top-level functions run the methods on the package variable. *)
Definition Args (args : list gostring) (w : World) : result (list gostring * World) :=
  '(a, in_, w) ← Input_Args (input w) args w; Ret (a, with_input in_ w).

Definition Fields (args : list gostring) (w : World) : list gostring * World :=
  let '(a, in_, w) := Input_Fields (input w) args w in (a, with_input in_ w).

Definition Reader (args : list gostring) (w : World) : handle * World :=
  Input_Reader (input w) args w.

(** ** What the scanner is expected to produce *)

(** The bytes not yet turned into tokens: the scanner's window followed by
    what the reader still holds. *)
Definition unread (s : bufio.Scanner) : list byte :=
  bufio.window s ++ io.content (bufio.r s).

(** A reader that makes progress: no empty reads while it still has
    bytes. *)
Definition steady (rd : io.Reader) : Prop :=
  io.content rd = [] ∨ Forall (λ c, (0 < c)%nat) (io.chunks rd).

(** A scanner between two calls of [Scan], over a steady reader. *)
Record scanning (s : bufio.Scanner) : Prop := mkScanning {
  scanning_start : 0 ≤ bufio.start s;
  scanning_end : bufio.end_ s ≤ bufio.buflen s;
  scanning_max : bufio.maxTokenSize s = bufio.MaxScanTokenSize;
  scanning_buflen : bufio.buflen s ≤ bufio.maxTokenSize s;
  scanning_err : bufio.err s ≠ None → io.content (bufio.r s) = [];
  scanning_steady : steady (bufio.r s);
  scanning_done : bufio.done s = false
}.

(** What one call of [Scan] should deliver, judged on the whole unread
    stream: a token and the number of bytes it consumes; a last token, with
    the state the split function leaves; or nothing more. *)
Inductive verdict (St : Type) : Type :=
| Tok (adv : Z) (t : list byte)
| Final (st : St) (t : list byte)
| Stop.

Arguments Tok {St} adv t.
Arguments Final {St} st t.
Arguments Stop {St}.

(** The verdict respects the token size limit of the scanner. *)
Definition fits {St : Type} (v : verdict St) (rest : list byte) : Prop :=
  match v with
  | Tok adv _ => adv ≤ bufio.MaxScanTokenSize
  | Final _ _ | Stop => len rest < bufio.MaxScanTokenSize
  end.

(** Index of the first occurrence of [d] in [data]. *)
Fixpoint find (d data : list byte) : option nat :=
  if bool_decide (d `prefix_of` data) then Some 0%nat
  else match data with
       | [] => None
       | _ :: data => S <$> find d data
       end.

(** Where the token ends for a match at index [i]: the [j] of [scanArgs]. *)
Definition cut (d data : list byte) (i : Z) : Z :=
  if (i >? 0) && bool_decide (index data (i - 1) = Some CR) &&
     (len d =? 1) && bool_decide (index d 0 = Some LF)
  then i - 1 else i.

(** What [scanArgs] returns for a match at index [i]. *)
Definition emit (d data : list byte) (i : Z) : Z * option (list byte) * option error :=
  (i + len d, Some (subslice data 0 (cut d data i)), None).

(** The verdict of [scanArgs] with a non-empty delimiter [d]. *)
Definition delimited (d : list byte) (in_ : Input) (rest : list byte) : verdict Input :=
  match find d rest with
  | Some i => Tok (Z.of_nat i + len d) (subslice rest 0 (cut d rest (Z.of_nat i)))
  | None => Final (with_skipToken (len rest =? 0) in_) rest
  end.

(** The verdict for the split function [scanArgs] of an [Input] whose
    delimiter is [d]. *)
Definition delimited_by (h : gmap loc (list byte)) (d : list byte)
    (in_ : Input) (rest : list byte) : option (verdict Input) :=
  if bool_decide (bytes_of h (ArgsDelim in_) = d)
  then Some (delimited d in_ rest) else None.

(** ** Tokenizing, in the words of the specification *)

(** The pieces of [s] between the occurrences of the delimiter [d], found
    left to right; two delimiters in a row enclose an empty piece, and the
    last piece runs to the end of [s].  [skip] bytes of a delimiter are
    still to be passed over, [cur] is the piece being collected. *)
Fixpoint pieces_from (d : list byte) (skip : nat) (cur s : list byte)
  : list (list byte) :=
  match s with
  | [] => [cur]
  | b :: s' =>
    match skip with
    | S k => pieces_from d k cur s'
    | O =>
      if bool_decide (d `prefix_of` s)
      then cur :: pieces_from d (length d - 1) [] s'
      else pieces_from d 0 (cur ++ [b]) s'
    end
  end.

Definition pieces (d s : list byte) : list (list byte) := pieces_from d 0 [] s.

(** A piece that ends at a delimiter loses one trailing carriage return
    when the delimiter is a single newline. *)
Definition strip_cr (d t : list byte) : list byte :=
  if bool_decide (d = [LF]) && bool_decide (last t = Some CR)
  then take (length t - 1) t else t.

(** The tokens made of the pieces: the last piece is left out when it is
    empty and is otherwise kept as it is; every other piece is kept, empty
    or not. *)
Fixpoint tokens_of (d : list byte) (ps : list (list byte)) : list gostring :=
  match ps with
  | [] => []
  | [fin] => if bool_decide (fin = []) then [] else [fin]
  | p :: ps => strip_cr d p :: tokens_of d ps
  end.

Definition tokens (d s : list byte) : list gostring := tokens_of d (pieces d s).

(** Every piece, with the delimiter that ends it, fits the scanner's
    buffer. *)
Fixpoint pieces_fit (d : list byte) (ps : list (list byte)) : Prop :=
  match ps with
  | [] => True
  | [fin] => len fin < bufio.MaxScanTokenSize
  | p :: ps => len p + len d ≤ bufio.MaxScanTokenSize ∧ pieces_fit d ps
  end.

(** ** The initial state of the package *)

(** [var input = Input{Stream: os.Stdin, Literal: false,
    ArgsDelim: []byte("\n"), ReadDelim: []byte(" ")}], with standard input
    [stdin] and the file system [fs]. *)
Definition init (stdin : io.Reader) (fs : gostring → option io.Reader) : World :=
  mkWorld {[ 1%nat := [LF]; 2%nat := [Byte.x20] ]} {[ os.Stdin := stdin ]} fs
          (mkInput os.Stdin false (mkSlice 1 0 1) (mkSlice 2 0 1) false).

(** What a call returned, the state apart. *)
Definition value {A B : Type} (r : result (A * B)) : option A :=
  match r with
  | Ret (a, _) => Some a
  | _ => None
  end.

(** ** UTF-8, in the words of the Unicode standard *)

(** The byte with the numeric value [z], for [0 <= z < 256]. *)
Definition byte_of (z : Z) : byte := default Byte.x00 (Byte.of_N (Z.to_N z)).

(** A code point that has a UTF-8 encoding: a Unicode scalar value (the
    surrogates U+D800..U+DFFF are left out). *)
Definition scalar_value (c : Z) : Prop :=
  0 ≤ c < 0xD800 ∨ 0xE000 ≤ c ≤ 0x10FFFF.

(** The UTF-8 encoding of the code point [c]. *)
Definition encode (c : Z) : list byte :=
  if c <? 0x80 then [byte_of c]
  else if c <? 0x800 then
    [byte_of (0xC0 + c / 64); byte_of (0x80 + c mod 64)]
  else if c <? 0x10000 then
    [byte_of (0xE0 + c / 4096); byte_of (0x80 + (c / 64) mod 64);
     byte_of (0x80 + c mod 64)]
  else
    [byte_of (0xF0 + c / 262144); byte_of (0x80 + (c / 4096) mod 64);
     byte_of (0x80 + (c / 64) mod 64); byte_of (0x80 + c mod 64)].

Definition in_range (lo hi : Z) (b : byte) : bool :=
  (lo <=? utf8.val b) && (utf8.val b <=? hi).

(** The well-formed UTF-8 byte sequences of one code point (Unicode
    standard, table 3-7). *)
Definition wellformed (r : list byte) : bool :=
  match r with
  | [b0] => in_range 0x00 0x7F b0
  | [b0; b1] => in_range 0xC2 0xDF b0 && in_range 0x80 0xBF b1
  | [b0; b1; b2] =>
    (in_range 0xE0 0xE0 b0 && in_range 0xA0 0xBF b1 && in_range 0x80 0xBF b2) ||
    (in_range 0xE1 0xEC b0 && in_range 0x80 0xBF b1 && in_range 0x80 0xBF b2) ||
    (in_range 0xED 0xED b0 && in_range 0x80 0x9F b1 && in_range 0x80 0xBF b2) ||
    (in_range 0xEE 0xEF b0 && in_range 0x80 0xBF b1 && in_range 0x80 0xBF b2)
  | [b0; b1; b2; b3] =>
    (in_range 0xF0 0xF0 b0 && in_range 0x90 0xBF b1 &&
     in_range 0x80 0xBF b2 && in_range 0x80 0xBF b3) ||
    (in_range 0xF1 0xF3 b0 && in_range 0x80 0xBF b1 &&
     in_range 0x80 0xBF b2 && in_range 0x80 0xBF b3) ||
    (in_range 0xF4 0xF4 b0 && in_range 0x80 0x8F b1 &&
     in_range 0x80 0xBF b2 && in_range 0x80 0xBF b3)
  | _ => false
  end.

(** What the table [utf8.first] says about a first byte with the value
    [v]: is it a one-byte case (ASCII or invalid), the length it announces,
    and the range accepted for the second byte. *)
Definition lead_class (v : Z) : bool * Z * (Z * Z) :=
  if v <? 0x80 then (true, 0, (0, 0))
  else if v <? 0xC2 then (true, 1, (0, 0))
  else if v <? 0xE0 then (false, 2, (0x80, 0xBF))
  else if v =? 0xE0 then (false, 3, (0xA0, 0xBF))
  else if v <? 0xED then (false, 3, (0x80, 0xBF))
  else if v =? 0xED then (false, 3, (0x80, 0x9F))
  else if v <? 0xF0 then (false, 3, (0x80, 0xBF))
  else if v =? 0xF0 then (false, 4, (0x90, 0xBF))
  else if v <? 0xF4 then (false, 4, (0x80, 0xBF))
  else if v =? 0xF4 then (false, 4, (0x80, 0x8F))
  else (true, 1, (0, 0)).

(** The length a first byte announces for its rune. *)
Definition lead_len (v : Z) : nat :=
  if v <? 0x80 then 1 else if v <? 0xE0 then 2 else if v <? 0xF0 then 3 else 4.

(** The verdict of [bufio.ScanRunes] on a stream that starts with a
    well-formed rune, or has ended. *)
Definition by_rune (rest : list byte) : option (verdict Input) :=
  match rest with
  | [] => Some Stop
  | b0 :: _ =>
    let k := lead_len (utf8.val b0) in
    if (k <=? length rest)%nat && wellformed (take k rest)
    then Some (Tok (Z.of_nat k) (take k rest)) else None
  end.

(** The verdict for the split function [scanArgs] of an [Input] whose
    delimiter is empty. *)
Definition split_by_rune (h : gmap loc (list byte))
    (in_ : Input) (rest : list byte) : option (verdict Input) :=
  if bool_decide (bytes_of h (ArgsDelim in_) = []) then by_rune rest else None.

(** ** Streams that end in different ways *)

(** Two scanners that agree on everything but the error that ended their
    stream: the readers hold the same bytes and will cut them into the same
    reads, and an error is recorded in both or in neither. *)
Definition same_but_error (s1 s2 : bufio.Scanner) : Prop :=
  io.content (bufio.r s1) = io.content (bufio.r s2) ∧
  io.chunks (bufio.r s1) = io.chunks (bufio.r s2) ∧
  bufio.maxTokenSize s1 = bufio.maxTokenSize s2 ∧
  bufio.token s1 = bufio.token s2 ∧
  bufio.window s1 = bufio.window s2 ∧
  bufio.buflen s1 = bufio.buflen s2 ∧
  bufio.start s1 = bufio.start s2 ∧
  (bufio.err s1 = None ↔ bufio.err s2 = None) ∧
  bufio.empties s1 = bufio.empties s2 ∧
  bufio.done s1 = bufio.done s2.

(** Two outcomes of the same kind, with related values. *)
Definition alike {A : Type} (P : A → A → Prop) (x y : result A) : Prop :=
  match x, y with
  | Ret a, Ret b => P a b
  | Panic, Panic => True
  | Diverge, Diverge => True
  | _, _ => False
  end.

(** The same choice of two, with related values. *)
Definition alike_sum {A B : Type} (P : A → A → Prop) (Q : B → B → Prop)
    (x y : A + B) : Prop :=
  match x, y with
  | inl a, inl b => P a b
  | inr a, inr b => Q a b
  | _, _ => False
  end.

(** The reader [rd] failing with [e] once its bytes are delivered. *)
Definition failing_with (e : error) (rd : io.Reader) : io.Reader :=
  io.mkReader (io.content rd) (io.chunks rd) e.

(** The same return of [Scan], or of the loop of [Args], from two such
    scanners. *)
Definition same_return {A St : Type} (x y : A * St * bufio.Scanner) : Prop :=
  let '(a1, st1, s1) := x in
  let '(a2, st2, s2) := y in
  a1 = a2 ∧ st1 = st2 ∧ same_but_error s1 s2.

Definition same_state {St : Type} (x y : St * bufio.Scanner) : Prop :=
  let '(st1, s1) := x in
  let '(st2, s2) := y in
  st1 = st2 ∧ same_but_error s1 s2.

(** ** The first version of the package (clin.go, first part)

    The file holds the package twice.  In its first version [Input] has
    no [Stream] and no [skipToken]: [Args] reads [os.Stdin], keeps the
    final token also when it is empty, and compares with [bytes.Equal];
    there is no [Fields]. *)

Module bytes.

(** [bytes.Equal(a, b)] *)
Definition Equal (a b : list byte) : bool := bool_decide (a = b).

End bytes.

Module Before.

(** [Input] (first version). *)
Record Input : Type := mkInput {
  Literal : bool;
  ArgsDelim : slice;
  ReadDelim : slice
}.

(** [var input = Input{Literal: false, ArgsDelim: []byte("\n"),
    ReadDelim: []byte(" ")}]: no statement of this version assigns to the
    variable, so it is the value it starts with, over the arrays that
    [init] allocates. *)
Definition input : Input := mkInput false (mkSlice 1 0 1) (mkSlice 2 0 1).

(** The [for] loop of [scanArgs]. *)
Fixpoint scanArgs_for (delim data : list byte) (k : nat) (i : Z)
  : option (Z * option (list byte) * option error) :=
  match k with
  | O => None
  | S k =>
    let n := len delim in
    if bytes.Equal delim (subslice data i (i + n)) then
      let j :=
        if (i >? 0) && bool_decide (index data (i - 1) = Some CR) &&
           (n =? 1) && bool_decide (index delim 0 = Some LF)
        then i - 1 else i in
      Some (i + n, Some (subslice data 0 j), None)
    else scanArgs_for delim data k (i + 1)
  end.

(** [Input.scanArgs] *)
Definition Input_scanArgs (h : gmap loc (list byte)) : bufio.SplitFunc Input :=
  λ in_ data atEOF,
  let delim := bytes_of h (ArgsDelim in_) in
  let n := len delim in
  (* Split on each UTF-8 rune if ArgsDelim is empty. *)
  if n =? 0 then out ← bufio.ScanRunes data atEOF; Ret (in_, out)
  else
    match scanArgs_for delim data (Z.to_nat (len data - n + 1)) 0 with
    | Some out => Ret (in_, out)
    | None =>
      if negb atEOF then Ret (in_, (0, None, None))
      else Ret (in_, (0, Some data, Some ErrFinalToken))
    end.

(** The [for s.Scan()] loop of [Args]. *)
Fixpoint Args_loop (h : gmap loc (list byte)) (n fuel : nat)
    (in_ : Input) (s : bufio.Scanner) (a : list gostring)
  : result (list gostring * bufio.Scanner) :=
  match fuel with
  | O => Diverge
  | S fuel =>
    '(more, in_, s) ← bufio.Scan (Input_scanArgs h) n in_ s;
    if more : bool then Args_loop h n fuel in_ s (a ++ [bufio.Text s])
    else Ret (a, s)
  end.

(** [Input.Args] *)
Definition Input_Args (in_ : Input) (args : list gostring) (w : World)
  : result (list gostring * World) :=
  if len args =? 0 then
    (* No arguments: read lines from stdin. *)
    match streams w !! os.Stdin with
    | None => Panic
    | Some rd =>
      let s := bufio.NewScanner rd in
      let a := [] in
      '(a, s) ← Args_loop (heap w) (budget rd) (budget rd) in_ s a;
      Ret (a, with_streams (<[os.Stdin := bufio.r s]> (streams w)) w)
    end
  else Ret (args, w).

(** [Input.Reader] *)
Definition Input_Reader (in_ : Input) (args : list gostring) (w : World)
  : handle * World :=
  match args with
  | [] =>
    (* No arguments: read from stdin. *)
    (os.Stdin, w)
  | [arg] =>
    match (if negb (Literal in_) then
             (* One argument: if it is a file path, read from the file. *)
             os.Open arg w
           else (None, w)) with
    | (Some rd, w) => (rd, w)
    | (None, w) =>
      (* One argument: not a file path, read the string itself. *)
      new_stream (strings.NewReader arg) w
    end
  | _ =>
    (* More than one argument: read from the string constructed by joining
       all arguments, delimited by ReadDelim. *)
    new_stream
      (strings.NewReader (strings.Join args (bytes_of (heap w) (ReadDelim in_)))) w
  end.

(** [Default()] *)
Definition Default : Input := input.

Definition Args (args : list gostring) (w : World) : result (list gostring * World) :=
  Input_Args input args w.

Definition Reader (args : list gostring) (w : World) : handle * World :=
  Input_Reader input args w.

End Before.

(** The [Input] of the first version with the settings of [in_]. *)
Definition before (in_ : Input) : Before.Input :=
  Before.mkInput (Literal in_) (ArgsDelim in_) (ReadDelim in_).

(** ** The examples of the package's tests (clin_test.go) *)

(** [fmt.Println(s)] on a standard output that holds [out]. *)
Definition Println (s : gostring) (out : list byte) : list byte := out ++ s ++ [LF].

(** The loop [for _, s := range a { fmt.Println("[" + s + "]") }]. *)
Definition print_all (a : list gostring) (out : list byte) : list byte :=
  foldl (λ out s, Println (str "[" ++ s ++ str "]") out) out a.

(** [ExampleArgs]: what the function writes to standard output. *)
Definition ExampleArgs (w : World) : result (list byte * World) :=
  '(a, w) ← Args [str "ordinary "; str " flags"; []] w;
  Ret (print_all a [], w).

(** The constant [stdin] of [ExampleInput_Args]. *)
Definition ExampleInput_Args_stdin : gostring :=
  [LF] ++ str "a stream" ++ [LF] ++ [LF] ++ str "of  " ++ [LF] ++
  [Byte.x09] ++ str "input" ++ [Byte.x09] ++ [LF] ++ str "  tokens" ++ [LF].

(** [ExampleInput_Args]: what the function writes to standard output. *)
Definition ExampleInput_Args (w : World) : result (list byte * World) :=
  let in_ := Default w in
  let '(h, w) := new_stream (strings.NewReader ExampleInput_Args_stdin) w in
  let in_ := with_Stream h in_ in
  '(a, in_, w) ← Input_Args in_ [] w;
  Ret (print_all a [], w).

(** ** Streams made of terminated or separated items *)

(** The delimiter [d] does not begin inside [a], also when [d] follows
    [a]: in [a ++ d] its first occurrence is the one at the end. *)
Definition clean (d a : list byte) : Prop :=
  ∀ j, (j < length a)%nat → ¬ d `prefix_of` drop j (a ++ d).

(** Executable form of [clean]. *)
Definition cleanb (d a : list byte) : bool :=
  bool_decide (find d (a ++ d) = Some (length a)).

(** ** Two runs side by side *)

(** Outcomes of the same kind, with related values of two types. *)
Definition akin {A B : Type} (P : A → B → Prop) (x : result A) (y : result B) : Prop :=
  match x, y with
  | Ret a, Ret b => P a b
  | Panic, Panic => True
  | Diverge, Diverge => True
  | _, _ => False
  end.

(** The same choice of two, with related values. *)
Definition akin_sum {A A' B B' : Type} (P : A → A' → Prop) (Q : B → B' → Prop)
    (x : A + B) (y : A' + B') : Prop :=
  match x, y with
  | inl a, inl b => P a b
  | inr a, inr b => Q a b
  | _, _ => False
  end.

(** Two split functions giving the same answer, their states related. *)
Definition same_answer {St1 St2 A : Type} (R : St1 → St2 → Prop)
    (x : St1 * A) (y : St2 * A) : Prop :=
  snd x = snd y ∧ R (fst x) (fst y).

(** The same return of [Scan] under two split functions. *)
Definition same_scan {St1 St2 : Type} (R : St1 → St2 → Prop)
    (x : bool * St1 * bufio.Scanner) (y : bool * St2 * bufio.Scanner) : Prop :=
  let '(b1, st1, s1) := x in
  let '(b2, st2, s2) := y in
  b1 = b2 ∧ s1 = s2 ∧ R st1 st2.

Definition same_rest {St1 St2 : Type} (R : St1 → St2 → Prop)
    (x : St1 * bufio.Scanner) (y : St2 * bufio.Scanner) : Prop :=
  let '(st1, s1) := x in
  let '(st2, s2) := y in
  s1 = s2 ∧ R st1 st2.

(** ** Tokens, whatever the stream *)

(** The delimiter [d] occurs nowhere in [t]. *)
Definition free_of (d t : list byte) : Prop := ∀ j, ¬ d `prefix_of` drop j t.

(** What every token of [scanArgs] is like: free of the delimiter, or, with
    the empty delimiter, one well-formed UTF-8 sequence. *)
Definition token_ok (d t : list byte) : Prop :=
  if decide (d = []) then wellformed t = true else free_of d t.

(** What the loop of [Args] returns in the first version, beside what it
    returns in the later one: the same tokens and then the final empty
    token, if the later version dropped one. *)
Definition with_final_token (in_ : Input)
    (x : list gostring * bufio.Scanner)
    (y : list gostring * Input * bufio.Scanner) : Prop :=
  let '(a1, s1) := x in
  let '(a2, in', s2) := y in
  s1 = s2 ∧ a1 = a2 ++ (if skipToken in' then [[]] else []) ∧
  before in' = before in_.

(** ** Lines *)

(** The end of a line: CR LF as on Windows and DOS, or LF. *)
Definition line_end (crlf : bool) : list byte := if crlf then [CR; LF] else [LF].

(** The text made of the lines [ls], each with the line end it is given. *)
Definition lines_text (ls : list (list byte * bool)) : list byte :=
  concat (map (λ x, fst x ++ line_end (snd x)) ls).

(** ** Tactics *)

Ltac norm :=
  unfold bufio.end_, unread, len in *; simpl in *;
  rewrite ?length_app, ?length_take, ?length_drop, ?app_nil_r in *;
  change (Z.of_nat 0) with 0 in *.

(** Boolean tests of the code, as propositions. *)
Ltac b2p :=
  repeat match goal with
  | H : (_ || _) = true |- _ => apply orb_true_iff in H; destruct H
  | H : (_ || _) = false |- _ => apply orb_false_iff in H; destruct H
  | H : (_ && _) = true |- _ => apply andb_true_iff in H; destruct H
  | H : (_ && _) = false |- _ => apply andb_false_iff in H; destruct H
  | H : negb _ = true |- _ => apply negb_true_iff in H
  | H : negb _ = false |- _ => apply negb_false_iff in H
  | H : (_ <? _) = true |- _ => apply Z.ltb_lt in H
  | H : (_ <? _) = false |- _ => apply Z.ltb_ge in H
  | H : (_ <=? _) = true |- _ => apply Z.leb_le in H
  | H : (_ <=? _) = false |- _ => apply Z.leb_gt in H
  | H : (_ >? _) = _ |- _ => rewrite Z.gtb_ltb in H
  | H : (_ >=? _) = _ |- _ => rewrite Z.geb_leb in H
  | H : (_ =? _) = true |- _ => apply Z.eqb_eq in H
  | H : (_ =? _) = false |- _ => apply Z.eqb_neq in H
  | H : bool_decide _ = true |- _ => apply bool_decide_eq_true in H
  | H : bool_decide _ = false |- _ => apply bool_decide_eq_false in H
  end.

Ltac blia := b2p; lia.

Ltac case_if :=
  match goal with
  | |- context [if ?c then _ else _] => destruct c eqn:?
  end.

Ltac case_if_in H :=
  match type of H with
  | context [if ?c then _ else _] => destruct c eqn:?
  end.

(** Arithmetic on the bytes of a sequence whose shape is known. *)
Ltac bytes_lia :=
  unfold utf8.at_, len, utf8.locb, utf8.hicb, utf8.RuneSelf, in_range in *;
  simpl in *; b2p; lia.

Ltac dlia := Z.div_mod_to_equations; lia.

Ltac btrue :=
  repeat match goal with
  | |- (_ && _) = true => apply andb_true_iff; split
  | |- (_ <=? _) = true => apply Z.leb_le
  end.

Ltac sim_start s1 s2 H :=
  destruct s1 as [[c1 ch1 f1] mx1 tk1 w1 bl1 st1 er1 em1 dn1];
  destruct s2 as [[c2 ch2 f2] mx2 tk2 w2 bl2 st2 er2 em2 dn2];
  unfold same_but_error in H; simpl in H;
  destruct H as (? & ? & ? & ? & ? & ? & ? & ? & ? & ?); subst.

(** A goal about byte ranges, as arithmetic. *)
Ltac ranges :=
  unfold wellformed, in_range;
  rewrite ?orb_true_iff, ?andb_true_iff, ?Z.leb_le;
  unfold utf8.at_, len, utf8.locb, utf8.hicb, utf8.RuneSelf in *;
  simpl in *; b2p; lia.

(** * Properties *)

#[local] Arguments Z.ltb : simpl never.
#[local] Arguments Z.leb : simpl never.
#[local] Arguments Z.gtb : simpl never.
#[local] Arguments Z.geb : simpl never.
#[local] Arguments Z.eqb : simpl never.
#[local] Arguments Z.add : simpl never.
#[local] Arguments Z.sub : simpl never.
#[local] Arguments Z.mul : simpl never.
#[local] Arguments Z.min : simpl never.
#[local] Arguments Z.quot : simpl never.
#[local] Arguments Z.of_nat : simpl never.
#[local] Arguments Z.to_nat : simpl never.

(** ** Lists and slices *)

Lemma len_nonneg {A} (l : list A) : 0 ≤ len l.
Proof. unfold len. lia. Qed.

Lemma len_app {A} (l k : list A) : len (l ++ k) = len l + len k.
Proof. unfold len. rewrite length_app. lia. Qed.

Lemma len_nil_iff {A} (l : list A) : len l = 0 ↔ l = [].
Proof. unfold len. destruct l; simpl; split; intros; (done || lia). Qed.

Lemma subslice_0 {A} (l : list A) (j : Z) : subslice l 0 j = take (Z.to_nat j) l.
Proof. unfold subslice. by rewrite Z.sub_0_r. Qed.

Lemma prefix_take_eq {A} (d l : list A) :
  d = take (length d) l ↔ d `prefix_of` l.
Proof.
  split.
  - intros ->. apply prefix_take.
  - intros [k ->]. by rewrite take_app_length.
Qed.

(** ** The search loop of scanArgs *)

Lemma find_bound d data i :
  find d data = Some i → (i + length d ≤ length data)%nat.
Proof.
  revert i. induction data as [|b data IH]; intros i; simpl.
  - case_bool_decide as Hp; [|done]. intros [= <-].
    apply prefix_nil_inv in Hp. by subst.
  - case_bool_decide as Hp.
    + intros [= <-]. apply prefix_length in Hp. simpl in *. lia.
    + destruct (find d data) as [m|]; [|done]. intros [= <-].
      specialize (IH _ eq_refl). simpl. lia.
Qed.

Lemma find_prefix d data i :
  find d data = Some i → d `prefix_of` drop i data.
Proof.
  revert i. induction data as [|b data IH]; intros i; simpl.
  - case_bool_decide; [|done]. by intros [= <-].
  - case_bool_decide.
    + by intros [= <-].
    + destruct (find d data) as [m|]; [|done]. intros [= <-]. by apply IH.
Qed.

Lemma find_none d data i : find d data = None → ¬ d `prefix_of` drop i data.
Proof.
  revert i. induction data as [|b data IH]; intros i; simpl.
  - case_bool_decide; [done|]. by rewrite drop_nil.
  - case_bool_decide as Hp; [done|].
    destruct (find d data) as [m|] eqn:Hf; [done|]. intros _.
    destruct i as [|i]; [done|]. simpl. by apply IH.
Qed.

Lemma prefix_app_short {A} (d l k : list A) :
  d `prefix_of` l ++ k → (length d ≤ length l)%nat → d `prefix_of` l.
Proof.
  intros [m Hm] Hlen.
  assert (d = take (length d) l) as ->.
  { rewrite <-(take_app_le l k) by done. rewrite Hm. by rewrite take_app_length. }
  apply prefix_take.
Qed.

Lemma find_app_some d data more i :
  find d data = Some i → find d (data ++ more) = Some i.
Proof.
  revert i. induction data as [|b data IH]; intros i; simpl.
  - case_bool_decide as Hp; [|done]. intros [= <-].
    apply prefix_nil_inv in Hp. subst d. by destruct more.
  - case_bool_decide as Hp.
    + intros [= <-]. rewrite bool_decide_true; [done|].
      by apply (prefix_app_r _ (b :: data)).
    + destruct (find d data) as [m|] eqn:Hf; [|done]. intros [= <-].
      rewrite bool_decide_false.
      * by rewrite (IH m).
      * intros Hq. apply Hp. apply (prefix_app_short _ (b :: data) more Hq).
        apply find_bound in Hf. simpl. lia.
Qed.

Lemma find_app_none d data more :
  find d (data ++ more) = None → find d data = None.
Proof.
  intros Hn. destruct (find d data) as [i|] eqn:Hf; [|done].
  apply (find_app_some _ _ more) in Hf. congruence.
Qed.

Lemma find_app_inv d data more i :
  find d (data ++ more) = Some i → (i + length d ≤ length data)%nat →
  find d data = Some i.
Proof.
  intros Hf Hlen. destruct (find d data) as [m|] eqn:Hd.
  - apply (find_app_some _ _ more) in Hd. congruence.
  - exfalso. apply (find_none _ _ i Hd).
    apply find_prefix in Hf. rewrite drop_app_le in Hf by lia.
    apply (prefix_app_short _ _ _ Hf). rewrite length_drop. lia.
Qed.

Lemma scanArgs_for_find d data k i :
  d ≠ [] → 0 ≤ i → i ≤ len data →
  k = Z.to_nat (len data - len d + 1 - i) →
  scanArgs_for d data k i =
    (λ m, emit d data (i + Z.of_nat m)) <$> find d (drop (Z.to_nat i) data).
Proof.
  intros Hd. revert i. induction k as [|k IH]; intros i Hi Hle Hk.
  - simpl. destruct (find d (drop (Z.to_nat i) data)) as [m|] eqn:Hf; [|done].
    apply find_bound in Hf. rewrite length_drop in Hf. unfold len in *. lia.
  - simpl.
    assert (Hlt : i < len data).
    { assert (0 < len d); [|lia]. unfold len. destruct d; [done|simpl; lia]. }
    destruct (drop (Z.to_nat i) data) as [|b tl] eqn:Hdrop.
    { apply (f_equal length) in Hdrop. rewrite length_drop in Hdrop.
      unfold len in *. simpl in Hdrop. lia. }
    rewrite <-Hdrop.
    assert (Hsub : subslice data i (i + len d) = take (length d) (drop (Z.to_nat i) data)).
    { unfold subslice, len. do 2 f_equal. lia. }
    fold (cut d data i). fold (emit d data i).
    rewrite Hsub. rewrite Hdrop. simpl find. rewrite <-Hdrop.
    pose proof (prefix_take_eq d (drop (Z.to_nat i) data)) as Heq.
    destruct (decide (d `prefix_of` drop (Z.to_nat i) data)) as [Hp|Hp].
    + rewrite (bool_decide_true (d = _)) by (by apply Heq).
      rewrite (bool_decide_true (d `prefix_of` _)) by done.
      simpl. by rewrite Z.add_0_r.
    + rewrite (bool_decide_false (d = _)) by (by rewrite Heq).
      rewrite (bool_decide_false (d `prefix_of` _)) by done.
      rewrite IH; [|lia|lia|lia].
      replace (Z.to_nat (i + 1)) with (S (Z.to_nat i)) by lia.
      assert (drop (S (Z.to_nat i)) data = tl) as ->.
      { replace (S (Z.to_nat i)) with (Z.to_nat i + 1)%nat by lia.
        by rewrite <-drop_drop, Hdrop. }
      destruct (find d tl) as [m|]; simpl; [|done].
      do 2 f_equal. lia.
Qed.

Lemma index_app_l {A} (l k : list A) (i : Z) :
  i < len l → index (l ++ k) i = index l i.
Proof.
  intros Hi. unfold index, len in *. destruct (i <? 0) eqn:E; [done|].
  apply lookup_app_l. lia.
Qed.

Lemma cut_bounds d data i : 0 ≤ i → 0 ≤ cut d data i ≤ i.
Proof. intros Hi. unfold cut. case_if; blia. Qed.

Lemma cut_app d data more i :
  i ≤ len data → cut d (data ++ more) i = cut d data i.
Proof.
  intros Hi. unfold cut. rewrite (index_app_l data more (i - 1)) by lia. done.
Qed.

Lemma emit_app d data more i :
  Z.of_nat i ≤ len data → emit d (data ++ more) (Z.of_nat i) = emit d data (Z.of_nat i).
Proof.
  intros Hi. unfold emit. rewrite cut_app by done.
  rewrite !subslice_0. do 3 f_equal.
  apply take_app_le. pose proof (cut_bounds d data (Z.of_nat i)).
  unfold len in *. lia.
Qed.

Lemma len_delim_pos (d : list byte) : d ≠ [] → 0 < len d.
Proof. intros Hd. unfold len. destruct d; [done|simpl; lia]. Qed.

Section scanArgs_delimited.
  Context (h : gmap loc (list byte)) (in_ : Input) (d : list byte).
  Hypothesis Hdelim : bytes_of h (ArgsDelim in_) = d.
  Hypothesis Hd : d ≠ [].

Lemma scanArgs_search data :
    scanArgs_for d data (Z.to_nat (len data - len d + 1)) 0 =
      (λ m, emit d data (Z.of_nat m)) <$> find d data.
  Proof.
    rewrite (scanArgs_for_find d data _ 0 Hd); [done|lia|apply len_nonneg|].
    f_equal. lia.
  Qed.

Lemma scanArgs_match data atEOF i :
    find d data = Some i →
    Input_scanArgs h in_ data atEOF = Ret (in_, emit d data (Z.of_nat i)).
  Proof.
    intros Hf. unfold Input_scanArgs. rewrite Hdelim.
    pose proof (len_delim_pos d Hd). destruct (len d =? 0) eqn:E; [lia|].
    by rewrite scanArgs_search, Hf.
  Qed.

Lemma scanArgs_more data :
    find d data = None →
    Input_scanArgs h in_ data false = Ret (in_, (0, None, None)).
  Proof.
    intros Hf. unfold Input_scanArgs. rewrite Hdelim.
    pose proof (len_delim_pos d Hd). destruct (len d =? 0) eqn:E; [lia|].
    by rewrite scanArgs_search, Hf.
  Qed.

Lemma scanArgs_final data :
    find d data = None →
    Input_scanArgs h in_ data true =
      Ret (with_skipToken (len data =? 0) in_, (0, Some data, Some ErrFinalToken)).
  Proof.
    intros Hf. unfold Input_scanArgs. rewrite Hdelim.
    pose proof (len_delim_pos d Hd). destruct (len d =? 0) eqn:E; [lia|].
    by rewrite scanArgs_search, Hf.
  Qed.

End scanArgs_delimited.

(** ** The scanner *)

Lemma maxInt_half : Z.quot bufio.maxInt 2 = 4611686018427387903.
Proof. reflexivity. Qed.

Lemma MaxScanTokenSize_val : bufio.MaxScanTokenSize = 65536.
Proof. reflexivity. Qed.

(** One round of reading, when there is room in the buffer. *)
Lemma readLoop_room k s :
  bufio.err s = None → bufio.end_ s < bufio.buflen s →
  steady (bufio.r s) →
  let s' := bufio.readLoop k s in
  unread s' = unread s ∧ bufio.start s' = bufio.start s ∧
  bufio.buflen s' = bufio.buflen s ∧
  bufio.maxTokenSize s' = bufio.maxTokenSize s ∧
  bufio.done s' = bufio.done s ∧
  bufio.end_ s' ≤ bufio.buflen s' ∧
  steady (bufio.r s') ∧
  match io.content (bufio.r s) with
  | [] => bufio.err s' ≠ None ∧ io.content (bufio.r s') = []
  | _ => bufio.err s' = None ∧
         (length (io.content (bufio.r s')) < length (io.content (bufio.r s)))%nat
  end.
Proof.
  intros Herr Hroom Hch. destruct s as [[c ch f] mx tk w bl st e em dn].
  unfold bufio.end_ in Hroom. unfold steady in *. simpl in *. subst e.
  destruct c as [|b c].
  - assert (bufio.readOnce (bufio.mkScanner (io.mkReader [] ch f) mx tk w bl st None em dn)
            = inl (bufio.mkScanner (io.mkReader [] (tail ch) f) mx tk w bl st (Some f) em dn)) as H1.
    { unfold bufio.readOnce, io.Read. simpl. case_if; [norm; blia|].
      unfold bufio.setErr. simpl. by rewrite app_nil_r. }
    destruct k; simpl bufio.readLoop; rewrite H1; norm; repeat split; try done;
      try lia; by left.
  - destruct Hch as [Hch|Hch]; [done|].
    assert (Hch' : Forall (λ c, (0 < c)%nat) (tail ch)).
    { destruct ch; [done|]. by inversion Hch. }
    set (n := match ch with [] => Z.to_nat (bl - (st + len w))
              | c0 :: _ => Nat.min c0 (Z.to_nat (bl - (st + len w))) end).
    assert (Hn : (1 ≤ n ≤ Z.to_nat (bl - (st + len w)))%nat).
    { subst n. destruct ch as [|c0 ch]; [norm; lia|]. inversion Hch; subst. norm. lia. }
    assert (bufio.readOnce (bufio.mkScanner (io.mkReader (b :: c) ch f) mx tk w bl st None em dn)
            = inl (bufio.mkScanner (io.mkReader (drop n (b :: c)) (tail ch) f) mx tk
                     (w ++ take n (b :: c)) bl st None 0 dn)) as H1.
    { unfold bufio.readOnce, io.Read. simpl. unfold bufio.end_. simpl. fold n.
      clearbody n.
      assert (Hlen : len (take n (b :: c)) = Z.of_nat (Nat.min n (S (length c)))).
      { unfold len. by rewrite length_take. }
      rewrite Hlen. case_if; [blia|]. case_if; [done|blia]. }
    clearbody n.
    destruct k; simpl bufio.readLoop; rewrite H1; unfold bufio.end_, unread, len in *;
      simpl;
      rewrite <-app_assoc, (take_drop n (b :: c)), length_app, length_take, length_drop;
      simpl length; repeat split; try done; try lia; by right.
Qed.

(** Refilling the buffer succeeds while the window is below the token size
    limit: the buffer is shifted or grown as needed and one read is made. *)
Lemma refill_room s :
  scanning s → bufio.err s = None →
  len (bufio.window s) < bufio.MaxScanTokenSize →
  ∃ s', bufio.refill s = inr s' ∧ unread s' = unread s ∧ scanning s' ∧
        match io.content (bufio.r s) with
        | [] => bufio.err s' ≠ None ∧ io.content (bufio.r s') = []
        | _ => bufio.err s' = None ∧
               (length (io.content (bufio.r s')) < length (io.content (bufio.r s)))%nat
        end.
Proof.
  intros [H0 H1 H2 H3 H4 H5 H6] He Hw.
  destruct s as [rd mx tk w bl st e em dn].
  unfold bufio.end_ in *. simpl in *. subst e mx dn.
  rewrite MaxScanTokenSize_val in *.
  assert (Hread : ∀ s0, bufio.err s0 = None → bufio.end_ s0 < bufio.buflen s0 →
            0 ≤ bufio.start s0 → bufio.buflen s0 ≤ 65536 →
            bufio.maxTokenSize s0 = 65536 → bufio.done s0 = false →
            bufio.r s0 = rd → unread s0 = w ++ io.content rd →
            let s' := bufio.readLoop bufio.maxConsecutiveEmptyReads s0 in
            unread s' = w ++ io.content rd ∧ scanning s' ∧
            match io.content rd with
            | [] => bufio.err s' ≠ None ∧ io.content (bufio.r s') = []
            | _ => bufio.err s' = None ∧
               (length (io.content (bufio.r s')) < length (io.content rd))%nat
            end).
  { intros s0 E1 E2 E3 E4 E5 E6 E7 E8.
    destruct (readLoop_room bufio.maxConsecutiveEmptyReads s0 E1 E2)
      as (R1 & R2 & R3 & R4 & R5 & R6 & R7 & R8); [by rewrite E7|].
    rewrite E7 in R8. cbv zeta.
    split; [by rewrite R1|]. split; [|done].
    rewrite R3 in R6.
    constructor; rewrite ?R2, ?R3, ?R4, ?R5, ?E5, ?MaxScanTokenSize_val; try done.
    destruct (io.content rd); [by intros _; apply R8|].
    intros Hne. destruct R8 as [R8 _]. by rewrite R8 in Hne. }
  unfold bufio.refill. simpl. unfold bufio.end_. simpl.
  rewrite maxInt_half. unfold bufio.startBufSize.
  pose proof (len_nonneg w).
  destruct ((st >? 0) && _) eqn:Hshift; simpl;
    [ destruct (0 + len w =? bl) eqn:Hfull | destruct (st + len w =? bl) eqn:Hfull ];
    try (destruct ((bl >=? 65536) || _) eqn:Hbig; [exfalso; blia|]);
    (eexists; split; [done|]);
    apply Hread; simpl; unfold bufio.end_; simpl; try done;
    try (destruct (bl * 2 =? 0) eqn:?); blia.
Qed.

(** What [offer] does with each answer of the split function. *)
Section offer.
  Context {St : Type} (split : bufio.SplitFunc St).

Lemma offer_skip st s :
    bufio.err s = None → bufio.window s = [] →
    bufio.offer split st s = Ret (inr (st, s)).
  Proof.
    intros He Hw. unfold bufio.offer, bufio.end_. rewrite He, Hw. simpl.
    case_if; [norm; blia|done].
  Qed.

Lemma offer_token st s adv t :
    split st (bufio.window s) (bool_decide (bufio.err s ≠ None))
      = Ret (st, (adv, Some t, None)) →
    0 < adv ≤ len (bufio.window s) →
    bufio.offer split st s =
      Ret (inl (true, st,
                bufio.with_empties 0
                  (bufio.with_token (Some t)
                     (bufio.with_buf (drop (Z.to_nat adv) (bufio.window s))
                        (bufio.start s + adv) (bufio.buflen s) s)))).
  Proof.
    intros Hsp Hadv. unfold bufio.offer. rewrite Hsp. simpl.
    unfold bufio.advance, bufio.end_.
    repeat (case_if; try blia); try done.
    all: destruct (bufio.window s); unfold len in *; simpl in *; blia.
  Qed.

Lemma offer_more st s :
    bufio.err s = None → bufio.window s ≠ [] →
    split st (bufio.window s) false = Ret (st, (0, None, None)) →
    ∃ s', bufio.offer split st s = Ret (inr (st, s')) ∧
          bufio.r s' = bufio.r s ∧ bufio.window s' = bufio.window s ∧
          bufio.start s' = bufio.start s ∧ bufio.buflen s' = bufio.buflen s ∧
          bufio.maxTokenSize s' = bufio.maxTokenSize s ∧
          bufio.err s' = bufio.err s ∧ bufio.done s' = bufio.done s.
  Proof.
    intros He Hw Hsp. unfold bufio.offer. rewrite He. simpl.
    rewrite Hsp. simpl. unfold bufio.advance, bufio.end_.
    pose proof (len_nonneg (bufio.window s)).
    assert (0 < len (bufio.window s)).
    { destruct (bufio.window s); [done|]. unfold len. simpl. lia. }
    repeat (case_if; try blia).
    eexists. split; [done|]. simpl. rewrite Z.add_0_r. done.
  Qed.

Lemma offer_final st st' s t :
    bufio.err s ≠ None →
    split st (bufio.window s) true = Ret (st', (0, Some t, Some ErrFinalToken)) →
    bufio.offer split st s =
      Ret (inl (true, st', bufio.with_done true (bufio.with_token (Some t) s))).
  Proof.
    intros He Hsp. unfold bufio.offer.
    rewrite (bool_decide_true _ He), orb_true_r, Hsp. done.
  Qed.

Lemma offer_stop st s :
    bufio.err s ≠ None →
    split st (bufio.window s) true = Ret (st, (0, None, None)) →
    ∃ s', bufio.offer split st s = Ret (inr (st, s')) ∧
          bufio.r s' = bufio.r s ∧ bufio.err s' = bufio.err s ∧
          bufio.done s' = bufio.done s.
  Proof.
    intros He Hsp. unfold bufio.offer.
    rewrite (bool_decide_true _ He), orb_true_r, Hsp. simpl.
    unfold bufio.advance, bufio.end_.
    pose proof (len_nonneg (bufio.window s)).
    repeat (case_if; try blia).
    eexists. split; [done|]. done.
  Qed.

End offer.

Lemma scanning_same s s1 :
  scanning s →
  bufio.r s1 = bufio.r s → bufio.window s1 = bufio.window s →
  bufio.start s1 = bufio.start s → bufio.buflen s1 = bufio.buflen s →
  bufio.maxTokenSize s1 = bufio.maxTokenSize s →
  bufio.err s1 = bufio.err s → bufio.done s1 = bufio.done s →
  scanning s1 ∧ unread s1 = unread s.
Proof.
  intros [] E1 E2 E3 E4 E5 E6 E7. split.
  - constructor; unfold bufio.end_ in *; rewrite ?E1, ?E2, ?E3, ?E4, ?E5, ?E6, ?E7; done.
  - unfold unread. by rewrite E1, E2.
Qed.

Lemma scanning_advance s adv t :
  scanning s → 0 < adv ≤ len (bufio.window s) →
  let s' := bufio.with_empties 0
              (bufio.with_token (Some t)
                 (bufio.with_buf (drop (Z.to_nat adv) (bufio.window s))
                    (bufio.start s + adv) (bufio.buflen s) s)) in
  scanning s' ∧ bufio.token s' = Some t ∧
  unread s' = drop (Z.to_nat adv) (unread s) ∧ bufio.r s' = bufio.r s.
Proof.
  intros [] Ha s'. subst s'. split; [|split; [done|split; [|done]]].
  - constructor; unfold bufio.end_, len in *; simpl; rewrite ?length_drop; try done; lia.
  - unfold unread. simpl. rewrite drop_app_le; [done|]. unfold len in *. lia.
Qed.

(** One call of [Scan] delivers what the verdict on the unread stream
    says, for any split function that agrees with the verdict on every
    window of the stream. *)
Section scan_by_verdict.
  Context {St : Type} (split : bufio.SplitFunc St).
  Context (ideal : St → list byte → option (verdict St)).

  Hypothesis split_tok : ∀ st w more atEOF adv t,
    ideal st (w ++ more) = Some (Tok adv t) →
    0 < adv ≤ len (w ++ more) ∧
    (adv ≤ len w → split st w atEOF = Ret (st, (adv, Some t, None))) ∧
    (len w < adv → w ≠ [] → split st w false = Ret (st, (0, None, None))).

  Hypothesis split_final : ∀ st w more st' t,
    ideal st (w ++ more) = Some (Final st' t) →
    (w ≠ [] → split st w false = Ret (st, (0, None, None))) ∧
    (more = [] → split st w true = Ret (st', (0, Some t, Some ErrFinalToken))).

  Hypothesis split_stop : ∀ st w more,
    ideal st (w ++ more) = Some Stop →
    (w ≠ [] → split st w false = Ret (st, (0, None, None))) ∧
    (more = [] → split st w true = Ret (st, (0, None, None))).

Lemma scanLoop_verdict fuel st s v :
    scanning s → ideal st (unread s) = Some v → fits v (unread s) →
    (length (io.content (bufio.r s)) + match bufio.err s with Some _ => 0 | None => 1 end < fuel)%nat →
    match v with
    | Tok adv t =>
      ∃ s', bufio.scanLoop split fuel st s = Ret (true, st, s') ∧
            scanning s' ∧ bufio.token s' = Some t ∧
            unread s' = drop (Z.to_nat adv) (unread s) ∧
            (length (io.content (bufio.r s')) ≤ length (io.content (bufio.r s)))%nat
    | Final st' t =>
      ∃ s', bufio.scanLoop split fuel st s = Ret (true, st', s') ∧
            bufio.token s' = Some t ∧ bufio.done s' = true ∧
            io.content (bufio.r s') = []
    | Stop =>
      ∃ s', bufio.scanLoop split fuel st s = Ret (false, st, s') ∧
            io.content (bufio.r s') = []
    end.
  Proof.
    revert s. induction fuel as [|fuel IH]; intros s Hs Hv Hfit Hfuel; [lia|].
    simpl bufio.scanLoop.
    (* the window was of no use: refill and go round again *)
    assert (Hnext : ∀ s1,
      bufio.err s = None → len (bufio.window s) < bufio.MaxScanTokenSize →
      bufio.offer split st s = Ret (inr (st, s1)) →
      bufio.r s1 = bufio.r s → bufio.window s1 = bufio.window s →
      bufio.start s1 = bufio.start s → bufio.buflen s1 = bufio.buflen s →
      bufio.maxTokenSize s1 = bufio.maxTokenSize s →
      bufio.err s1 = bufio.err s → bufio.done s1 = bufio.done s →
      match v with
      | Tok adv t =>
        ∃ s', (o ← bufio.offer split st s;
               match o with
               | inl ret => Ret ret
               | inr (st, s) =>
                 match bufio.refill s with
                 | inl s => Ret (false, st, s)
                 | inr s => bufio.scanLoop split fuel st s
                 end
               end) = Ret (true, st, s') ∧
              scanning s' ∧ bufio.token s' = Some t ∧
              unread s' = drop (Z.to_nat adv) (unread s) ∧
              (length (io.content (bufio.r s')) ≤ length (io.content (bufio.r s)))%nat
      | Final st' t =>
        ∃ s', (o ← bufio.offer split st s;
               match o with
               | inl ret => Ret ret
               | inr (st, s) =>
                 match bufio.refill s with
                 | inl s => Ret (false, st, s)
                 | inr s => bufio.scanLoop split fuel st s
                 end
               end) = Ret (true, st', s') ∧
              bufio.token s' = Some t ∧ bufio.done s' = true ∧
              io.content (bufio.r s') = []
      | Stop =>
        ∃ s', (o ← bufio.offer split st s;
               match o with
               | inl ret => Ret ret
               | inr (st, s) =>
                 match bufio.refill s with
                 | inl s => Ret (false, st, s)
                 | inr s => bufio.scanLoop split fuel st s
                 end
               end) = Ret (false, st, s') ∧
              io.content (bufio.r s') = []
      end).
    { intros s1 He Hw Ho E1 E2 E3 E4 E5 E6 E7.
      destruct (scanning_same s s1 Hs E1 E2 E3 E4 E5 E6 E7) as [Hs1 Hu1].
      destruct (refill_room s1 Hs1) as (s2 & Hr & Hu2 & Hs2 & Hc2);
        [congruence|by rewrite E2|].
      rewrite Ho. simpl. rewrite Hr.
      rewrite E1 in Hc2.
      assert (Hfuel2 : (length (io.content (bufio.r s2))
                        + match bufio.err s2 with Some _ => 0 | None => 1 end < fuel)%nat).
      { rewrite He in Hfuel. destruct (io.content (bufio.r s)).
        - destruct Hc2 as [Hc2 ->]. destruct (bufio.err s2); [simpl in *; lia|done].
        - destruct Hc2 as [-> Hc2]. simpl in *. lia. }
      assert (Hle : (length (io.content (bufio.r s2))
                     ≤ length (io.content (bufio.r s)))%nat).
      { destruct (io.content (bufio.r s)).
        - destruct Hc2 as [_ ->]. done.
        - destruct Hc2 as [_ Hc2]. lia. }
      rewrite <-Hu1, <-Hu2 in Hv, Hfit.
      specialize (IH s2 Hs2 Hv Hfit Hfuel2).
      rewrite <-Hu1, <-Hu2.
      destruct v as [adv t|st' t|]; try done.
      destruct IH as (s' & ? & ? & ? & ? & ?). exists s'. split_and!; try done. lia. }
    destruct (bufio.err s) as [e|] eqn:He.
    - (* the stream has ended: the window is all there is *)
      assert (Hc : io.content (bufio.r s) = []).
      { apply Hs. by rewrite He. }
      assert (He' : bufio.err s ≠ None) by by rewrite He.
      assert (Hv' := Hv). unfold unread in Hv'. rewrite Hc in Hv'.
      destruct v as [adv t|st' t|].
      + destruct (split_tok _ _ _ true _ _ Hv') as (Ha & Htok & _).
        rewrite app_nil_r in Ha.
        rewrite (offer_token split st s adv t);
          [|rewrite bool_decide_true by done; by apply Htok; lia|done].
        simpl. eexists. split; [done|].
        destruct (scanning_advance s adv t Hs Ha) as (? & ? & Hu & Hr).
        split_and!; try done.
      + destruct (split_final _ _ _ _ _ Hv') as (_ & Hfin).
        rewrite (offer_final split st st' s t He' (Hfin eq_refl)).
        simpl. eexists. split; [done|]. done.
      + destruct (split_stop _ _ _ Hv') as (_ & Hstop).
        destruct (offer_stop split st s He' (Hstop eq_refl)) as (s1 & -> & E1 & E2 & E3).
        simpl. unfold bufio.refill. rewrite bool_decide_true by by rewrite E2.
        eexists. split; [done|]. simpl. by rewrite E1.
    - (* more may come *)
      destruct (decide (bufio.window s = [])) as [Hw|Hw].
      + apply (Hnext s); try done.
        * rewrite Hw. done.
        * by apply offer_skip.
      + unfold unread in Hv, Hfit.
        destruct v as [adv t|st' t|].
        * destruct (split_tok _ _ _ false _ _ Hv) as (Ha & Htok & Hmore).
          destruct (decide (adv ≤ len (bufio.window s))) as [Hin|Hout].
          -- rewrite (offer_token split st s adv t);
               [|by rewrite He; apply Htok|lia].
             simpl. eexists. split; [done|].
             destruct (scanning_advance s adv t Hs) as (? & ? & Hu & Hr); [lia|].
             split_and!; try done.
          -- destruct (offer_more split st s He Hw) as (s1 & Ho & E); [apply Hmore; [lia|done]|].
             destruct E as (E1 & E2 & E3 & E4 & E5 & E6 & E7).
             apply (Hnext s1); try done; try congruence. simpl in Hfit. lia.
        * destruct (split_final _ _ _ _ _ Hv) as (Hmore & _).
          destruct (offer_more split st s He Hw (Hmore Hw)) as (s1 & Ho & E).
          destruct E as (E1 & E2 & E3 & E4 & E5 & E6 & E7).
          apply (Hnext s1); try done; try congruence. simpl in Hfit. rewrite len_app in Hfit.
          pose proof (len_nonneg (io.content (bufio.r s))). lia.
        * destruct (split_stop _ _ _ Hv) as (Hmore & _).
          destruct (offer_more split st s He Hw (Hmore Hw)) as (s1 & Ho & E).
          destruct E as (E1 & E2 & E3 & E4 & E5 & E6 & E7).
          apply (Hnext s1); try done; try congruence. simpl in Hfit. rewrite len_app in Hfit.
          pose proof (len_nonneg (io.content (bufio.r s))). lia.
  Qed.

End scan_by_verdict.

(** ** Pieces and tokens *)

Lemma pieces_from_skip d s : ∀ k cur,
  (k ≤ length s)%nat → pieces_from d k cur s = pieces_from d 0 cur (drop k s).
Proof.
  induction s as [|b s IH]; intros k cur Hk; destruct k as [|k]; simpl in *;
    try done; try lia.
  apply IH. lia.
Qed.

Lemma pieces_from_none d s : ∀ cur,
  find d s = None → pieces_from d 0 cur s = [cur ++ s].
Proof.
  induction s as [|b s IH]; intros cur; simpl.
  - by rewrite app_nil_r.
  - case_bool_decide; [done|].
    destruct (find d s) eqn:Hf; [done|]. intros _.
    rewrite IH by done. by rewrite <-app_assoc.
Qed.

Lemma pieces_from_some d s : ∀ cur i,
  d ≠ [] → find d s = Some i →
  pieces_from d 0 cur s =
    (cur ++ take i s) :: pieces_from d 0 [] (drop (i + length d) s).
Proof.
  induction s as [|b s IH]; intros cur i Hd; simpl.
  - case_bool_decide as Hp; [|done]. by apply prefix_nil_inv in Hp.
  - case_bool_decide as Hp.
    + intros [= <-]. simpl. rewrite app_nil_r. f_equal.
      destruct d as [|x d]; [done|]. simpl.
      rewrite Nat.sub_0_r. apply pieces_from_skip.
      apply prefix_length in Hp. simpl in Hp. lia.
    + destruct (find d s) as [m|] eqn:Hf; [|done]. intros [= <-].
      rewrite (IH _ m) by done. simpl. by rewrite <-app_assoc.
Qed.

Lemma pieces_from_cons d s : ∀ k cur, ∃ p ps, pieces_from d k cur s = p :: ps.
Proof.
  induction s as [|b s IH]; intros k cur; simpl; [by eexists _, _|].
  destruct k; [case_bool_decide|]; eauto.
Qed.

Lemma pieces_some d s i :
  d ≠ [] → find d s = Some i →
  pieces d s = take i s :: pieces d (drop (i + length d) s).
Proof. intros Hd Hf. unfold pieces. by rewrite (pieces_from_some d s [] i). Qed.

Lemma pieces_none d s : find d s = None → pieces d s = [s].
Proof. intros Hf. unfold pieces. by rewrite pieces_from_none. Qed.

Lemma tokens_some d s i :
  d ≠ [] → find d s = Some i →
  tokens d s = strip_cr d (take i s) :: tokens d (drop (i + length d) s).
Proof.
  intros Hd Hf. unfold tokens. rewrite (pieces_some d s i) by done.
  unfold pieces. destruct (pieces_from_cons d (drop (i + length d) s) 0 []) as (p & ps & ->).
  done.
Qed.

Lemma last_pieces_some d s i :
  d ≠ [] → find d s = Some i →
  last (pieces d s) = last (pieces d (drop (i + length d) s)).
Proof.
  intros Hd Hf. rewrite (pieces_some d s i) by done. unfold pieces.
  by destruct (pieces_from_cons d (drop (i + length d) s) 0 []) as (p & ps & ->).
Qed.

Lemma tokens_none d s :
  find d s = None → tokens d s = if bool_decide (s = []) then [] else [s].
Proof. intros Hf. unfold tokens. by rewrite pieces_none. Qed.

Lemma pieces_fit_some d s i :
  d ≠ [] → find d s = Some i → pieces_fit d (pieces d s) →
  Z.of_nat i + len d ≤ bufio.MaxScanTokenSize ∧
  pieces_fit d (pieces d (drop (i + length d) s)).
Proof.
  intros Hd Hf. rewrite (pieces_some d s i) by done.
  unfold pieces at 1 2.
  destruct (pieces_from_cons d (drop (i + length d) s) 0 []) as (p & ps & ->).
  intros [H1 H2]. split; [|done].
  apply find_bound in Hf. unfold len in *. rewrite length_take in H1. lia.
Qed.

Lemma pieces_fit_none d s :
  find d s = None → pieces_fit d (pieces d s) → len s < bufio.MaxScanTokenSize.
Proof. intros Hf. by rewrite pieces_none. Qed.

Lemma delim_is_newline d :
  (len d =? 1) && bool_decide (index d 0 = Some LF) = bool_decide (d = [LF]).
Proof.
  destruct d as [|x [|y d]]; unfold len, index; simpl.
  - done.
  - change (Z.of_nat 1 =? 1) with true. simpl.
    destruct (decide (x = LF)) as [->|Hx].
    + by rewrite !bool_decide_true.
    + rewrite !bool_decide_false; [done| |]; congruence.
  - rewrite (bool_decide_false (_ :: _ :: _ = _)) by done.
    destruct (Z.of_nat (S (S (length d))) =? 1) eqn:E; [blia|done].
Qed.

(** The token [scanArgs] cuts out for a match at [i] is the piece before
    the match, less a carriage return before a newline. *)
Lemma cut_strip_cr d data i :
  (i ≤ length data)%nat →
  subslice data 0 (cut d data (Z.of_nat i)) = strip_cr d (take i data).
Proof.
  intros Hi. rewrite subslice_0. unfold cut, strip_cr.
  rewrite <-andb_assoc, delim_is_newline.
  destruct (bool_decide (d = [LF])); rewrite ?andb_false_r, ?andb_true_r; simpl;
    [|by rewrite Nat2Z.id].
  rewrite last_lookup, length_take, Nat.min_l by done.
  destruct i as [|i].
  - simpl. change (Z.of_nat 0 >? 0) with false. done.
  - assert ((Z.of_nat (S i) >? 0) = true) as ->
      by (rewrite Z.gtb_ltb; apply Z.ltb_lt; lia).
    simpl.
    rewrite lookup_take_lt by lia.
    unfold index. destruct (Z.of_nat (S i) - 1 <? 0) eqn:E; [blia|].
    replace (Z.to_nat (Z.of_nat (S i) - 1)) with i by lia.
    destruct (bool_decide (data !! i = Some CR)).
    + rewrite take_take. f_equal. lia.
    + by rewrite Nat2Z.id.
Qed.

(** ** Args over a stream split at a delimiter *)

Section args_delimited.
  Context (h : gmap loc (list byte)) (d : list byte).
  Hypothesis Hd : d ≠ [].

Lemma delimited_by_inv st rest v :
    delimited_by h d st rest = Some v →
    bytes_of h (ArgsDelim st) = d ∧ v = delimited d st rest.
  Proof.
    unfold delimited_by. case_bool_decide; [|done]. by intros [= <-].
  Qed.

Lemma delimited_tok st w more atEOF adv t :
    delimited_by h d st (w ++ more) = Some (Tok adv t) →
    0 < adv ≤ len (w ++ more) ∧
    (adv ≤ len w → Input_scanArgs h st w atEOF = Ret (st, (adv, Some t, None))) ∧
    (len w < adv → w ≠ [] → Input_scanArgs h st w false = Ret (st, (0, None, None))).
  Proof.
    intros [Hst Hv]%delimited_by_inv. unfold delimited in Hv.
    destruct (find d (w ++ more)) as [i|] eqn:Hf; [|done].
    injection Hv as Hadv Ht. subst adv t.
    pose proof (find_bound _ _ _ Hf) as Hb.
    pose proof (len_delim_pos d Hd) as Hn.
    split; [unfold len in *; lia|]. split.
    - intros Hin.
      assert (Hw : find d w = Some i).
      { apply (find_app_inv _ _ more); [done|]. unfold len in *. lia. }
      rewrite (scanArgs_match h st d Hst Hd w atEOF i Hw).
      rewrite <-(emit_app d w more) by lia. done.
    - intros Hout Hne.
      apply (scanArgs_more h st d Hst Hd).
      destruct (find d w) as [m|] eqn:Hw; [|done].
      pose proof (find_bound _ _ _ Hw).
      apply (find_app_some _ _ more) in Hw. unfold len in *.
      assert (m = i) by congruence. lia.
  Qed.

Lemma delimited_final st w more st' t :
    delimited_by h d st (w ++ more) = Some (Final st' t) →
    (w ≠ [] → Input_scanArgs h st w false = Ret (st, (0, None, None))) ∧
    (more = [] →
     Input_scanArgs h st w true = Ret (st', (0, Some t, Some ErrFinalToken))).
  Proof.
    intros [Hst Hv]%delimited_by_inv. unfold delimited in Hv.
    destruct (find d (w ++ more)) as [i|] eqn:Hf; [done|].
    injection Hv as Hst' Ht. subst st' t. split.
    - intros _. apply (scanArgs_more h st d Hst Hd).
      by apply (find_app_none _ _ more).
    - intros ->. rewrite app_nil_r in *.
      by apply (scanArgs_final h st d Hst Hd).
  Qed.

Lemma delimited_stop st w more :
    delimited_by h d st (w ++ more) = Some Stop →
    (w ≠ [] → Input_scanArgs h st w false = Ret (st, (0, None, None))) ∧
    (more = [] → Input_scanArgs h st w true = Ret (st, (0, None, None))).
  Proof.
    intros [Hst Hv]%delimited_by_inv. unfold delimited in Hv.
    by destruct (find d (w ++ more)).
  Qed.

  (** The loop of [Args] collects the tokens of the unread stream. *)
Lemma Args_loop_delimited n fuel : ∀ in_ s a,
    bytes_of h (ArgsDelim in_) = d → skipToken in_ = false →
    scanning s → pieces_fit d (pieces d (unread s)) →
    (length (io.content (bufio.r s)) + 1 < n)%nat →
    (length (unread s) + 1 < fuel)%nat →
    ∃ s', Args_loop h n fuel in_ s a =
            Ret (a ++ tokens d (unread s),
                 with_skipToken (bool_decide (last (pieces d (unread s)) = Some [])) in_,
                 s') ∧
          io.content (bufio.r s') = [].
  Proof.
    induction fuel as [|fuel IH]; intros in_ s a Hin Hskip Hs Hfit Hn Hfuel; [lia|].
    simpl Args_loop. unfold bufio.Scan. rewrite (scanning_done s Hs).
    assert (Hv : delimited_by h d in_ (unread s) = Some (delimited d in_ (unread s))).
    { unfold delimited_by. by rewrite bool_decide_true. }
    pose proof (scanLoop_verdict (Input_scanArgs h) (delimited_by h d)
                  delimited_tok delimited_final delimited_stop
                  n in_ s _ Hs Hv) as Hscan.
    unfold delimited in Hscan.
    destruct (find d (unread s)) as [i|] eqn:Hf.
    - (* a token, and more to come *)
      destruct (pieces_fit_some d _ i Hd Hf Hfit) as [Hfit1 Hfit2].
      destruct Hscan as (s1 & -> & Hs1 & Htok & Hu & Hle).
      { done. }
      { destruct (bufio.err s); lia. }
      simpl. rewrite Hskip. simpl.
      pose proof (find_bound _ _ _ Hf) as Hb.
      pose proof (len_delim_pos d Hd) as Hpos.
      assert (Hdrop : unread s1 = drop (i + length d) (unread s)).
      { rewrite Hu. f_equal. unfold len. lia. }
      destruct (IH in_ s1 (a ++ [bufio.Text s1])) as (s' & -> & Hc); try done.
      { by rewrite Hdrop. }
      { lia. }
      { rewrite Hdrop, length_drop. unfold len in *. lia. }
      exists s'. split; [|done]. f_equal. f_equal. f_equal.
      + rewrite (tokens_some d (unread s) i) by done.
        rewrite <-app_assoc. simpl. f_equal. f_equal; [|by rewrite Hdrop].
        unfold bufio.Text. rewrite Htok. simpl. apply cut_strip_cr. lia.
      + f_equal. apply bool_decide_ext.
        by rewrite (last_pieces_some d (unread s) i), Hdrop.
    - (* the last token *)
      pose proof (pieces_fit_none d _ Hf Hfit) as Hfit1.
      destruct Hscan as (s1 & -> & Htok & Hdone & Hc).
      { done. }
      { destruct (bufio.err s); lia. }
      simpl. destruct fuel as [|fuel]; [lia|].
      simpl. unfold bufio.Scan. rewrite Hdone. simpl.
      exists s1. split; [|done]. rewrite (tokens_none _ _ Hf), (pieces_none _ _ Hf).
      simpl. unfold bufio.Text. rewrite Htok. simpl.
      destruct (unread s) as [|b u] eqn:Hu.
      + rewrite !bool_decide_true by done. by rewrite app_nil_r.
      + rewrite !bool_decide_false by done. done.
  Qed.

End args_delimited.

Lemma scanning_NewScanner rd : steady rd → scanning (bufio.NewScanner rd).
Proof. intros Hch. constructor; try done. Qed.


(** [Args] with no arguments, over a stream split at the delimiter [d]. *)
Lemma Input_Args_delimited in_ w rd d :
  streams w !! Stream in_ = Some rd →
  bytes_of (heap w) (ArgsDelim in_) = d → d ≠ [] →
  steady rd →
  pieces_fit d (pieces d (io.content rd)) →
  ∃ rd',
    Input_Args in_ [] w =
      Ret (tokens d (io.content rd),
           with_skipToken (bool_decide (last (pieces d (io.content rd)) = Some [])) in_,
           with_streams (<[Stream in_ := rd']> (streams w)) w) ∧
    io.content rd' = [].
Proof.
  intros Hrd Hdelim Hd Hch Hfit. unfold Input_Args.
  change (len (@nil gostring) =? 0) with true. cbv iota. rewrite Hrd.
  destruct (Args_loop_delimited (heap w) d Hd (budget rd) (budget rd)
              (with_skipToken false in_) (bufio.NewScanner rd) [])
    as (s' & -> & Hc); try done;
    try (by apply scanning_NewScanner);
    try (unfold budget, unread; simpl; lia).
  exists (bufio.r s'). split; [|done]. simpl. done.
Qed.

(** ** UTF-8 decoding *)

Lemma val_range b : 0 ≤ utf8.val b < 256.
Proof. unfold utf8.val. pose proof (Byte.to_N_bounded b). lia. Qed.

Lemma lead_info b0 :
  (utf8.first_of (utf8.val b0) >=? utf8.as_,
   Z.land (utf8.first_of (utf8.val b0)) 7,
   utf8.accept_of (utf8.first_of (utf8.val b0))) = lead_class (utf8.val b0).
Proof. destruct b0; vm_compute; reflexivity. Qed.

(** The width [DecodeRune] finds, read off the class of the first byte. *)
Lemma DecodeRune_width b0 tl :
  snd (utf8.DecodeRune (b0 :: tl)) =
    let p := b0 :: tl in
    let '(one, sz, (lo, hi)) := lead_class (utf8.val b0) in
    if one then 1
    else if len p <? sz then 1
    else if (utf8.at_ p 1 <? lo) || (hi <? utf8.at_ p 1) then 1
    else if sz <=? 2 then 2
    else if (utf8.at_ p 2 <? utf8.locb) || (utf8.hicb <? utf8.at_ p 2) then 1
    else if sz <=? 3 then 3
    else if (utf8.at_ p 3 <? utf8.locb) || (utf8.hicb <? utf8.at_ p 3) then 1
    else 4.
Proof.
  pose proof (lead_info b0) as H.
  destruct (lead_class (utf8.val b0)) as [[one sz] [lo hi]].
  injection H as H1 H2 H3.
  unfold utf8.DecodeRune. cbv zeta.
  assert ((len (b0 :: tl) <? 1) = false) as ->.
  { apply Z.ltb_ge. unfold len. simpl. lia. }
  change (utf8.at_ (b0 :: tl) 0) with (utf8.val b0).
  rewrite H1, H2, H3.
  repeat (case_if; try done).
Qed.

(** Does [FullRune] see a whole rune, read off the class of the first byte. *)
Lemma FullRune_class b0 tl :
  utf8.FullRune (b0 :: tl) =
    let p := b0 :: tl in
    let '(_, sz, (lo, hi)) := lead_class (utf8.val b0) in
    if len p >=? sz then true
    else if (len p >? 1) && ((utf8.at_ p 1 <? lo) || (hi <? utf8.at_ p 1)) then true
    else if (len p >? 2) && ((utf8.at_ p 2 <? utf8.locb) || (utf8.hicb <? utf8.at_ p 2))
         then true
    else false.
Proof.
  pose proof (lead_info b0) as H.
  destruct (lead_class (utf8.val b0)) as [[one sz] [lo hi]].
  injection H as H1 H2 H3.
  unfold utf8.FullRune. cbv zeta.
  assert ((len (b0 :: tl) =? 0) = false) as ->.
  { apply Z.eqb_neq. unfold len. simpl. lia. }
  change (utf8.at_ (b0 :: tl) 0) with (utf8.val b0).
  rewrite H2, H3. done.
Qed.

Lemma ScanRunes_wellformed r tl atEOF :
  wellformed r = true →
  bufio.ScanRunes (r ++ tl) atEOF = Ret (len r, Some r, None).
Proof.
  intros H.
  destruct r as [|b0 [|b1 [|b2 [|b3 [|b4 r]]]]]; try done;
    unfold wellformed in H; unfold bufio.ScanRunes.
  all: assert ((atEOF && (len ((b0 :: _) ++ tl) =? 0)) = false) as ->
         by (apply andb_false_iff; right; apply Z.eqb_neq; unfold len; simpl; lia).
  all: simpl app; cbv iota.
  - (* ASCII *)
    case_if; [done|bytes_lia].
  - case_if; [bytes_lia|].
    pose proof (DecodeRune_width b0 (b1 :: tl)) as Hw.
    destruct (utf8.DecodeRune _) as [rn width]. cbv zeta in Hw. simpl snd in Hw.
    unfold lead_class in Hw.
    repeat (case_if_in Hw; try bytes_lia).
    subst width. done.
  - case_if; [bytes_lia|].
    pose proof (DecodeRune_width b0 (b1 :: b2 :: tl)) as Hw.
    destruct (utf8.DecodeRune _) as [rn width]. cbv zeta in Hw. simpl snd in Hw.
    unfold lead_class in Hw.
    repeat (case_if_in Hw; try bytes_lia).
    all: subst width; done.
  - case_if; [bytes_lia|].
    pose proof (DecodeRune_width b0 (b1 :: b2 :: b3 :: tl)) as Hw.
    destruct (utf8.DecodeRune _) as [rn width]. cbv zeta in Hw. simpl snd in Hw.
    unfold lead_class in Hw.
    repeat (case_if_in Hw; try bytes_lia).
    all: subst width; done.
Qed.

(** A proper part of a well-formed rune makes [ScanRunes] ask for more. *)
Lemma ScanRunes_partial w x y :
  w ≠ [] → wellformed (w ++ x :: y) = true →
  bufio.ScanRunes w false = Ret (0, None, None).
Proof.
  intros Hne H.
  destruct w as [|b0 [|b1 [|b2 [|b3 [|b4 w]]]]]; try done;
    destruct y as [|y1 [|y2 [|y3 y]]]; try done;
    simpl in H; try done;
    unfold bufio.ScanRunes; simpl andb; cbv iota.
  all: case_if; [bytes_lia|].
  all: match goal with
       | |- context [utf8.DecodeRune (?b :: ?t)] =>
         pose proof (DecodeRune_width b t) as Hw;
         pose proof (FullRune_class b t) as Hf
       end.
  all: destruct (utf8.DecodeRune _) as [rn width]; cbv zeta in Hw, Hf; simpl snd in Hw.
  all: unfold lead_class in Hw, Hf.
  all: repeat (case_if_in Hw; try bytes_lia).
  all: subst width.
  all: repeat (case_if_in Hf; try bytes_lia).
  all: rewrite Hf; done.
Qed.

(** ** UTF-8 encoding *)

Lemma val_byte_of z : 0 ≤ z < 256 → utf8.val (byte_of z) = z.
Proof.
  intros Hz. unfold byte_of, utf8.val.
  destruct (Byte.of_N (Z.to_N z)) as [b|] eqn:E; simpl.
  - apply Byte.to_of_N in E. lia.
  - apply Byte.of_N_None_iff in E. lia.
Qed.

Lemma wellformed_encode c : scalar_value c → wellformed (encode c) = true.
Proof.
  intros Hc. unfold scalar_value in Hc. unfold encode.
  repeat case_if; b2p; unfold wellformed, in_range;
    rewrite !val_byte_of by dlia.
  - btrue; lia.
  - btrue; dlia.
  - assert (c / 4096 = 0 ∨ 1 ≤ c / 4096 ≤ 12 ∨ c / 4096 = 13 ∨ 14 ≤ c / 4096 ≤ 15)
      as [H|[H|[H|H]]] by dlia.
    + apply orb_true_iff; left. apply orb_true_iff; left. apply orb_true_iff; left.
      btrue; dlia.
    + apply orb_true_iff; left. apply orb_true_iff; left. apply orb_true_iff; right.
      btrue; dlia.
    + apply orb_true_iff; left. apply orb_true_iff; right.
      btrue; dlia.
    + apply orb_true_iff; right.
      btrue; dlia.
  - assert (c / 262144 = 0 ∨ 1 ≤ c / 262144 ≤ 3 ∨ c / 262144 = 4)
      as [H|[H|H]] by dlia.
    + apply orb_true_iff; left. apply orb_true_iff; left.
      btrue; dlia.
    + apply orb_true_iff; left. apply orb_true_iff; right.
      btrue; dlia.
    + apply orb_true_iff; right.
      btrue; dlia.
Qed.

Lemma encode_lead c :
  scalar_value c →
  ∃ b0 tl, encode c = b0 :: tl ∧ lead_len (utf8.val b0) = length (encode c).
Proof.
  intros Hc. unfold scalar_value in Hc. unfold encode.
  repeat case_if; b2p; eexists _, _; (split; [done|]);
    rewrite val_byte_of by dlia; unfold lead_len;
    repeat case_if; b2p; try done; dlia.
Qed.

(** ** Args over a stream split into runes *)

Lemma lead_len_bounds v : (1 ≤ lead_len v ≤ 4)%nat.
Proof. unfold lead_len. repeat case_if; lia. Qed.

Lemma encode_length c : (1 ≤ length (encode c) ≤ 4)%nat.
Proof. unfold encode. repeat case_if; simpl; lia. Qed.

Lemma by_rune_encode c rest :
  scalar_value c →
  by_rune (encode c ++ rest) = Some (Tok (len (encode c)) (encode c)).
Proof.
  intros Hc. destruct (encode_lead c Hc) as (b0 & tl & E & Hk).
  pose proof (wellformed_encode c Hc) as Hwf.
  unfold by_rune. rewrite E in *. simpl app. cbv iota zeta.
  rewrite Hk.
  change (b0 :: tl ++ rest) with ((b0 :: tl) ++ rest).
  rewrite take_app_length, Hwf.
  rewrite (proj2 (Nat.leb_le _ _)) by (rewrite length_app; lia).
  done.
Qed.

Section args_runes.
  Context (h : gmap loc (list byte)).

Lemma split_by_rune_inv st rest v :
  split_by_rune h st rest = Some v →
  bytes_of h (ArgsDelim st) = [] ∧ by_rune rest = Some v.
Proof. unfold split_by_rune. by case_bool_decide. Qed.

Lemma scanArgs_runes st data atEOF :
  bytes_of h (ArgsDelim st) = [] →
  Input_scanArgs h st data atEOF =
    (out ← bufio.ScanRunes data atEOF; Ret (st, out)).
Proof. intros Hst. unfold Input_scanArgs. rewrite Hst. done. Qed.

Lemma by_rune_tok rest adv t :
  by_rune rest = Some (Tok adv t) →
  ∃ k, adv = Z.of_nat k ∧ t = take k rest ∧ (1 ≤ k ≤ length rest)%nat ∧
       wellformed (take k rest) = true.
Proof.
  unfold by_rune. destruct rest as [|b0 rest]; [done|]. cbv zeta.
  destruct (_ && _) eqn:E; [|done]. intros [= <- <-].
  apply andb_true_iff in E as [E1 E2]. apply Nat.leb_le in E1.
  eexists. split_and!; try done. apply lead_len_bounds.
Qed.

Lemma runes_tok st w more atEOF adv t :
  split_by_rune h st (w ++ more) = Some (Tok adv t) →
  0 < adv ≤ len (w ++ more) ∧
  (adv ≤ len w → Input_scanArgs h st w atEOF = Ret (st, (adv, Some t, None))) ∧
  (len w < adv → w ≠ [] → Input_scanArgs h st w false = Ret (st, (0, None, None))).
Proof.
  intros [Hst Hv]%split_by_rune_inv.
  apply by_rune_tok in Hv as (k & -> & -> & Hk & Hwf).
  split; [unfold len; lia|]. split.
  - intros Hin. unfold len in Hin.
    rewrite take_app_le in Hwf |- * by lia.
    rewrite scanArgs_runes by done.
    rewrite <-(take_drop k w) at 1.
    rewrite (ScanRunes_wellformed _ _ _ Hwf). simpl.
    unfold len. rewrite length_take. do 4 f_equal. lia.
  - intros Hout Hne. unfold len in Hout.
    rewrite scanArgs_runes by done.
    rewrite take_app_ge in Hwf by lia.
    destruct (take (k - length w) more) as [|x y] eqn:Hm.
    { apply (f_equal length) in Hm. rewrite length_take, length_app in *.
      simpl in Hm. lia. }
    by rewrite (ScanRunes_partial w x y Hne Hwf).
Qed.

Lemma runes_final st w more st' t :
  split_by_rune h st (w ++ more) = Some (Final st' t) →
  (w ≠ [] → Input_scanArgs h st w false = Ret (st, (0, None, None))) ∧
  (more = [] →
   Input_scanArgs h st w true = Ret (st', (0, Some t, Some ErrFinalToken))).
Proof.
  intros [Hst Hv]%split_by_rune_inv. unfold by_rune in Hv.
  destruct (w ++ more); [done|]. by destruct (_ && _).
Qed.

Lemma runes_stop st w more :
  split_by_rune h st (w ++ more) = Some Stop →
  (w ≠ [] → Input_scanArgs h st w false = Ret (st, (0, None, None))) ∧
  (more = [] → Input_scanArgs h st w true = Ret (st, (0, None, None))).
Proof.
  intros [Hst Hv]%split_by_rune_inv. unfold by_rune in Hv.
  destruct (w ++ more) as [|b0 rest] eqn:E; [|by destruct (_ && _)].
  apply app_eq_nil in E as [-> ->]. split; [done|]. intros _.
  by rewrite scanArgs_runes.
Qed.

(** The loop of [Args] collects the runes of the unread stream. *)
Lemma Args_loop_runes n : ∀ cps fuel in_ s a,
  bytes_of h (ArgsDelim in_) = [] → skipToken in_ = false →
  scanning s → Forall scalar_value cps →
  unread s = concat (map encode cps) →
  (length (io.content (bufio.r s)) + 1 < n)%nat →
  (length cps < fuel)%nat →
  ∃ s', Args_loop h n fuel in_ s a = Ret (a ++ map encode cps, in_, s') ∧
        io.content (bufio.r s') = [].
Proof.
  induction cps as [|c cps IH]; intros fuel in_ s a Hin Hskip Hs Hcps Hu Hn Hfuel;
    (destruct fuel as [|fuel]; [lia|]);
    simpl Args_loop; unfold bufio.Scan; rewrite (scanning_done s Hs).
  - assert (Hv : split_by_rune h in_ (unread s) = Some Stop).
    { unfold split_by_rune. rewrite bool_decide_true by done. by rewrite Hu. }
    destruct (scanLoop_verdict (Input_scanArgs h) (split_by_rune h)
                runes_tok runes_final runes_stop n in_ s _ Hs Hv)
      as (s' & -> & Hc).
    { rewrite Hu. done. }
    { destruct (bufio.err s); lia. }
    simpl. exists s'. by rewrite app_nil_r.
  - inversion Hcps as [|? ? Hc Hcps']; subst.
    simpl in Hu.
    assert (Hv : split_by_rune h in_ (unread s)
                 = Some (Tok (len (encode c)) (encode c))).
    { unfold split_by_rune. rewrite bool_decide_true by done.
      rewrite Hu. by apply by_rune_encode. }
    destruct (scanLoop_verdict (Input_scanArgs h) (split_by_rune h)
                runes_tok runes_final runes_stop n in_ s _ Hs Hv)
      as (s1 & -> & Hs1 & Htok & Hu1 & Hle).
    { simpl. pose proof (encode_length c). unfold len. rewrite MaxScanTokenSize_val. lia. }
    { destruct (bufio.err s); lia. }
    simpl. rewrite Hskip. simpl.
    destruct (IH fuel in_ s1 (a ++ [bufio.Text s1])) as (s' & -> & Hc'); try done.
    { rewrite Hu1, Hu. unfold len. rewrite Nat2Z.id. by rewrite drop_app_length. }
    { lia. }
    { simpl in Hfuel. lia. }
    exists s'. split; [|done]. unfold bufio.Text. rewrite Htok. simpl.
    by rewrite <-app_assoc.
Qed.

End args_runes.

Lemma length_concat_encode cps :
  (length cps ≤ length (concat (map encode cps)))%nat.
Proof.
  induction cps as [|c cps IH]; simpl; [done|].
  rewrite length_app. pose proof (encode_length c). lia.
Qed.

(** [Args] with no arguments and an empty delimiter, over a stream of
    UTF-8 encoded code points. *)
Lemma Input_Args_runes in_ w rd cps :
  streams w !! Stream in_ = Some rd →
  bytes_of (heap w) (ArgsDelim in_) = [] →
  steady rd →
  Forall scalar_value cps →
  io.content rd = concat (map encode cps) →
  ∃ rd',
    Input_Args in_ [] w =
      Ret (map encode cps, with_skipToken false in_,
           with_streams (<[Stream in_ := rd']> (streams w)) w) ∧
    io.content rd' = [].
Proof.
  intros Hrd Hdelim Hch Hcps Hcontent. unfold Input_Args.
  change (len (@nil gostring) =? 0) with true. cbv iota. rewrite Hrd.
  pose proof (length_concat_encode cps).
  destruct (Args_loop_runes (heap w) (budget rd) cps (budget rd)
              (with_skipToken false in_) (bufio.NewScanner rd) [])
    as (s' & -> & Hc); try done;
    try (by apply scanning_NewScanner);
    try (unfold budget, unread; simpl; rewrite ?Hcontent; simpl; lia).
  exists (bufio.r s'). split; [|done]. simpl. done.
Qed.

Lemma find_intro d : ∀ data i,
  d `prefix_of` drop i data → (i ≤ length data)%nat →
  (∀ j, (j < i)%nat → ¬ d `prefix_of` drop j data) →
  find d data = Some i.
Proof.
  induction data as [|b data IH]; intros i Hp Hi Hfirst; simpl.
  - assert (i = 0)%nat as -> by (simpl in Hi; lia).
    by rewrite bool_decide_true.
  - destruct i as [|i].
    + by rewrite bool_decide_true.
    + rewrite bool_decide_false by (apply (Hfirst 0%nat); lia).
      rewrite (IH i); [done|done|simpl in Hi; lia|].
      intros j Hj. apply (Hfirst (S j)). lia.
Qed.

Lemma find_first d data i j :
  find d data = Some i → (j < i)%nat → ¬ d `prefix_of` drop j data.
Proof.
  revert i j. induction data as [|b data IH]; intros i j; simpl.
  - case_bool_decide; [|done]. intros [= <-]. lia.
  - case_bool_decide as Hp; [intros [= <-]; lia|].
    destruct (find d data) as [m|] eqn:Hf; [|done]. intros [= <-] Hj.
    destruct j as [|j]; [done|]. simpl. apply (IH m); [done|lia].
Qed.

(** ** Fields, Reader *)

Lemma Fields_loop_filter args : ∀ a,
  Fields_loop args a = a ++ filter (λ s, s ≠ []) args.
Proof.
  induction args as [|s args IH]; intros a; simpl.
  - by rewrite app_nil_r.
  - rewrite IH. case_bool_decide as Hs.
    + rewrite filter_cons_True by done. by rewrite <-app_assoc.
    + rewrite filter_cons_False; [done|]. by intros ?.
Qed.

Lemma with_input_same w : with_input (input w) w = w.
Proof. by destruct w. Qed.

(** ** The error that ends a stream does not show *)

Lemma same_but_error_setErr e1 e2 s1 s2 :
  same_but_error s1 s2 → same_but_error (bufio.setErr e1 s1) (bufio.setErr e2 s2).
Proof.
  intros H. sim_start s1 s2 H. unfold bufio.setErr. simpl.
  destruct er1 as [[]|], er2 as [[]|]; simpl; unfold same_but_error; simpl;
    split_and!; try done.
Qed.

Lemma same_but_error_err s1 s2 :
  same_but_error s1 s2 →
  bool_decide (bufio.err s1 ≠ None) = bool_decide (bufio.err s2 ≠ None).
Proof.
  intros (_ & _ & _ & _ & _ & _ & _ & He & _). apply bool_decide_ext. by rewrite He.
Qed.

Lemma same_but_error_readOnce s1 s2 :
  same_but_error s1 s2 →
  alike_sum same_but_error same_but_error (bufio.readOnce s1) (bufio.readOnce s2).
Proof.
  intros H. sim_start s1 s2 H.
  unfold bufio.readOnce, io.Read, bufio.end_. simpl.
  destruct c2 as [|b c]; simpl.
  - case_if; simpl; apply same_but_error_setErr; unfold same_but_error; simpl; done.
  - case_if; simpl; [apply same_but_error_setErr; unfold same_but_error; simpl; done|].
    case_if; simpl; unfold same_but_error; simpl; done.
Qed.

Lemma same_but_error_readLoop k : ∀ s1 s2,
  same_but_error s1 s2 →
  same_but_error (bufio.readLoop k s1) (bufio.readLoop k s2).
Proof.
  induction k as [|k IH]; intros s1 s2 H; simpl;
    pose proof (same_but_error_readOnce s1 s2 H) as Ho;
    destruct (bufio.readOnce s1), (bufio.readOnce s2); simpl in Ho; try done.
  - by apply same_but_error_setErr.
  - by apply IH.
Qed.

#[local] Arguments bufio.readLoop : simpl never.

Lemma same_but_error_refill s1 s2 :
  same_but_error s1 s2 →
  alike_sum same_but_error same_but_error (bufio.refill s1) (bufio.refill s2).
Proof.
  intros H.
  pose proof (same_but_error_err s1 s2 H) as He.
  sim_start s1 s2 H.
  unfold bufio.refill. simpl in He |- *. rewrite He.
  case_if; simpl; [unfold same_but_error; simpl; done|].
  unfold bufio.end_. simpl.
  destruct ((st2 >? 0) && _); simpl;
    repeat (case_if; simpl);
    try (apply same_but_error_setErr);
    try (apply same_but_error_readLoop);
    unfold same_but_error; simpl; done.
Qed.

Section same_but_error_scan.
  Context {St : Type} (split : bufio.SplitFunc St).

Lemma same_but_error_offer st s1 s2 :
  same_but_error s1 s2 →
  alike (alike_sum same_return same_state)
        (bufio.offer split st s1) (bufio.offer split st s2).
Proof.
  intros H.
  pose proof (same_but_error_err s1 s2 H) as He.
  assert (He' : bool_decide (bufio.err s1 = None) = bool_decide (bufio.err s2 = None)).
  { apply bool_decide_ext. apply H. }
  sim_start s1 s2 H.
  unfold bufio.offer, bufio.end_. simpl in He, He' |- *. rewrite He.
  assert (Hsame : ∀ tk w0 a em dn,
    same_but_error (bufio.mkScanner (io.mkReader c2 ch2 f1) mx2 tk w0 bl2 a er1 em dn)
                   (bufio.mkScanner (io.mkReader c2 ch2 f2) mx2 tk w0 bl2 a er2 em dn)).
  { intros. unfold same_but_error. simpl. done. }
  assert (Hret : ∀ (b : bool) (st0 : St) tk w0 a em dn,
    same_return
      (b, st0, bufio.mkScanner (io.mkReader c2 ch2 f1) mx2 tk w0 bl2 a er1 em dn)
      (b, st0, bufio.mkScanner (io.mkReader c2 ch2 f2) mx2 tk w0 bl2 a er2 em dn)).
  { intros. unfold same_return. split_and!; try done. }
  assert (Hfail : ∀ (b : bool) (st0 : St) tk w0 a em dn x y,
    same_return
      (b, st0, bufio.setErr x
                 (bufio.mkScanner (io.mkReader c2 ch2 f1) mx2 tk w0 bl2 a er1 em dn))
      (b, st0, bufio.setErr y
                 (bufio.mkScanner (io.mkReader c2 ch2 f2) mx2 tk w0 bl2 a er2 em dn))).
  { intros. unfold same_return. split_and!; try done.
    by apply same_but_error_setErr. }
  assert (Hstate : ∀ (st0 : St) tk w0 a em dn,
    same_state
      (st0, bufio.mkScanner (io.mkReader c2 ch2 f1) mx2 tk w0 bl2 a er1 em dn)
      (st0, bufio.mkScanner (io.mkReader c2 ch2 f2) mx2 tk w0 bl2 a er2 em dn)).
  { intros. unfold same_state. split; [done|]. apply Hsame; done. }
  case_if; simpl; [|apply Hstate].
  destruct (split st w2 _) as [[st' [[adv tok] e]]| |]; simpl; try done.
  destruct e as [e|]; simpl.
  - destruct (bool_decide (e = ErrFinalToken)); simpl; [apply Hret|apply Hfail].
  - unfold bufio.advance, bufio.end_. simpl.
    case_if; simpl; [apply Hfail|].
    case_if; simpl; [apply Hfail|].
    destruct tok as [t|]; simpl; [|apply Hstate].
    rewrite He'.
    case_if; simpl; [apply Hret|].
    case_if; simpl; [done|].
    apply Hret.
Qed.

Lemma same_but_error_scanLoop fuel : ∀ st s1 s2,
  same_but_error s1 s2 →
  alike same_return (bufio.scanLoop split fuel st s1) (bufio.scanLoop split fuel st s2).
Proof.
  induction fuel as [|fuel IH]; intros st s1 s2 H; simpl; [done|].
  pose proof (same_but_error_offer st s1 s2 H) as Ho.
  destruct (bufio.offer split st s1) as [[[[b1 st1] a1]|[st1 a1]]| |],
           (bufio.offer split st s2) as [[[[b2 st2] a2]|[st2 a2]]| |];
    simpl in Ho |- *; try done.
  destruct Ho as [-> Ha].
  pose proof (same_but_error_refill a1 a2 Ha) as Hr.
  destruct (bufio.refill a1), (bufio.refill a2); simpl in Hr |- *; try done.
  by apply IH.
Qed.

Lemma same_but_error_Scan fuel st s1 s2 :
  same_but_error s1 s2 →
  alike same_return (bufio.Scan split fuel st s1) (bufio.Scan split fuel st s2).
Proof.
  intros H. unfold bufio.Scan.
  assert (bufio.done s1 = bufio.done s2) as -> by apply H.
  destruct (bufio.done s2); simpl; [done|]. by apply same_but_error_scanLoop.
Qed.

End same_but_error_scan.

Lemma same_but_error_Args_loop h n fuel : ∀ in_ s1 s2 a,
  same_but_error s1 s2 →
  alike same_return (Args_loop h n fuel in_ s1 a) (Args_loop h n fuel in_ s2 a).
Proof.
  induction fuel as [|fuel IH]; intros in_ s1 s2 a H; simpl; [done|].
  pose proof (same_but_error_Scan (Input_scanArgs h) n in_ s1 s2 H) as Hs.
  destruct (bufio.Scan (Input_scanArgs h) n in_ s1) as [[[b1 i1] a1]| |],
           (bufio.Scan (Input_scanArgs h) n in_ s2) as [[[b2 i2] a2]| |];
    simpl in Hs |- *; try done.
  destruct Hs as (-> & -> & Ha).
  destruct b2; simpl; [|done].
  assert (bufio.Text a1 = bufio.Text a2) as ->.
  { unfold bufio.Text. by rewrite (proj1 (proj2 (proj2 (proj2 Ha)))). }
  by apply IH.
Qed.

(** ** Args returns, whatever the stream *)

(** The answers of [scanArgs]: it never panics on what the scanner hands
    it, a token comes with a positive advance, and the only error is the
    final token's. *)
Lemma scanArgs_answers h in_ data atEOF :
  data ≠ [] ∨ atEOF = true →
  ∃ in' adv tok e,
    Input_scanArgs h in_ data atEOF = Ret (in', (adv, tok, e)) ∧
    ((e = None ∧ 0 ≤ adv ∧ (tok ≠ None → 0 < adv)) ∨
     (e = Some ErrFinalToken ∧ tok ≠ None)).
Proof.
  intros Hdata.
  destruct (decide (bytes_of h (ArgsDelim in_) = [])) as [Hd|Hd].
  - rewrite scanArgs_runes by done. unfold bufio.ScanRunes.
    destruct (atEOF && (len data =? 0)) eqn:E; simpl.
    { eexists _, _, _, _. split; [done|]. left. done. }
    destruct data as [|b0 data].
    { destruct Hdata as [Hdata| ->]; [done|]. simpl in E.
      change (len (@nil byte) =? 0) with true in E. done. }
    case_if; simpl.
    { eexists _, _, _, _. split; [done|]. left. done. }
    destruct (utf8.DecodeRune (b0 :: data)) as [rn width].
    case_if; simpl.
    { eexists _, _, _, _. split; [done|]. left. split_and!; try done; blia. }
    case_if; simpl; eexists _, _, _, _; (split; [done|]); left; done.
  - destruct (find (bytes_of h (ArgsDelim in_)) data) as [i|] eqn:Hf.
    + rewrite (scanArgs_match h in_ _ eq_refl Hd data atEOF i Hf). unfold emit.
      eexists _, _, _, _. split; [done|]. left.
      pose proof (len_delim_pos _ Hd). split_and!; try done; lia.
    + destruct atEOF.
      * rewrite (scanArgs_final h in_ _ eq_refl Hd data Hf).
        eexists _, _, _, _. split; [done|]. right. done.
      * rewrite (scanArgs_more h in_ _ eq_refl Hd data Hf).
        eexists _, _, _, _. split; [done|]. left. done.
Qed.

(** One pass of the read loop, for any reader. *)
Lemma readOnce_any s :
  bufio.err s = None →
  match bufio.readOnce s with
  | inl s' =>
    (bufio.err s' ≠ None ∨
     (length (io.content (bufio.r s')) < length (io.content (bufio.r s)))%nat) ∧
    (length (io.content (bufio.r s')) ≤ length (io.content (bufio.r s)))%nat ∧
    (length (unread s') ≤ length (unread s))%nat ∧
    bufio.done s' = bufio.done s
  | inr s' =>
    bufio.err s' = None ∧
    (length (io.content (bufio.r s')) ≤ length (io.content (bufio.r s)))%nat ∧
    (length (unread s') ≤ length (unread s))%nat ∧
    bufio.done s' = bufio.done s
  end.
Proof.
  intros He. destruct s as [[c ch f] mx tk w bl st e em dn]. simpl in He. subst e.
  unfold bufio.readOnce, io.Read, bufio.end_, unread. simpl.
  destruct c as [|b c]; simpl.
  - case_if; simpl; rewrite ?app_nil_r; split_and!; try done; by left.
  - set (n := match ch with [] => _ | _ => _ end). clearbody n.
    assert (Hlen : (length (take n (b :: c)) + length (drop n (b :: c))
                    = length (b :: c))%nat).
    { by rewrite <-length_app, take_drop. }
    case_if; simpl.
    { rewrite ?length_app. simpl in *. split_and!; try done; try lia. by left. }
    case_if; simpl; rewrite ?length_app; simpl in *.
    + split_and!; try done; try lia. right. norm. blia.
    + split_and!; try done; try lia.
Qed.

Lemma readLoop_any k : ∀ s,
  bufio.err s = None →
  let s' := bufio.readLoop k s in
  (bufio.err s' ≠ None ∨
   (length (io.content (bufio.r s')) < length (io.content (bufio.r s)))%nat) ∧
  (length (io.content (bufio.r s')) ≤ length (io.content (bufio.r s)))%nat ∧
  (length (unread s') ≤ length (unread s))%nat ∧
  bufio.done s' = bufio.done s.
Proof.
  induction k as [|k IH]; intros s He; cbv zeta;
    pose proof (readOnce_any s He) as Ho.
  - change (bufio.readLoop 0 s) with
      (match bufio.readOnce s with
       | inl s0 => s0
       | inr s0 => bufio.setErr ErrNoProgress s0
       end).
    destruct (bufio.readOnce s) as [s'|s']; [done|].
    destruct Ho as (He' & ? & ? & ?).
    unfold bufio.setErr. rewrite He'. simpl. split_and!; try done. by left.
  - change (bufio.readLoop (S k) s) with
      (match bufio.readOnce s with
       | inl s0 => s0
       | inr s0 => bufio.readLoop k s0
       end).
    destruct (bufio.readOnce s) as [s'|s']; [done|].
    destruct Ho as (He' & Hc1 & Hu1 & Hd1).
    destruct (IH s' He') as (Hp & Hc2 & Hu2 & Hd2).
    split_and!; try lia; [|congruence].
    destruct Hp as [Hp|Hp]; [by left|right; lia].
Qed.

Lemma refill_any s :
  match bufio.refill s with
  | inl _ => True
  | inr s' =>
    bufio.err s = None ∧
    (bufio.err s' ≠ None ∨
     (length (io.content (bufio.r s')) < length (io.content (bufio.r s)))%nat) ∧
    (length (io.content (bufio.r s')) ≤ length (io.content (bufio.r s)))%nat ∧
    (length (unread s') ≤ length (unread s))%nat ∧
    bufio.done s' = bufio.done s
  end.
Proof.
  destruct s as [rd mx tk w bl st e em dn].
  unfold bufio.refill. simpl.
  case_bool_decide as He; [done|].
  assert (e = None) as -> by (by destruct e).
  unfold bufio.end_. simpl.
  destruct ((st >? 0) && _); simpl; repeat (case_if; simpl); try done;
    match goal with
    | |- context [bufio.readLoop ?k ?s0] =>
      pose proof (readLoop_any k s0 eq_refl) as Hr
    end;
    cbv zeta in Hr; unfold unread in *; simpl in Hr; by split.
Qed.

Lemma offer_any h st s :
  match bufio.offer (Input_scanArgs h) st s with
  | Ret (inl (b, _, s')) =>
    b = true →
    (bufio.done s' = true ∨ (length (unread s') < length (unread s))%nat) ∧
    (length (unread s') ≤ length (unread s))%nat ∧
    (length (io.content (bufio.r s')) ≤ length (io.content (bufio.r s)))%nat
  | Ret (inr (_, s')) =>
    bufio.r s' = bufio.r s ∧ bufio.err s' = bufio.err s ∧
    (length (unread s') ≤ length (unread s))%nat
  | _ => False
  end.
Proof.
  destruct s as [rd mx tk w bl sta e em dn].
  unfold bufio.offer, bufio.end_. simpl.
  case_if; simpl; [|done].
  destruct (scanArgs_answers h st w (bool_decide (e ≠ None)))
    as (in' & adv & tok & er & -> & Hans).
  { destruct w as [|b w]; [|by left]. right.
    unfold len in *. simpl in *. change (Z.of_nat 0) with 0 in *.
    b2p; [lia|]. by apply bool_decide_eq_true. }
  simpl. destruct Hans as [(-> & Hadv & Hpos)|(-> & Htok)].
  - unfold bufio.advance, bufio.end_. simpl.
    case_if; simpl; [done|].
    case_if; simpl; [done|].
    destruct tok as [t|]; simpl.
    + assert (0 < adv) by (by apply Hpos).
      assert (Hshrink : (length (drop (Z.to_nat adv) w ++ io.content rd)
                         < length (w ++ io.content rd))%nat).
      { rewrite !length_app, length_drop. unfold len in *. blia. }
      case_if; simpl.
      * intros _. unfold unread. simpl. split_and!; [by right|lia|done].
      * case_if; simpl; [blia|]. intros _. unfold unread. simpl.
        split_and!; [by right|lia|done].
    + unfold unread. simpl. split_and!; try done.
      rewrite !length_app, length_drop. lia.
  - rewrite bool_decide_true by done. simpl. intros _.
    unfold unread. simpl. split_and!; [by left|done|done].
Qed.

Lemma scanLoop_total h fuel : ∀ st s,
  (length (io.content (bufio.r s))
   + match bufio.err s with Some _ => 0 | None => 1 end < fuel)%nat →
  ∃ b st' s',
    bufio.scanLoop (Input_scanArgs h) fuel st s = Ret (b, st', s') ∧
    (b = true →
     (bufio.done s' = true ∨ (length (unread s') < length (unread s))%nat) ∧
     (length (unread s') ≤ length (unread s))%nat ∧
     (length (io.content (bufio.r s')) ≤ length (io.content (bufio.r s)))%nat).
Proof.
  induction fuel as [|fuel IH]; intros st s Hfuel; [lia|].
  simpl. pose proof (offer_any h st s) as Ho.
  destruct (bufio.offer (Input_scanArgs h) st s) as [[[[b st'] s']|[st' s1]]| |];
    simpl; try done.
  { eexists _, _, _. split; [done|]. done. }
  destruct Ho as (Hr1 & He1 & Hu1).
  pose proof (refill_any s1) as Hr.
  destruct (bufio.refill s1) as [s2|s2].
  { eexists _, _, _. split; [done|]. done. }
  destruct Hr as (He & Hp & Hc & Hu & Hd).
  destruct (IH st' s2) as (b & st'' & s3 & -> & Hb).
  { rewrite Hr1 in *. rewrite <-He1, He in Hfuel.
    destruct Hp as [Hp|Hp]; destruct (bufio.err s2); try done; lia. }
  eexists _, _, _. split; [done|].
  intros Hb'. destruct (Hb Hb') as (Hb1 & Hb2 & Hb3). rewrite Hr1 in *.
  split_and!; [|lia|lia]. destruct Hb1 as [?|?]; [by left|right; lia].
Qed.

Lemma Args_loop_total h n fuel : ∀ in_ s a,
  (length (unread s) + (if bufio.done s then 0 else 1) < fuel)%nat →
  (length (io.content (bufio.r s)) + 1 < n)%nat →
  ∃ a' in' s', Args_loop h n fuel in_ s a = Ret (a', in', s').
Proof.
  induction fuel as [|fuel IH]; intros in_ s a Hfuel Hn; [lia|].
  simpl. unfold bufio.Scan.
  destruct (bufio.done s) eqn:Hdone; simpl; [by eexists _, _, _|].
  destruct (scanLoop_total h n in_ s) as (b & in' & s' & -> & Hb).
  { destruct (bufio.err s); lia. }
  simpl. destruct b; [|by eexists _, _, _].
  destruct (Hb eq_refl) as (Hb1 & Hb2 & Hb3).
  apply IH; [|lia].
  destruct Hb1 as [->|Hb1]; [lia|destruct (bufio.done s'); lia].
Qed.

(** [Args] with no arguments returns, for every stream there is. *)
Lemma Input_Args_total in_ w rd :
  streams w !! Stream in_ = Some rd →
  ∃ a in' rd',
    Input_Args in_ [] w =
      Ret (a, in', with_streams (<[Stream in_ := rd']> (streams w)) w).
Proof.
  intros Hrd. unfold Input_Args.
  change (len (@nil gostring) =? 0) with true. cbv iota. rewrite Hrd.
  destruct (Args_loop_total (heap w) (budget rd) (budget rd)
              (with_skipToken false in_) (bufio.NewScanner rd) [])
    as (a & in' & s' & HA); [unfold budget, unread; simpl; lia..|].
  rewrite HA. simpl. by eexists _, _, _.
Qed.

Lemma Input_Args_unfold in_ w rd :
  streams w !! Stream in_ = Some rd →
  Input_Args in_ [] w =
    ('(a, in', s) ← Args_loop (heap w) (budget rd) (budget rd)
                      (with_skipToken false in_) (bufio.NewScanner rd) [];
     Ret (a, in', with_streams (<[Stream in_ := bufio.r s]> (streams w)) w)).
Proof.
  intros Hrd. unfold Input_Args.
  change (len (@nil gostring) =? 0) with true. cbv iota. by rewrite Hrd.
Qed.

(** [Args] returns the same tokens whichever error ends the stream. *)
Lemma Input_Args_same_but_error in_ w rd e1 e2 :
  let w1 := with_streams (<[Stream in_ := failing_with e1 rd]> (streams w)) w in
  let w2 := with_streams (<[Stream in_ := failing_with e2 rd]> (streams w)) w in
  ∃ a in' rd1 rd2,
    Input_Args in_ [] w1 =
      Ret (a, in', with_streams (<[Stream in_ := rd1]> (streams w1)) w1) ∧
    Input_Args in_ [] w2 =
      Ret (a, in', with_streams (<[Stream in_ := rd2]> (streams w2)) w2) ∧
    io.content rd1 = io.content rd2.
Proof.
  intros w1 w2.
  rewrite (Input_Args_unfold in_ w1 (failing_with e1 rd)) by apply lookup_insert_eq.
  rewrite (Input_Args_unfold in_ w2 (failing_with e2 rd)) by apply lookup_insert_eq.
  change (budget (failing_with e2 rd)) with (budget (failing_with e1 rd)).
  change (heap w1) with (heap w). change (heap w2) with (heap w).
  set (n := budget (failing_with e1 rd)).
  destruct (Args_loop_total (heap w) n n (with_skipToken false in_)
              (bufio.NewScanner (failing_with e1 rd)) [])
    as (a & in' & s1 & HA1); [unfold n, budget, unread; simpl; lia..|].
  pose proof (same_but_error_Args_loop (heap w) n n (with_skipToken false in_)
                (bufio.NewScanner (failing_with e1 rd))
                (bufio.NewScanner (failing_with e2 rd)) []) as Hsim.
  rewrite HA1 in Hsim |- *.
  destruct (Args_loop (heap w) n n (with_skipToken false in_)
              (bufio.NewScanner (failing_with e2 rd)) [])
    as [[[a2 in2] s2]| |];
    try (by exfalso; apply Hsim; unfold same_but_error; simpl).
  destruct Hsim as (<- & <- & Hs); [unfold same_but_error; simpl; done|].
  eexists _, _, _, _. split_and!; [done|done|]. apply Hs.
Qed.

(** An exhausted stream yields no token, whatever the delimiter. *)
Lemma Input_Args_exhausted in_ w rd :
  streams w !! Stream in_ = Some rd → io.content rd = [] →
  ∃ in' rd',
    Input_Args in_ [] w =
      Ret ([], in', with_streams (<[Stream in_ := rd']> (streams w)) w) ∧
    io.content rd' = [].
Proof.
  intros Hrd Hc.
  destruct (decide (bytes_of (heap w) (ArgsDelim in_) = [])) as [Hd|Hd].
  - destruct (Input_Args_runes in_ w rd [] Hrd Hd) as (rd' & HA & Hc');
      [by left|done|done|].
    by eexists _, _.
  - destruct (Input_Args_delimited in_ w rd _ Hrd eq_refl Hd) as (rd' & HA & Hc');
      [by left|rewrite Hc; simpl; by rewrite MaxScanTokenSize_val|].
    rewrite Hc in HA. unfold tokens, pieces in HA. simpl in HA.
    by eexists _, _.
Qed.

(** ** Slices share their backing arrays *)

Lemma bytes_of_store sl i b w w' :
  store_byte sl i b w = Ret w' →
  bytes_of (heap w') sl = <[Z.to_nat i := b]> (bytes_of (heap w) sl) ∧
  input w' = input w ∧ streams w' = streams w.
Proof.
  unfold store_byte. case_if; [done|].
  destruct (heap w !! array sl) as [a|] eqn:Ha; [|done].
  intros [= <-]. simpl. split; [|done].
  unfold bytes_of. rewrite lookup_insert_eq, Ha. simpl.
  rewrite drop_insert_ge by lia.
  rewrite take_insert_lt by blia.
  do 2 f_equal. lia.
Qed.

Lemma bytes_of_new_bytes str sl w :
  is_Some (heap w !! array sl) →
  let '(sl', w') := new_bytes str w in
  bytes_of (heap w') sl = bytes_of (heap w) sl ∧
  bytes_of (heap w') sl' = str ∧
  input w' = input w ∧ streams w' = streams w.
Proof.
  intros Hsl. simpl. split_and!; try done.
  - unfold bytes_of. rewrite lookup_insert_ne; [done|].
    intros Heq. pose proof (is_fresh (dom (heap w))) as Hfresh.
    rewrite Heq in Hfresh. apply Hfresh. by apply elem_of_dom.
  - unfold bytes_of. simpl. rewrite lookup_insert_eq. simpl.
    by rewrite drop_0, firstn_all.
Qed.

Lemma Input_Args_frame in_ args w a in' w' :
  Input_Args in_ args w = Ret (a, in', w') →
  input w' = input w ∧ heap w' = heap w ∧ files w' = files w.
Proof.
  unfold Input_Args. destruct (len args =? 0).
  - destruct (streams w !! Stream in_) as [rd|]; [|done].
    destruct (Args_loop _ _ _ _ _ _) as [[[a0 i0] s0]| |]; simpl; [|done..].
    by intros [= <- <- <-].
  - by intros [= <- <- <-].
Qed.

(** * More about the split function and the scanner *)

(** ** Every answer of [scanArgs] *)

Lemma scanArgs_cases h in_ d data atEOF :
  bytes_of h (ArgsDelim in_) = d → d ≠ [] →
  Input_scanArgs h in_ data atEOF =
    match find d data with
    | Some i => Ret (in_, emit d data (Z.of_nat i))
    | None =>
      if atEOF
      then Ret (with_skipToken (len data =? 0) in_, (0, Some data, Some ErrFinalToken))
      else Ret (in_, (0, None, None))
    end.
Proof.
  intros Hd Hne. destruct (find d data) as [i|] eqn:Hf.
  - by apply (scanArgs_match h in_ d).
  - destruct atEOF; [by apply (scanArgs_final h in_ d)|by apply (scanArgs_more h in_ d)].
Qed.

Lemma Before_scanArgs_for d data k : ∀ i,
  Before.scanArgs_for d data k i = scanArgs_for d data k i.
Proof.
  induction k as [|k IH]; intros i; simpl; [done|].
  unfold bytes.Equal. by rewrite IH.
Qed.

(** The split function of the first version answers as the later one
    does; it has no state to change. *)
Lemma Before_scanArgs h in1 in_ data atEOF :
  Before.ArgsDelim in1 = ArgsDelim in_ →
  Before.Input_scanArgs h in1 data atEOF =
    ('(_, out) ← Input_scanArgs h in_ data atEOF; Ret (in1, out)).
Proof.
  intros Hd. unfold Before.Input_scanArgs, Input_scanArgs. rewrite Hd.
  case_if.
  - by destruct (bufio.ScanRunes data atEOF).
  - rewrite Before_scanArgs_for.
    destruct (scanArgs_for _ _ _ _); [done|]. by destruct atEOF.
Qed.

(** ** What a scan returns, for every reader *)

Lemma setErr_done e s : bufio.done (bufio.setErr e s) = bufio.done s.
Proof. unfold bufio.setErr. by destruct (bufio.err s) as [[]|]. Qed.

Lemma setErr_token e s : bufio.token (bufio.setErr e s) = bufio.token s.
Proof. unfold bufio.setErr. by destruct (bufio.err s) as [[]|]. Qed.

Lemma readOnce_done s :
  match bufio.readOnce s with
  | inl s' | inr s' => bufio.done s' = bufio.done s
  end.
Proof.
  unfold bufio.readOnce.
  destruct (io.Read _ _) as [[p e] rd]. simpl.
  case_if; [by rewrite setErr_done|].
  destruct e as [e|]; [by rewrite setErr_done|]. by case_if.
Qed.

Lemma readLoop_done k : ∀ s, bufio.done (bufio.readLoop k s) = bufio.done s.
Proof.
  induction k as [|k IH]; intros s; unfold bufio.readLoop; fold bufio.readLoop;
    pose proof (readOnce_done s) as H; destruct (bufio.readOnce s); try done.
  - by rewrite setErr_done.
  - by rewrite IH.
Qed.

Lemma refill_done s :
  match bufio.refill s with
  | inl s' | inr s' => bufio.done s' = bufio.done s
  end.
Proof.
  unfold bufio.refill. case_if; [done|].
  repeat case_if; rewrite ?setErr_done, ?readLoop_done; done.
Qed.

Section scan_answers.
  Context {St : Type} (split : bufio.SplitFunc St).
  Context (Good : St → list byte → Prop) (Last : St → St → list byte → Prop).

  Hypothesis split_answers : ∀ st data atEOF st' adv tok e,
    split st data atEOF = Ret (st', (adv, tok, e)) →
    match e with
    | None => st' = st ∧ ∀ t, tok = Some t → Good st t
    | Some e => e = ErrFinalToken ∧ ∃ t, tok = Some t ∧ Good st t ∧ Last st st' t
    end.

Lemma offer_answers st s :
    match bufio.offer split st s with
    | Ret (inl (b, st', s')) =>
      if b : bool
      then ∃ t, bufio.token s' = Some t ∧ Good st t ∧
                ((st' = st ∧ bufio.done s' = bufio.done s) ∨
                 (Last st st' t ∧ bufio.done s' = true))
      else st' = st
    | Ret (inr (st', s')) => st' = st ∧ bufio.done s' = bufio.done s
    | _ => True
    end.
  Proof.
    unfold bufio.offer. case_if; [|done].
    destruct (split st _ _) as [[st' [[adv tok] e]]| |] eqn:Hsp; simpl; try done.
    apply split_answers in Hsp.
    destruct e as [e|].
    - destruct Hsp as (-> & t & -> & Hg & Hl).
      rewrite bool_decide_true by done. rewrite bool_decide_true by done.
      exists t. split_and!; [done|done|by right].
    - destruct Hsp as [-> Hg].
      unfold bufio.advance. case_if; simpl; [done|].
      case_if; simpl; [done|].
      destruct tok as [t|]; simpl; [|done].
      case_if; simpl.
      + exists t. split_and!; [done|by apply Hg|by left].
      + case_if; [done|]. exists t. split_and!; [done|by apply Hg|by left].
  Qed.

Lemma scanLoop_answers fuel : ∀ st s b st' s',
    bufio.scanLoop split fuel st s = Ret (b, st', s') →
    if b
    then ∃ t, bufio.token s' = Some t ∧ Good st t ∧
              ((st' = st ∧ bufio.done s' = bufio.done s) ∨
               (Last st st' t ∧ bufio.done s' = true))
    else st' = st.
  Proof.
    induction fuel as [|fuel IH]; intros st s b st' s'; simpl; [done|].
    pose proof (offer_answers st s) as Ho.
    destruct (bufio.offer split st s) as [[[[b1 st1] s1]|[st1 s1]]| |]; simpl; try done.
    - by intros [= <- <- <-].
    - destruct Ho as [-> Hd].
      pose proof (refill_done s1) as Hr.
      destruct (bufio.refill s1) as [s2|s2].
      + by intros [= <- <- <-].
      + intros H. apply IH in H. destruct b; [|done].
        destruct H as (t & Ht & Hg & H). exists t. split_and!; [done|done|].
        destruct H as [[-> H]|H]; [left|by right]. split; [done|]. congruence.
  Qed.

End scan_answers.

(** ** Two split functions that answer alike *)

Section scan_lockstep.
  Context {St1 St2 : Type} (R : St1 → St2 → Prop).
  Context (split1 : bufio.SplitFunc St1) (split2 : bufio.SplitFunc St2).

  Hypothesis split_alike : ∀ st1 st2 data atEOF,
    R st1 st2 →
    akin (same_answer R) (split1 st1 data atEOF) (split2 st2 data atEOF).

Lemma offer_lockstep st1 st2 s :
    R st1 st2 →
    akin (akin_sum (same_scan R) (same_rest R))
         (bufio.offer split1 st1 s) (bufio.offer split2 st2 s).
  Proof.
    intros HR. unfold bufio.offer. case_if; [|done].
    pose proof (split_alike st1 st2 (bufio.window s)
                  (bool_decide (bufio.err s ≠ None)) HR) as Hsp.
    destruct (split1 _ _ _) as [[st1' [[adv1 tok1] e1]]| |],
             (split2 _ _ _) as [[st2' [[adv2 tok2] e2]]| |]; simpl in Hsp |- *; try done.
    destruct Hsp as [[= -> -> ->] HR'].
    destruct e2 as [e|]; simpl.
    - case_if; simpl; done.
    - destruct (bufio.advance adv2 s) as [ok s']. simpl.
      destruct ok; simpl; [|done].
      destruct tok2 as [t|]; simpl; [|done].
      case_if; simpl; [done|]. case_if; simpl; done.
  Qed.

Lemma scanLoop_lockstep fuel : ∀ st1 st2 s,
    R st1 st2 →
    akin (same_scan R)
         (bufio.scanLoop split1 fuel st1 s) (bufio.scanLoop split2 fuel st2 s).
  Proof.
    induction fuel as [|fuel IH]; intros st1 st2 s HR; simpl; [done|].
    pose proof (offer_lockstep st1 st2 s HR) as Ho.
    destruct (bufio.offer split1 st1 s) as [[[[b1 x1] a1]|[x1 a1]]| |],
             (bufio.offer split2 st2 s) as [[[[b2 x2] a2]|[x2 a2]]| |];
      simpl in Ho |- *; try done.
    destruct Ho as [-> HR'].
    destruct (bufio.refill a2); simpl; [done|]. by apply IH.
  Qed.

Lemma Scan_lockstep fuel st1 st2 s :
    R st1 st2 →
    akin (same_scan R)
         (bufio.Scan split1 fuel st1 s) (bufio.Scan split2 fuel st2 s).
  Proof.
    intros HR. unfold bufio.Scan. destruct (bufio.done s); simpl; [done|].
    by apply scanLoop_lockstep.
  Qed.

End scan_lockstep.

(** ** Every token of [ScanRunes] is one well-formed rune *)

Lemma ScanRunes_token data atEOF adv t e :
  bufio.ScanRunes data atEOF = Ret (adv, Some t, e) →
  e = None ∧ wellformed t = true ∧ 0 < adv ≤ len data ∧
  (t = take (Z.to_nat adv) data ∨ (t = bufio.errorRune ∧ adv = 1)).
Proof.
  unfold bufio.ScanRunes. case_if; [done|].
  destruct data as [|b0 tl]; [done|].
  assert (Hlen : 1 ≤ len (b0 :: tl)) by (unfold len; simpl; lia).
  case_if.
  { intros [= <- <- <-]. split_and!; [done| |lia|lia|by left].
    pose proof (val_range b0). unfold subslice. simpl. ranges. }
  pose proof (DecodeRune_width b0 tl) as Hw.
  destruct (utf8.DecodeRune _) as [rn width]. cbv zeta in Hw. simpl snd in Hw.
  case_if.
  2:{ case_if; [done|]. intros [= <- <- <-].
      split_and!; [done|done|lia|lia|by right]. }
  intros [= <- <- <-]. split; [done|].
  rewrite subslice_0.
  unfold lead_class in Hw.
  destruct tl as [|b1 [|b2 [|b3 tl]]].
  all: repeat (case_if_in Hw; try bytes_lia).
  all: subst width; split_and!; [|lia|unfold len; simpl; lia|by left].
  all: simpl; ranges.
Qed.

(** ** Every token of [scanArgs] *)

Lemma prefix_drop_take {A} (d l : list A) j m :
  d `prefix_of` drop j (take m l) → d `prefix_of` drop j l.
Proof.
  intros [k Hk]. rewrite <-(take_drop m l) at 1.
  destruct (decide (j ≤ m)%nat) as [Hle|Hgt].
  - destruct (decide (m ≤ length l)%nat) as [Hml|Hml].
    + rewrite drop_app_le by (rewrite length_take; lia).
      rewrite Hk, <-app_assoc. by eexists.
    + rewrite take_ge in Hk by lia. rewrite take_drop, Hk. by eexists.
  - rewrite drop_ge in Hk by (rewrite length_take; lia).
    symmetry in Hk. apply app_eq_nil in Hk as [-> _]. apply prefix_nil.
Qed.

Lemma free_of_take d data i m :
  d ≠ [] → find d data = Some i → (m ≤ i)%nat → free_of d (take m data).
Proof.
  intros Hd Hf Hm j Hp.
  destruct (decide (j < i)%nat) as [Hlt|Hge].
  - apply (find_first d data i j Hf Hlt). by apply prefix_drop_take with m.
  - rewrite drop_ge in Hp by (rewrite length_take; lia).
    apply prefix_nil_inv in Hp. done.
Qed.

Lemma free_of_none d data : find d data = None → free_of d data.
Proof. intros Hf j. by apply find_none. Qed.

Lemma strip_cr_take d data i :
  ∃ m, (m ≤ i)%nat ∧ strip_cr d (take i data) = take m data.
Proof.
  unfold strip_cr. case_if.
  - exists (length (take i data) - 1)%nat. rewrite length_take. split; [lia|].
    rewrite take_take. f_equal. lia.
  - by exists i.
Qed.

Lemma scanArgs_split h st data atEOF st' adv tok e :
  Input_scanArgs h st data atEOF = Ret (st', (adv, tok, e)) →
  match e with
  | None => st' = st ∧ ∀ t, tok = Some t → token_ok (bytes_of h (ArgsDelim st)) t
  | Some e =>
    e = ErrFinalToken ∧
    ∃ t, tok = Some t ∧ token_ok (bytes_of h (ArgsDelim st)) t ∧
         st' = with_skipToken (len t =? 0) st
  end.
Proof.
  unfold token_ok.
  destruct (decide (bytes_of h (ArgsDelim st) = [])) as [Hd|Hd].
  - rewrite scanArgs_runes by done.
    destruct (bufio.ScanRunes data atEOF) as [[[adv0 tok0] e0]| |] eqn:Hs; simpl; try done.
    intros [= <- <- <- <-].
    destruct tok0 as [t|].
    + apply ScanRunes_token in Hs as (-> & Hw & _). split; [done|]. by intros ? [= <-].
    + unfold bufio.ScanRunes in Hs. repeat (case_if_in Hs; try done).
      all: destruct data; try done; repeat (case_if_in Hs; try done).
      all: try (destruct (utf8.DecodeRune _)); repeat (case_if_in Hs; try done).
      all: injection Hs as _ <-; done.
  - rewrite (scanArgs_cases h st _ data atEOF eq_refl Hd).
    destruct (find _ data) as [i|] eqn:Hf.
    + unfold emit. intros [= <- <- <- <-]. split; [done|]. intros t [= <-].
      pose proof (find_bound _ _ _ Hf).
      rewrite cut_strip_cr by lia.
      destruct (strip_cr_take (bytes_of h (ArgsDelim st)) data i) as (m & Hm & ->).
      by apply free_of_take with i.
    + destruct atEOF; intros [= <- <- <- <-]; [|done].
      split; [done|]. exists data. split_and!; [done| |done].
      by apply free_of_none.
Qed.

(** ** The loop of [Args], for every reader *)

Lemma Scan_answers h n in_ s b in' s' :
  bufio.Scan (Input_scanArgs h) n in_ s = Ret (b, in', s') →
  if b
  then bufio.done s = false ∧
       ∃ t, bufio.token s' = Some t ∧ token_ok (bytes_of h (ArgsDelim in_)) t ∧
            ((in' = in_ ∧ bufio.done s' = false) ∨
             (in' = with_skipToken (len t =? 0) in_ ∧ bufio.done s' = true))
  else in' = in_.
Proof.
  unfold bufio.Scan. destruct (bufio.done s) eqn:Hd.
  - by intros [= <- <- <-].
  - intros H.
    apply (scanLoop_answers (Input_scanArgs h)
             (λ st t, token_ok (bytes_of h (ArgsDelim st)) t)
             (λ st st' t, st' = with_skipToken (len t =? 0) st)) in H.
    + destruct b; [|done]. split; [done|].
      destruct H as (t & ? & ? & H). exists t. split_and!; try done.
      destruct H as [[? ?]|[? ?]]; [left|right]; split; congruence.
    + intros st data atEOF st' adv tok e Hsp.
      apply scanArgs_split in Hsp. destruct e; [|done].
      destruct Hsp as (-> & t & -> & ? & ->). split; [done|]. by exists t.
Qed.

Lemma Args_loop_tokens h n d fuel : ∀ in_ s a a' in' s',
  Args_loop h n fuel in_ s a = Ret (a', in', s') →
  bytes_of h (ArgsDelim in_) = d → Forall (token_ok d) a →
  Forall (token_ok d) a' ∧ in' = with_skipToken (skipToken in') in_.
Proof.
  induction fuel as [|fuel IH]; intros in_ s a a' in' s'; simpl; [done|].
  destruct (bufio.Scan _ _ _ _) as [[[b in1] s1]| |] eqn:HS; simpl; try done.
  apply Scan_answers in HS.
  destruct b.
  - destruct HS as (_ & t & Ht & Hok & HS). intros H Hd Ha.
    assert (Hd1 : bytes_of h (ArgsDelim in1) = d).
    { destruct HS as [[-> _]|[-> _]]; done. }
    apply IH in H as [H1 H2]; [| done |].
    + split; [done|]. rewrite H2.
      destruct HS as [[-> _]|[-> _]]; by destruct in_.
    + rewrite Hd in Hok. case_if; [|done].
      apply Forall_app. split; [done|]. apply Forall_singleton.
      unfold bufio.Text. by rewrite Ht.
  - subst in1. intros [= <- <- <-] Hd Ha. split; [done|]. by destruct in_.
Qed.

(** ** The first version beside the later one *)

Lemma before_with_skipToken b in_ : before (with_skipToken b in_) = before in_.
Proof. done. Qed.

Lemma scanArgs_alike h st1 st2 data atEOF :
  st1 = before st2 →
  akin (same_answer (λ st1 st2, st1 = before st2))
       (Before.Input_scanArgs h st1 data atEOF) (Input_scanArgs h st2 data atEOF).
Proof.
  intros ->. rewrite (Before_scanArgs h (before st2) st2) by done.
  destruct (Input_scanArgs h st2 data atEOF) as [[st' [[adv tok] e]]| |] eqn:Hsp;
    simpl; try done.
  split; [done|]. simpl. apply scanArgs_split in Hsp.
  destruct e.
  - by destruct Hsp as (_ & t & _ & _ & ->).
  - by destruct Hsp as [-> _].
Qed.

Lemma Args_loop_before h n fuel : ∀ in_ s a1 a2,
  (bufio.done s = false ∧ skipToken in_ = false ∧ a1 = a2) ∨
  (bufio.done s = true ∧ a1 = a2 ++ (if skipToken in_ then [[]] else [])) →
  akin (with_final_token in_)
       (Before.Args_loop h n fuel (before in_) s a1) (Args_loop h n fuel in_ s a2).
Proof.
  induction fuel as [|fuel IH]; intros in_ s a1 a2 Hinv; simpl; [done|].
  pose proof (Scan_lockstep (λ st1 st2, st1 = before st2)
                (Before.Input_scanArgs h) (Input_scanArgs h) (scanArgs_alike h)
                n (before in_) in_ s eq_refl) as HS.
  destruct (bufio.Scan (Input_scanArgs h) n in_ s) as [[[b in'] s']| |] eqn:H2;
    destruct (bufio.Scan (Before.Input_scanArgs h) n (before in_) s) as [[[b1 in1] s1]| |];
    simpl in HS |- *; try done.
  destruct HS as (-> & -> & ->).
  apply Scan_answers in H2. destruct b.
  - destruct H2 as (Hd & t & Ht & _ & H2).
    destruct Hinv as [(_ & Hsk & ->)|[Hd' _]]; [|congruence].
    assert (Hb : before in' = before in_) by (destruct H2 as [[-> _]|[-> _]]; done).
    assert (with_final_token in_ = with_final_token in') as ->
      by (unfold with_final_token; by rewrite Hb).
    apply IH. unfold bufio.Text. rewrite Ht. simpl.
    destruct H2 as [[-> Hd2]|[-> Hd2]].
    + left. rewrite Hsk. done.
    + right. split; [done|]. simpl.
      destruct (len t =? 0) eqn:Hl; simpl; [|by rewrite app_nil_r].
      apply Z.eqb_eq, len_nil_iff in Hl. by subst.
  - subst in'. simpl.
    destruct Hinv as [(_ & Hsk & ->)|[_ ->]]; [|done].
    rewrite Hsk. by rewrite app_nil_r.
Qed.

(** ** The reader only moves forward *)

Lemma suffix_drop_of {A} (l : list A) n : drop n l `suffix_of` l.
Proof. exists (take n l). by rewrite take_drop. Qed.

Lemma setErr_r e s : bufio.r (bufio.setErr e s) = bufio.r s.
Proof. unfold bufio.setErr. by destruct (bufio.err s) as [[]|]. Qed.

Lemma readOnce_suffix s :
  match bufio.readOnce s with
  | inl s' | inr s' =>
    io.content (bufio.r s') `suffix_of` io.content (bufio.r s)
  end.
Proof.
  unfold bufio.readOnce, io.Read.
  destruct (io.content (bufio.r s)) as [|b c] eqn:Hc; simpl.
  - case_if; rewrite ?setErr_r; simpl; done.
  - repeat case_if; rewrite ?setErr_r; simpl; rewrite <-Hc; apply suffix_drop_of.
Qed.

Lemma readLoop_suffix k : ∀ s,
  io.content (bufio.r (bufio.readLoop k s)) `suffix_of` io.content (bufio.r s).
Proof.
  induction k as [|k IH]; intros s; unfold bufio.readLoop; fold bufio.readLoop;
    pose proof (readOnce_suffix s) as H; destruct (bufio.readOnce s) as [s1|s1]; try done.
  - by rewrite setErr_r.
  - etrans; [apply IH|done].
Qed.

Lemma refill_suffix s :
  match bufio.refill s with
  | inl s' | inr s' =>
    io.content (bufio.r s') `suffix_of` io.content (bufio.r s)
  end.
Proof.
  unfold bufio.refill. case_if; [done|].
  repeat case_if; rewrite ?setErr_r; try done;
    (etrans; [apply readLoop_suffix|]); done.
Qed.

Lemma advance_r n s : bufio.r (snd (bufio.advance n s)) = bufio.r s.
Proof. unfold bufio.advance. repeat case_if; simpl; rewrite ?setErr_r; done. Qed.

Section scan_reader.
  Context {St : Type} (split : bufio.SplitFunc St).

Lemma offer_r st s :
    match bufio.offer split st s with
    | Ret (inl (_, _, s')) | Ret (inr (_, s')) => bufio.r s' = bufio.r s
    | _ => True
    end.
  Proof.
    unfold bufio.offer. case_if; [|done].
    destruct (split st _ _) as [[st' [[adv tok] e]]| |]; simpl; try done.
    destruct e as [e|].
    - case_if; [done|]. by rewrite setErr_r.
    - pose proof (advance_r adv s) as Ha.
      destruct (bufio.advance adv s) as [ok s0]. simpl in Ha.
      destruct ok; simpl; [|done].
      destruct tok; simpl; [|done]. repeat (case_if; simpl; try done).
  Qed.

Lemma scanLoop_suffix fuel : ∀ st s b st' s',
    bufio.scanLoop split fuel st s = Ret (b, st', s') →
    io.content (bufio.r s') `suffix_of` io.content (bufio.r s).
  Proof.
    induction fuel as [|fuel IH]; intros st s b st' s'; simpl; [done|].
    pose proof (offer_r st s) as Ho.
    destruct (bufio.offer split st s) as [[[[b1 st1] s1]|[st1 s1]]| |]; simpl; try done.
    - intros [= <- <- <-]. by rewrite Ho.
    - pose proof (refill_suffix s1) as Hr. rewrite Ho in Hr.
      destruct (bufio.refill s1) as [s2|s2].
      + by intros [= <- <- <-].
      + intros H. apply IH in H. etrans; [apply H|done].
  Qed.

Lemma Scan_suffix fuel st s b st' s' :
    bufio.Scan split fuel st s = Ret (b, st', s') →
    io.content (bufio.r s') `suffix_of` io.content (bufio.r s).
  Proof.
    unfold bufio.Scan. destruct (bufio.done s).
    - by intros [= <- <- <-].
    - apply scanLoop_suffix.
  Qed.

End scan_reader.

Lemma Args_loop_suffix h n fuel : ∀ in_ s a a' in' s',
  Args_loop h n fuel in_ s a = Ret (a', in', s') →
  io.content (bufio.r s') `suffix_of` io.content (bufio.r s).
Proof.
  induction fuel as [|fuel IH]; intros in_ s a a' in' s'; simpl; [done|].
  destruct (bufio.Scan _ _ _ _) as [[[b in1] s1]| |] eqn:HS; simpl; try done.
  apply Scan_suffix in HS. destruct b.
  - intros H. apply IH in H. etrans; [apply H|done].
  - by intros [= <- <- <-].
Qed.

(** ** [Args] with no arguments, for every reader *)

Lemma Input_Args_any in_ w rd :
  streams w !! Stream in_ = Some rd →
  ∃ a in' rd',
    Input_Args in_ [] w =
      Ret (a, in', with_streams (<[Stream in_ := rd']> (streams w)) w) ∧
    Forall (token_ok (bytes_of (heap w) (ArgsDelim in_))) a ∧
    in' = with_skipToken (skipToken in') in_ ∧
    io.content rd' `suffix_of` io.content rd.
Proof.
  intros Hrd. rewrite (Input_Args_unfold in_ w rd Hrd).
  destruct (Args_loop_total (heap w) (budget rd) (budget rd)
              (with_skipToken false in_) (bufio.NewScanner rd) [])
    as (a & in' & s' & HA); [unfold budget, unread; simpl; lia..|].
  rewrite HA. simpl. exists a, in', (bufio.r s'). split; [done|].
  pose proof (Args_loop_suffix _ _ _ _ _ _ _ _ _ HA) as Hsuf.
  apply (Args_loop_tokens _ _ (bytes_of (heap w) (ArgsDelim in_))) in HA as [Ht Hin];
    [|done|done].
  split_and!; [done| |done]. rewrite Hin at 1. done.
Qed.

(** ** Streams made of separated or terminated items *)

Lemma find_free_of d a : free_of d a → find d a = None.
Proof.
  intros Hf. destruct (find d a) as [i|] eqn:H; [|done].
  apply find_prefix in H. by apply Hf in H.
Qed.

Lemma clean_free_of d a : d ≠ [] → clean d a → free_of d a.
Proof.
  intros Hd Hc j Hp.
  destruct (decide (j < length a)%nat) as [Hlt|Hge].
  - apply (Hc j Hlt). rewrite drop_app_le by lia. by apply prefix_app_r.
  - rewrite drop_ge in Hp by lia. by apply prefix_nil_inv in Hp.
Qed.

Lemma find_clean d a rest :
  clean d a → find d (a ++ d ++ rest) = Some (length a).
Proof.
  intros Hc. apply find_intro.
  - rewrite drop_app_length. by apply prefix_app_r.
  - rewrite length_app. lia.
  - intros j Hj Hp. apply (Hc j Hj).
    rewrite app_assoc in Hp. rewrite drop_app_le in Hp by (rewrite length_app; lia).
    apply prefix_app_short in Hp; [done|].
    rewrite length_drop, length_app. lia.
Qed.

Lemma pieces_clean d a rest :
  d ≠ [] → clean d a → pieces d (a ++ d ++ rest) = a :: pieces d rest.
Proof.
  intros Hd Hc. rewrite (pieces_some d _ (length a) Hd (find_clean d a rest Hc)).
  rewrite take_app_length. f_equal. f_equal.
  rewrite app_assoc, <-length_app. by rewrite drop_app_length.
Qed.

Lemma Join_cons a b rest sep :
  strings.Join (a :: b :: rest) sep = a ++ sep ++ strings.Join (b :: rest) sep.
Proof. destruct rest; simpl; by rewrite ?app_nil_r, <-?app_assoc. Qed.

Lemma pieces_Join d args :
  d ≠ [] → args ≠ [] → Forall (clean d) args →
  pieces d (strings.Join args d) = args.
Proof.
  intros Hd. induction args as [|a [|b rest] IH]; intros Hne Hc; [done| |].
  - simpl. apply pieces_none, find_free_of, clean_free_of; [done|].
    by apply Forall_inv in Hc.
  - rewrite Join_cons. rewrite pieces_clean; [|done|by apply Forall_inv in Hc].
    f_equal. apply IH; [done|]. by apply Forall_inv_tail in Hc.
Qed.

Lemma tokens_of_same d args :
  last args ≠ Some [] → Forall (λ a, strip_cr d a = a) args →
  tokens_of d args = args.
Proof.
  induction args as [|a [|b rest] IH]; intros Hl Hs; [done| |].
  - simpl in *. rewrite bool_decide_false; [done|]. by intros ->.
  - change (tokens_of d (a :: b :: rest))
      with (strip_cr d a :: tokens_of d (b :: rest)).
    rewrite (Forall_inv Hs). f_equal. apply IH; [done|by apply Forall_inv_tail in Hs].
Qed.

Lemma pieces_fit_all d args :
  d ≠ [] →
  Forall (λ a, len a + len d ≤ bufio.MaxScanTokenSize) args →
  pieces_fit d args.
Proof.
  intros Hd. pose proof (len_delim_pos d Hd).
  induction args as [|a [|b rest] IH]; intros Hf; [done| |].
  - simpl. apply Forall_inv in Hf. lia.
  - change (pieces_fit d (a :: b :: rest))
      with (len a + len d ≤ bufio.MaxScanTokenSize ∧ pieces_fit d (b :: rest)).
    split; [by apply Forall_inv in Hf|]. apply IH. by apply Forall_inv_tail in Hf.
Qed.

Lemma strip_cr_same d a :
  (d = [LF] → last a ≠ Some CR) → strip_cr d a = a.
Proof.
  intros H. unfold strip_cr. case_if; [|done]. b2p. by apply H in H1.
Qed.

Lemma cleanb_clean d a : cleanb d a = true → clean d a.
Proof.
  unfold cleanb. intros H j Hj. b2p. by apply (find_first d (a ++ d) (length a) j).
Qed.

Lemma steady_NewReader s : steady (strings.NewReader s).
Proof. right. constructor. Qed.

(** Joining the pieces with the delimiter gives the stream back. *)
Lemma Join_pieces d : d ≠ [] → ∀ s, strings.Join (pieces d s) d = s.
Proof.
  intros Hd s. remember (length s) as n eqn:Hn.
  revert s Hn. induction n as [n IH] using lt_wf_ind. intros s Hn.
  destruct (find d s) as [i|] eqn:Hf.
  - rewrite (pieces_some d s i Hd Hf).
    pose proof (find_bound _ _ _ Hf) as Hb.
    pose proof (find_prefix _ _ _ Hf) as [k Hk].
    assert (0 < length d)%nat by (destruct d; [done|simpl; lia]).
    destruct (pieces_from_cons d (drop (i + length d) s) 0 []) as (p & ps & Hp).
    assert (IH' : strings.Join (pieces d (drop (i + length d) s)) d
                  = drop (i + length d) s).
    { apply (IH (length (drop (i + length d) s))); [rewrite length_drop; lia|done]. }
    unfold pieces in *. rewrite Hp in IH' |- *. rewrite Join_cons.
    transitivity (take i s ++ drop i s); [|apply take_drop].
    f_equal. rewrite <-(take_drop (length d) (drop i s)), drop_drop. f_equal.
    + rewrite Hk. by rewrite take_app_length.
    + exact IH'.
  - by rewrite (pieces_none d s Hf).
Qed.

Lemma pieces_nil d s : d ≠ [] → pieces d s = [[]] → s = [].
Proof. intros Hd H. rewrite <-(Join_pieces d Hd s), H. done. Qed.

(** Without its last piece, when that one is empty. *)
Lemma Join_tokens d ps :
  Forall (λ p, strip_cr d p = p) ps → ps ≠ [[]] →
  strings.Join (tokens_of d ps) d
    ++ (if bool_decide (last ps = Some []) then d else [])
  = strings.Join ps d.
Proof.
  induction ps as [|p [|q ps] IH]; intros Hs Hne.
  - done.
  - simpl. destruct p; [done|]. simpl. by rewrite app_nil_r.
  - change (tokens_of d (p :: q :: ps)) with (strip_cr d p :: tokens_of d (q :: ps)).
    rewrite (Forall_inv Hs). rewrite Join_cons.
    change (last (p :: q :: ps)) with (last (q :: ps)).
    destruct (decide (q :: ps = [[]])) as [Heq|Hne2].
    + injection Heq as -> ->. simpl. by rewrite !app_nil_r.
    + specialize (IH (Forall_inv_tail Hs) Hne2).
      destruct (tokens_of d (q :: ps)) as [|t ts] eqn:Ht.
      * exfalso. destruct ps as [|r ps]; simpl in Ht; [|done].
        case_if_in Ht; [|done]. b2p. by subst.
      * rewrite Join_cons. rewrite <-!app_assoc. do 2 f_equal. exact IH.
Qed.

Lemma in_Join p ps d b : p ∈ ps → b ∈ p → b ∈ strings.Join ps d.
Proof.
  induction ps as [|q [|r ps] IH]; intros Hp Hb.
  - by apply elem_of_nil in Hp.
  - apply list_elem_of_singleton in Hp. by subst.
  - rewrite Join_cons. apply elem_of_cons in Hp as [->|Hp].
    + apply elem_of_app. by left.
    + apply elem_of_app. right. apply elem_of_app. right. by apply IH.
Qed.

Lemma last_elem_of {A} (l : list A) x : last l = Some x → x ∈ l.
Proof.
  intros H. apply last_Some in H as [l' ->]. apply elem_of_app. right.
  by apply list_elem_of_singleton.
Qed.

Lemma pieces_strip_cr d s :
  d ≠ [] → (d = [LF] → CR ∉ s) →
  Forall (λ p, strip_cr d p = p) (pieces d s).
Proof.
  intros Hd Hcr. apply Forall_forall. intros p Hp.
  apply strip_cr_same. intros Hlf Hl. apply (Hcr Hlf).
  rewrite <-(Join_pieces d Hd s). apply in_Join with p; [done|].
  by apply last_elem_of.
Qed.

(** *** Lines *)

Lemma clean_single b a : b ∉ a → clean [b] a.
Proof.
  intros Hb j Hj [k Hk].
  apply Hb. apply list_elem_of_lookup. exists j.
  assert (H : (a ++ [b]) !! j = Some b).
  { rewrite <-(take_drop j (a ++ [b])), Hk.
    rewrite lookup_app_r by (rewrite length_take; lia).
    rewrite length_take, length_app. simpl.
    replace (j - j `min` (length a + 1))%nat with 0%nat by lia. done. }
  by rewrite lookup_app_l in H.
Qed.

Lemma tokens_of_terminated d ps :
  tokens_of d (ps ++ [[]]) = map (strip_cr d) ps.
Proof.
  induction ps as [|p ps IH]; [done|].
  destruct ps as [|q ps].
  - done.
  - change (tokens_of d ((p :: q :: ps) ++ [[]]))
      with (strip_cr d p :: tokens_of d ((q :: ps) ++ [[]])).
    by rewrite IH.
Qed.

Lemma last_terminated {A} (ps : list A) x : last (ps ++ [x]) = Some x.
Proof. apply last_snoc. Qed.

Lemma pieces_fit_terminated d ps :
  Forall (λ p, len p + len d ≤ bufio.MaxScanTokenSize) ps →
  pieces_fit d (ps ++ [[]]).
Proof.
  induction ps as [|p ps IH]; intros Hf.
  - simpl. by rewrite MaxScanTokenSize_val.
  - destruct ps as [|q ps].
    + simpl. split; [by apply Forall_inv in Hf|by rewrite MaxScanTokenSize_val].
    + change (pieces_fit d ((p :: q :: ps) ++ [[]]))
        with (len p + len d ≤ bufio.MaxScanTokenSize ∧ pieces_fit d ((q :: ps) ++ [[]])).
      split; [by apply Forall_inv in Hf|]. apply IH. by apply Forall_inv_tail in Hf.
Qed.

Lemma pieces_lines (ls : list (list byte * bool)) :
  Forall (λ x : list byte * bool, LF ∉ fst x) ls →
  pieces [LF] (lines_text ls)
    = map (λ x : list byte * bool, fst x ++ (if snd x then [CR] else [])) ls ++ [[]].
Proof.
  induction ls as [|[l c] ls IH]; intros Hf; [done|].
  unfold lines_text. simpl.
  assert (Heq : (l ++ line_end c) ++ concat (map (λ x, fst x ++ line_end (snd x)) ls)
                = (l ++ (if c then [CR] else [])) ++ [LF] ++ lines_text ls).
  { unfold lines_text. destruct c; simpl; by rewrite <-?app_assoc. }
  rewrite Heq. rewrite pieces_clean; [|done|].
  - f_equal. apply IH. by apply Forall_inv_tail in Hf.
  - apply clean_single. apply Forall_inv in Hf. simpl in Hf.
    intros Hin. apply elem_of_app in Hin as [Hin|Hin]; [done|].
    destruct c; [|by apply elem_of_nil in Hin].
    apply list_elem_of_singleton in Hin. done.
Qed.

Lemma strip_cr_line (l : list byte) (c : bool) :
  last l ≠ Some CR →
  strip_cr [LF] (l ++ (if c then [CR] else [])) = l.
Proof.
  intros Hl. destruct c.
  - unfold strip_cr. rewrite bool_decide_true by done.
    rewrite bool_decide_true by apply last_snoc. simpl.
    rewrite length_app. simpl.
    replace (length l + 1 - 1)%nat with (length l) by lia.
    by rewrite take_app_length.
  - rewrite app_nil_r. by apply strip_cr_same.
Qed.

(** ** [ScanRunes] when it gives no token *)

Lemma ScanRunes_none data atEOF adv e :
  bufio.ScanRunes data atEOF = Ret (adv, None, e) → adv = 0 ∧ e = None.
Proof.
  unfold bufio.ScanRunes. case_if; [by intros [= <- <-]|].
  destruct data as [|b0 tl]; [done|].
  case_if; [done|].
  destruct (utf8.DecodeRune _) as [rn width].
  case_if; [done|]. case_if; [by intros [= <- <-]|done].
Qed.

Lemma ScanRunes_returns data atEOF :
  data ≠ [] ∨ atEOF = true →
  ∃ adv tok e, bufio.ScanRunes data atEOF = Ret (adv, tok, e).
Proof.
  intros H. unfold bufio.ScanRunes. case_if; [by eexists _, _, _|].
  destruct data as [|b0 tl].
  - destruct H as [?|Heof]; [done|]. subst atEOF. simpl in *. done.
  - case_if; [by eexists _, _, _|].
    destruct (utf8.DecodeRune _) as [rn width].
    repeat case_if; by eexists _, _, _.
Qed.

(** ** A token puts the start of the window forward *)

Lemma scanArgs_advances h st data atEOF st' adv t :
  Input_scanArgs h st data atEOF = Ret (st', (adv, Some t, None)) → 0 < adv.
Proof.
  destruct (decide (bytes_of h (ArgsDelim st) = [])) as [Hd|Hd].
  - rewrite scanArgs_runes by done.
    destruct (bufio.ScanRunes data atEOF) as [[[adv0 tok0] e0]| |] eqn:Hs; simpl; try done.
    intros [= _ -> -> ->]. apply ScanRunes_token in Hs. lia.
  - rewrite (scanArgs_cases h st _ data atEOF eq_refl Hd).
    pose proof (len_delim_pos _ Hd).
    destruct (find _ data) as [i|]; [|by destruct atEOF].
    unfold emit. intros [= _ <- _]. lia.
Qed.

Lemma setErr_start e s : bufio.start (bufio.setErr e s) = bufio.start s.
Proof. unfold bufio.setErr. by destruct (bufio.err s) as [[]|]. Qed.

Lemma readOnce_start s :
  match bufio.readOnce s with
  | inl s' | inr s' => bufio.start s' = bufio.start s
  end.
Proof.
  unfold bufio.readOnce.
  destruct (io.Read _ _) as [[p e] rd]. simpl.
  case_if; [by rewrite setErr_start|].
  destruct e as [e|]; [by rewrite setErr_start|]. by case_if.
Qed.

Lemma readLoop_start k : ∀ s, bufio.start (bufio.readLoop k s) = bufio.start s.
Proof.
  induction k as [|k IH]; intros s; unfold bufio.readLoop; fold bufio.readLoop;
    pose proof (readOnce_start s) as H; destruct (bufio.readOnce s); try done.
  - by rewrite setErr_start.
  - by rewrite IH.
Qed.

Lemma refill_start s :
  0 ≤ bufio.start s →
  match bufio.refill s with
  | inl s' | inr s' => 0 ≤ bufio.start s'
  end.
Proof.
  intros H. unfold bufio.refill. case_if; [done|].
  repeat case_if; rewrite ?setErr_start, ?readLoop_start; simpl; done.
Qed.

Section scan_start.
  Context {St : Type} (split : bufio.SplitFunc St).

  Hypothesis split_advances : ∀ st data atEOF st' adv t,
    split st data atEOF = Ret (st', (adv, Some t, None)) → 0 < adv.

Lemma offer_start st s :
    0 ≤ bufio.start s →
    match bufio.offer split st s with
    | Ret (inl (b, _, s')) => b = true → bufio.done s' = true ∨ 0 < bufio.start s'
    | Ret (inr (_, s')) => 0 ≤ bufio.start s'
    | _ => True
    end.
  Proof.
    intros H0. unfold bufio.offer. case_if; [|done].
    destruct (split st _ _) as [[st' [[adv tok] e]]| |] eqn:Hsp; simpl; try done.
    destruct e as [e|].
    - case_if; [by left|done].
    - unfold bufio.advance. case_if; simpl; [done|].
      case_if; simpl; [done|].
      destruct tok as [t|]; simpl; [|lia].
      apply split_advances in Hsp.
      repeat (case_if; simpl; try done); intros _; right; lia.
  Qed.

Lemma scanLoop_start fuel : ∀ st s b st' s',
    0 ≤ bufio.start s →
    bufio.scanLoop split fuel st s = Ret (b, st', s') →
    b = true → bufio.done s' = true ∨ 0 < bufio.start s'.
  Proof.
    induction fuel as [|fuel IH]; intros st s b st' s' H0; simpl; [done|].
    pose proof (offer_start st s H0) as Ho.
    destruct (bufio.offer split st s) as [[[[b1 st1] s1]|[st1 s1]]| |]; simpl; try done.
    - by intros [= <- <- <-].
    - pose proof (refill_start s1 Ho) as Hr.
      destruct (bufio.refill s1) as [s2|s2].
      + by intros [= <- <- <-].
      + by apply IH.
  Qed.

End scan_start.

(** ** A token too long for the buffer *)

Lemma refill_too_long s :
  scanning s → bufio.err s = None →
  len (bufio.window s) = bufio.MaxScanTokenSize →
  bufio.refill s = inl (bufio.setErr ErrTooLong s).
Proof.
  intros [H0 H1 H2 H3 H4 H5 H6] He Hw.
  destruct s as [rd mx tk w bl st e em dn].
  unfold bufio.end_ in *. simpl in *. subst e mx dn.
  rewrite MaxScanTokenSize_val in *.
  unfold bufio.refill. simpl. unfold bufio.end_. simpl.
  assert (st = 0) as -> by lia. assert (bl = 65536) as -> by lia.
  change (0 >? 0) with false. simpl. unfold bufio.end_. simpl.
  rewrite Hw. reflexivity.
Qed.

Section scan_too_long.
  Context {St : Type} (split : bufio.SplitFunc St).
  Context (st : St) (rest : list byte).

  Hypothesis rest_long : bufio.MaxScanTokenSize ≤ len rest.

  Hypothesis split_more : ∀ k,
    (0 < k)%nat → Z.of_nat k ≤ bufio.MaxScanTokenSize →
    split st (take k rest) false = Ret (st, (0, None, None)).

Lemma scanLoop_too_long fuel : ∀ s,
    scanning s → unread s = rest →
    len (bufio.window s) < bufio.MaxScanTokenSize ∨ bufio.err s = None →
    (length (io.content (bufio.r s)) + 1 < fuel)%nat →
    ∃ s', bufio.scanLoop split fuel st s = Ret (false, st, s') ∧
          bufio.err s' = Some ErrTooLong ∧
          io.content (bufio.r s')
            = drop (Z.to_nat bufio.MaxScanTokenSize) rest ∧
          steady (bufio.r s').
  Proof.
    induction fuel as [|fuel IH]; intros s Hs Hu Hw Hfuel; [lia|].
    assert (Hwin : len (bufio.window s) ≤ bufio.MaxScanTokenSize).
    { destruct Hs as [H0 H1 H2 H3 _ _ _]. unfold bufio.end_ in *. lia. }
    assert (He : bufio.err s = None).
    { destruct Hw as [Hw|?]; [|done].
      destruct (bufio.err s) eqn:He; [|done]. exfalso.
      assert (Hc : io.content (bufio.r s) = []) by (apply Hs; by rewrite He).
      unfold unread in Hu. rewrite Hc, app_nil_r in Hu. rewrite Hu in Hw. lia. }
    assert (Ho : ∃ s1, bufio.offer split st s = Ret (inr (st, s1)) ∧
              bufio.r s1 = bufio.r s ∧ bufio.window s1 = bufio.window s ∧
              bufio.start s1 = bufio.start s ∧ bufio.buflen s1 = bufio.buflen s ∧
              bufio.maxTokenSize s1 = bufio.maxTokenSize s ∧
              bufio.err s1 = bufio.err s ∧ bufio.done s1 = bufio.done s).
    { destruct (decide (bufio.window s = [])) as [Hnil|Hne].
      - exists s. split; [by apply offer_skip|done].
      - apply offer_more; [done|done|].
        assert (bufio.window s = take (length (bufio.window s)) rest) as ->.
        { rewrite <-Hu. unfold unread. by rewrite take_app_length. }
        apply split_more; [|unfold len in Hwin; lia].
        destruct (bufio.window s); [done|simpl; lia]. }
    destruct Ho as (s1 & Ho & E1 & E2 & E3 & E4 & E5 & E6 & E7).
    destruct (scanning_same s s1 Hs E1 E2 E3 E4 E5 E6 E7) as [Hs1 Hu1].
    simpl bufio.scanLoop. rewrite Ho. simpl.
    destruct (decide (len (bufio.window s) < bufio.MaxScanTokenSize)) as [Hlt|Hge].
    - destruct (refill_room s1 Hs1) as (s2 & Hr & Hu2 & Hs2 & Hc2);
        [congruence|by rewrite E2|].
      rewrite Hr. rewrite E1 in Hc2.
      assert (Hne : io.content (bufio.r s) ≠ []).
      { intros Hc. unfold unread in Hu. rewrite Hc, app_nil_r in Hu.
        rewrite Hu in Hlt. lia. }
      destruct (io.content (bufio.r s)) as [|b c] eqn:Hc; [done|].
      destruct Hc2 as [He2 Hl2].
      apply IH; [done|congruence|by right|simpl in *; lia].
    - rewrite (refill_too_long s1 Hs1); [|congruence|rewrite E2; lia].
      eexists. split; [done|]. rewrite setErr_r, E1.
      split_and!.
      + unfold bufio.setErr. rewrite E6, He. done.
      + rewrite <-Hu. unfold unread.
        replace (Z.to_nat bufio.MaxScanTokenSize) with (length (bufio.window s))
          by (unfold len in *; lia).
        by rewrite drop_app_length.
      + apply Hs.
  Qed.

End scan_too_long.

Lemma find_take_none d rest m k :
  find d (take m rest) = None → (k ≤ m)%nat → find d (take k rest) = None.
Proof.
  intros Hf Hk. apply find_app_none with (drop k (take m rest)).
  replace (take k rest) with (take k (take m rest))
    by (rewrite take_take; f_equal; lia).
  by rewrite take_drop.
Qed.

Lemma Args_loop_too_long h d n rest :
  d ≠ [] →
  bufio.MaxScanTokenSize ≤ len rest →
  find d (take (Z.to_nat bufio.MaxScanTokenSize) rest) = None →
  ∀ fuel pre in_ s a,
    bytes_of h (ArgsDelim in_) = d → skipToken in_ = false →
    scanning s → unread s = pre ++ rest →
    len (bufio.window s) < bufio.MaxScanTokenSize →
    last (pieces d pre) = Some [] → pieces_fit d (pieces d pre) →
    (length (io.content (bufio.r s)) + 1 < n)%nat →
    (length pre + 1 < fuel)%nat →
    ∃ s', Args_loop h n fuel in_ s a = Ret (a ++ tokens d pre, in_, s') ∧
          bufio.err s' = Some ErrTooLong ∧
          io.content (bufio.r s')
            = drop (Z.to_nat bufio.MaxScanTokenSize) rest ∧
          steady (bufio.r s').
Proof.
  intros Hd Hlong Hnone.
  induction fuel as [|fuel IH];
    intros pre in_ s a Hin Hskip Hs Hu Hwin Hlast Hfit Hn Hfuel; [lia|].
  simpl Args_loop. unfold bufio.Scan. rewrite (scanning_done s Hs).
  destruct (find d pre) as [i|] eqn:Hf.
  - (* a token of [pre] *)
    assert (Hf' : find d (unread s) = Some i) by (rewrite Hu; by apply find_app_some).
    assert (Hv : delimited_by h d in_ (unread s) = Some (delimited d in_ (unread s))).
    { unfold delimited_by. by rewrite bool_decide_true. }
    pose proof (find_bound _ _ _ Hf) as Hb.
    pose proof (len_delim_pos d Hd) as Hpos.
    destruct (pieces_fit_some d _ i Hd Hf Hfit) as [Hfit1 Hfit2].
    pose proof (scanLoop_verdict (Input_scanArgs h) (delimited_by h d)
                  (delimited_tok h d Hd) (delimited_final h d Hd) (delimited_stop h d)
                  n in_ s _ Hs Hv) as Hscan.
    unfold delimited in Hscan. rewrite Hf' in Hscan.
    destruct Hscan as (s1 & Hsc & Hs1 & Htok & Hu1 & Hle).
    { done. }
    { destruct (bufio.err s); lia. }
    rewrite Hsc. simpl. rewrite Hskip. simpl.
    assert (Hdrop : unread s1 = drop (i + length d) pre ++ rest).
    { rewrite Hu1, Hu. rewrite drop_app_le by (unfold len; lia).
      f_equal. f_equal. unfold len. lia. }
    assert (Hwin1 : len (bufio.window s1) < bufio.MaxScanTokenSize).
    { destruct (scanLoop_start (Input_scanArgs h) (scanArgs_advances h)
                  n in_ s true in_ s1 (scanning_start s Hs) Hsc eq_refl) as [Hdn|Hst].
      - by rewrite (scanning_done s1 Hs1) in Hdn.
      - destruct Hs1 as [H0 H1 H2 H3 _ _ _]. unfold bufio.end_ in *. lia. }
    destruct (IH (drop (i + length d) pre) in_ s1 (a ++ [bufio.Text s1]))
      as (s' & -> & He); try done;
      try (by rewrite <-(last_pieces_some d pre i));
      try (rewrite ?length_drop; unfold len in *; lia).
    exists s'. split; [|done]. f_equal. f_equal. f_equal.
    rewrite (tokens_some d pre i) by done.
    rewrite <-app_assoc. simpl. f_equal. f_equal.
    unfold bufio.Text. rewrite Htok. simpl.
    rewrite cut_strip_cr by (rewrite Hu, length_app; lia).
    rewrite Hu. by rewrite take_app_le by lia.
  - (* the token that does not fit *)
    rewrite (pieces_none d pre Hf) in Hlast. simpl in Hlast.
    injection Hlast as ->. simpl in Hu.
    destruct (scanLoop_too_long (Input_scanArgs h) in_ rest Hlong) with (fuel := n) (s := s)
      as (s' & -> & He); try done.
    + intros k Hk Hk'. apply (scanArgs_more h in_ d Hin Hd).
      apply find_take_none with (Z.to_nat bufio.MaxScanTokenSize); [done|lia].
    + by left.
    + simpl. exists s'. split; [|done]. by rewrite app_nil_r.
Qed.

(** [Args] over a stream with a token too long for the scanner: what it
    returns, and what it leaves in the stream. *)
Lemma Input_Args_too_long_rest in_ w rd d pre rest :
  streams w !! Stream in_ = Some rd →
  bytes_of (heap w) (ArgsDelim in_) = d → d ≠ [] →
  steady rd →
  io.content rd = pre ++ rest →
  last (pieces d pre) = Some [] → pieces_fit d (pieces d pre) →
  bufio.MaxScanTokenSize ≤ len rest →
  find d (take (Z.to_nat bufio.MaxScanTokenSize) rest) = None →
  ∃ rd',
    Input_Args in_ [] w =
      Ret (tokens d pre, with_skipToken false in_,
           with_streams (<[Stream in_ := rd']> (streams w)) w) ∧
    io.content rd' = drop (Z.to_nat bufio.MaxScanTokenSize) rest ∧
    steady rd'.
Proof.
  intros Hrd Hdelim Hd Hch Hc Hlast Hfit Hlong Hnone.
  rewrite (Input_Args_unfold in_ w rd Hrd).
  destruct (Args_loop_too_long (heap w) d (budget rd) rest Hd Hlong Hnone
              (budget rd) pre (with_skipToken false in_) (bufio.NewScanner rd) [])
    as (s' & -> & He & Hleft & Hst); try done;
    try (by apply scanning_NewScanner);
    try (by simpl; rewrite MaxScanTokenSize_val);
    try (unfold budget; simpl; rewrite ?Hc, ?length_app; lia).
  simpl. by exists (bufio.r s').
Qed.


(** Two calls of [Args], the first of which stops at a token too long: the
    second reads on behind the 64 KiB that the scanner had taken in. *)
Lemma Input_Args_twice_too_long in_ w rd d pre rest :
  streams w !! Stream in_ = Some rd →
  bytes_of (heap w) (ArgsDelim in_) = d → d ≠ [] →
  steady rd →
  io.content rd = pre ++ rest →
  last (pieces d pre) = Some [] → pieces_fit d (pieces d pre) →
  bufio.MaxScanTokenSize ≤ len rest →
  find d (take (Z.to_nat bufio.MaxScanTokenSize) rest) = None →
  pieces_fit d (pieces d (drop (Z.to_nat bufio.MaxScanTokenSize) rest)) →
  ∃ in1 w1 in2 w2,
    Input_Args in_ [] w = Ret (tokens d pre, in1, w1) ∧
    Input_Args in1 [] w1
      = Ret (tokens d (drop (Z.to_nat bufio.MaxScanTokenSize) rest), in2, w2).
Proof.
  intros Hrd Hdelim Hd Hch Hc Hlast Hfit Hlong Hnone Hfit2.
  destruct (Input_Args_too_long_rest in_ w rd d pre rest)
    as (rd' & HA & Hleft & Hst); try done.
  set (in1 := with_skipToken false in_) in HA.
  set (w1 := with_streams _ w) in HA.
  destruct (Input_Args_delimited in1 w1 rd' d) as (rd2 & HA2 & _); try done.
  { apply lookup_insert_eq. }
  { by rewrite Hleft. }
  rewrite Hleft in HA2. by eexists _, _, _, _.
Qed.

(** Two calls of [Args] with the empty delimiter over well-formed UTF-8. *)
Lemma Input_Args_twice_runes in_ w rd cps :
  streams w !! Stream in_ = Some rd →
  bytes_of (heap w) (ArgsDelim in_) = [] →
  steady rd → Forall scalar_value cps →
  io.content rd = concat (map encode cps) →
  ∃ in1 w1 in2 w2,
    Input_Args in_ [] w = Ret (map encode cps, in1, w1) ∧
    Input_Args in1 [] w1 = Ret ([], in2, w2).
Proof.
  intros Hrd Hdelim Hst Hcps Hc.
  destruct (Input_Args_runes in_ w rd cps Hrd Hdelim Hst Hcps Hc) as (rd' & HA & Hc').
  set (in1 := with_skipToken false in_) in HA.
  set (w1 := with_streams _ w) in HA.
  destruct (Input_Args_exhausted in1 w1 rd') as (in2 & rd2 & HA2 & _).
  { apply lookup_insert_eq. }
  { done. }
  by eexists _, _, _, _.
Qed.

(** ** Every stream: all its pieces fit, or there is a first one too long *)




(** * Properties of the package *)



(** C2.  At the first occurrence of a non-empty delimiter [d], after the
    bytes [pre], [scanArgs] consumes [pre] and the delimiter and emits
    [strip_cr d pre]: [pre] less its last byte when the delimiter is exactly
    one newline and that byte is a carriage return, and [pre] itself, byte
    for byte, in every other case (another delimiter, no carriage return
    before the newline); a last token without delimiter is emitted as it is.
    So "a\r\nb" split at "\n" gives [a; b], while " a\r b\r\nc \r" split
    at " " keeps every carriage return and newline. *)
Theorem scanArgs_strips_only_cr_before_newline :
  (∀ h in_ d pre post atEOF,
     bytes_of h (ArgsDelim in_) = d → d ≠ [] →
     (∀ j, (j < length pre)%nat → ¬ d `prefix_of` drop j (pre ++ d ++ post)) →
     Input_scanArgs h in_ (pre ++ d ++ post) atEOF =
       Ret (in_, (len pre + len d, Some (strip_cr d pre), None)) ∧
     (∀ t, d = [LF] → pre = t ++ [CR] → strip_cr d pre = t) ∧
     (d ≠ [LF] → strip_cr d pre = pre) ∧
     (last pre ≠ Some CR → strip_cr d pre = pre)) ∧
  (∀ h in_ d data,
     bytes_of h (ArgsDelim in_) = d → d ≠ [] →
     (∀ j, ¬ d `prefix_of` drop j data) →
     Input_scanArgs h in_ data true =
       Ret (with_skipToken (len data =? 0) in_, (0, Some data, Some ErrFinalToken))) ∧
  (∀ fs, value (Args [] (init (strings.NewReader
                                 (str "a" ++ [CR; LF] ++ str "b")) fs))
         = Some [str "a"; str "b"]) ∧
  (∀ fs, let w := init (strings.NewReader
                          (str " a" ++ [CR] ++ str " b" ++ [CR; LF]
                           ++ str "c " ++ [CR])) fs in
         (* ArgsDelim = ReadDelim, the single blank *)
         value (Args [] (with_input (with_ArgsDelim (ReadDelim (input w)) (input w)) w))
         = Some [[]; str "a" ++ [CR]; str "b" ++ [CR; LF] ++ str "c"; [CR]]).
Proof.
  split_and!.
  - intros h in_ d pre post atEOF Hdelim Hd Hfirst.
    assert (Hf : find d (pre ++ d ++ post) = Some (length pre)).
    { apply find_intro; [|rewrite length_app; lia|done].
      rewrite drop_app_length. by apply prefix_app_r. }
    split_and!.
    + rewrite (scanArgs_match h in_ d Hdelim Hd _ atEOF _ Hf). unfold emit.
      rewrite cut_strip_cr by (rewrite length_app; lia).
      by rewrite take_app_length.
    + intros t -> ->. unfold strip_cr. rewrite !bool_decide_true; [|by rewrite last_snoc|done].
      simpl. rewrite length_app. simpl.
      replace (length t + 1 - 1)%nat with (length t) by lia.
      by rewrite take_app_length.
    + intros Hne. unfold strip_cr. by rewrite (bool_decide_false (d = [LF])).
    + intros Hne. unfold strip_cr. rewrite (bool_decide_false (last pre = Some CR)) by done.
      by rewrite andb_false_r.
  - intros h in_ d data Hdelim Hd Hnone.
    apply (scanArgs_final h in_ d Hdelim Hd).
    destruct (find d data) as [i|] eqn:Hf; [|done].
    by apply find_prefix, Hnone in Hf.
  - intros fs. vm_compute. reflexivity.
  - intros fs. vm_compute. reflexivity.
Qed.

Lemma scanArgs_strips_only_cr_before_newline_witness :
  let h : gmap loc (list byte) := {[ 1%nat := [LF] ]} in
  let in_ := mkInput os.Stdin false (mkSlice 1 0 1) (mkSlice 2 0 1) false in
  Input_scanArgs h in_ ((str "a" ++ [CR]) ++ [LF] ++ str "b") false =
    Ret (in_, (len (str "a" ++ [CR]) + len [LF], Some (strip_cr [LF] (str "a" ++ [CR])), None)) ∧
  strip_cr [LF] (str "a" ++ [CR]) = str "a".
Proof.
  intros h in_.
  destruct (proj1 scanArgs_strips_only_cr_before_newline h in_ [LF]
              (str "a" ++ [CR]) (str "b") false) as (H1 & H2 & _).
  - reflexivity.
  - discriminate.
  - intros j Hj [k Hk].
    destruct j as [|[|j]]; [discriminate Hk|discriminate Hk|].
    simpl in Hj. lia.
  - split; [exact H1|]. by apply H2.
Defined.

(** C3.  With the empty delimiter, [Args] returns one token per code
    point of a UTF-8 encoded stream, each token the encoding of its code
    point, whatever its length in bytes; the delimiter search is not used
    and [skipToken] stays unset.  So "abc" gives [a; b; c], and a stream of
    a two-byte, a three-byte and a four-byte rune gives three tokens. *)
Theorem Args_empty_delimiter_splits_code_points :
  (∀ in_ w rd cps,
     streams w !! Stream in_ = Some rd →
     bytes_of (heap w) (ArgsDelim in_) = [] →
     steady rd → Forall scalar_value cps →
     io.content rd = concat (map encode cps) →
     ∃ rd',
       Input_Args in_ [] w =
         Ret (map encode cps, with_skipToken false in_,
              with_streams (<[Stream in_ := rd']> (streams w)) w) ∧
       io.content rd' = []) ∧
  (∀ h in_ data atEOF,
     bytes_of h (ArgsDelim in_) = [] →
     Input_scanArgs h in_ data atEOF =
       (out ← bufio.ScanRunes data atEOF; Ret (in_, out))) ∧
  (∀ fs, let w := init (strings.NewReader (str "abc")) fs in
         value (Args [] (with_input (with_ArgsDelim (mkSlice 0 0 0) (input w)) w))
         = Some [str "a"; str "b"; str "c"]) ∧
  (∀ fs, let w := init (strings.NewReader
                          [Byte.xc3; Byte.xa9; Byte.xe2; Byte.x82; Byte.xac;
                           Byte.xf0; Byte.x9f; Byte.x98; Byte.x80]) fs in
         value (Args [] (with_input (with_ArgsDelim (mkSlice 0 0 0) (input w)) w))
         = Some [[Byte.xc3; Byte.xa9]; [Byte.xe2; Byte.x82; Byte.xac];
                 [Byte.xf0; Byte.x9f; Byte.x98; Byte.x80]]).
Proof.
  split_and!.
  - apply Input_Args_runes.
  - intros h in_ data atEOF Hdelim. by apply scanArgs_runes.
  - intros fs. vm_compute. reflexivity.
  - intros fs. vm_compute. reflexivity.
Qed.

Lemma Args_empty_delimiter_splits_code_points_witness :
  let w0 := init (strings.NewReader (str "abc")) (λ _, None) in
  let w := with_input (with_ArgsDelim (mkSlice 0 0 0) (input w0)) w0 in
  ∃ rd',
    Input_Args (input w) [] w =
      Ret (map encode [97; 98; 99], with_skipToken false (input w),
           with_streams (<[Stream (input w) := rd']> (streams w)) w) ∧
    io.content rd' = [].
Proof.
  intros w0 w.
  apply (proj1 Args_empty_delimiter_splits_code_points (input w) w
           (strings.NewReader (str "abc")) [97; 98; 99]).
  - reflexivity.
  - reflexivity.
  - right. constructor.
  - repeat constructor; unfold scalar_value; lia.
  - reflexivity.
Defined.

(** C4.  Given at least one argument (empty strings count), [Args]
    returns the arguments as they are; the [Input] and every object of the
    world, the fallback stream included, are left as they were. *)
Theorem Args_returns_nonempty_args_unchanged :
  ∀ in_ args w, args ≠ [] →
    Input_Args in_ args w = Ret (args, in_, w) ∧ Args args w = Ret (args, w).
Proof.
  intros in_ args w Hne.
  assert (H : ∀ i, Input_Args i args w = Ret (args, i, w)).
  { intros i. unfold Input_Args. destruct args as [|a args]; [done|].
    assert ((len (a :: args) =? 0) = false) as ->; [|done].
    apply Z.eqb_neq. unfold len. simpl. lia. }
  split; [apply H|]. unfold Args. rewrite H. simpl. by rewrite with_input_same.
Qed.

Lemma Args_returns_nonempty_args_unchanged_witness :
  let w := mkWorld ∅ ∅ (λ _, None)
             (mkInput os.Stdin false (mkSlice 1 0 1) (mkSlice 2 0 1) true) in
  Input_Args (input w) [str "ordinary "; str " flags"; []] w
    = Ret ([str "ordinary "; str " flags"; []], input w, w) ∧
  Args [str "ordinary "; str " flags"; []] w
    = Ret ([str "ordinary "; str " flags"; []], w).
Proof.
  intros w. apply (Args_returns_nonempty_args_unchanged (input w)). discriminate.
Defined.

(** C5.  With no argument [Reader] returns the fallback stream itself and
    changes nothing.  With two or more arguments it returns a new reader
    over the arguments joined in order, [ReadDelim] standing between
    consecutive arguments and nowhere else; for [x; y] the content is
    x, ReadDelim, y. *)
Theorem Reader_fallback_or_joined_args :
  (∀ in_ w, Input_Reader in_ [] w = (Stream in_, w)) ∧
  (∀ in_ w a b rest,
     let args := a :: b :: rest in
     let sep := bytes_of (heap w) (ReadDelim in_) in
     ∃ h, Input_Reader in_ args w =
            (h, with_streams
                  (<[h := strings.NewReader (strings.Join args sep)]> (streams w)) w) ∧
          streams w !! h = None) ∧
  (∀ sep a, strings.Join [a] sep = a) ∧
  (∀ sep a b rest,
     strings.Join (a :: b :: rest) sep = a ++ sep ++ strings.Join (b :: rest) sep) ∧
  (∀ in_ w x y,
     ∃ h w', Input_Reader in_ [x; y] w = (h, w') ∧
             io.content <$> streams w' !! h
               = Some (x ++ bytes_of (heap w) (ReadDelim in_) ++ y)).
Proof.
  split_and!.
  - done.
  - intros in_ w a b rest args sep. simpl.
    eexists. split; [done|]. apply not_elem_of_dom, is_fresh.
  - done.
  - intros sep a b rest. destruct rest; simpl; by rewrite ?app_nil_r, <-?app_assoc.
  - intros in_ w x y. eexists _, _. split; [done|].
    simpl. rewrite lookup_insert_eq. simpl. by rewrite app_nil_r.
Qed.

(** C6.  With one argument: unless [Literal] is set, [Reader] tries to
    open the argument as a file and on success returns a reader over the
    file; when [Literal] is set (the file system is then not consulted) or
    the file cannot be opened, it returns a reader over the argument's own
    text.  Either way the caller gets a reader and no error. *)
Theorem Reader_single_arg_file_or_literal :
  (∀ in_ w arg rd,
     Literal in_ = false → files w arg = Some rd →
     ∃ h, Input_Reader in_ [arg] w =
            (h, with_streams (<[h := rd]> (streams w)) w) ∧
          streams w !! h = None) ∧
  (∀ in_ w arg,
     Literal in_ = true ∨ files w arg = None →
     ∃ h, Input_Reader in_ [arg] w =
            (h, with_streams (<[h := strings.NewReader arg]> (streams w)) w) ∧
          streams w !! h = None) ∧
  (∀ in_ w arg,
     ∃ h w' rd, Input_Reader in_ [arg] w = (h, w') ∧ streams w' !! h = Some rd).
Proof.
  split_and!.
  - intros in_ w arg rd Hlit Hfile. unfold Input_Reader, os.Open.
    rewrite Hlit, Hfile. simpl. eexists. split; [done|].
    apply not_elem_of_dom, is_fresh.
  - intros in_ w arg Hcase. unfold Input_Reader, os.Open.
    destruct (Literal in_) eqn:Hlit; simpl.
    + eexists. split; [done|]. apply not_elem_of_dom, is_fresh.
    + destruct Hcase as [?|Hfile]; [done|]. rewrite Hfile.
      eexists. split; [done|]. apply not_elem_of_dom, is_fresh.
  - intros in_ w arg. unfold Input_Reader, os.Open.
    destruct (Literal in_); simpl; [|destruct (files w arg); simpl];
      eexists _, _, _; (split; [done|]); simpl; apply lookup_insert_eq.
Qed.

Lemma Reader_single_arg_file_or_literal_witness :
  let fs : gostring → option io.Reader :=
    λ name, if bool_decide (name = str "notes.txt")
            then Some (strings.NewReader (str "in the file")) else None in
  let w := init (strings.NewReader []) fs in
  (∃ h, Input_Reader (input w) [str "notes.txt"] w =
          (h, with_streams
                (<[h := strings.NewReader (str "in the file")]> (streams w)) w) ∧
        streams w !! h = None) ∧
  (∃ h, Input_Reader (input w) [str "missing.txt"] w =
          (h, with_streams
                (<[h := strings.NewReader (str "missing.txt")]> (streams w)) w) ∧
        streams w !! h = None) ∧
  (∃ h, Input_Reader (with_Literal true (input w)) [str "notes.txt"] w =
          (h, with_streams
                (<[h := strings.NewReader (str "notes.txt")]> (streams w)) w) ∧
        streams w !! h = None).
Proof.
  intros fs w.
  destruct Reader_single_arg_file_or_literal as (Hfile & Hlit & _).
  split_and!.
  - apply Hfile; reflexivity.
  - apply Hlit. right. reflexivity.
  - apply Hlit. left. reflexivity.
Defined.

(** C10.  [Fields] returns its arguments without the empty strings, the
    others in their order; it reads nothing, changes nothing, and gives an
    empty result for empty or all-empty arguments without turning to the
    fallback stream. *)
Theorem Fields_drops_empty_strings :
  ∀ in_ args w,
    Input_Fields in_ args w = (filter (λ s, s ≠ []) args, in_, w) ∧
    Fields args w = (filter (λ s, s ≠ []) args, w) ∧
    filter (λ s, s ≠ []) args `sublist_of` args ∧
    Input_Fields in_ [] w = ([], in_, w) ∧
    Input_Fields in_ [[]; []] w = ([], in_, w).
Proof.
  intros in_ args w.
  assert (H : ∀ i, Input_Fields i args w = (filter (λ s, s ≠ []) args, i, w)).
  { intros i. unfold Input_Fields. by rewrite Fields_loop_filter. }
  split_and!; try done.
  - unfold Fields. rewrite H. by rewrite with_input_same.
  - apply sublist_filter.
Qed.

(** C7.  Whatever error the fallback stream fails with once it has
    delivered its bytes, [Args] returns, and returns exactly what it returns
    when the stream ends with EOF after the same bytes: the error reaches
    no one.  Over a stream split at a delimiter that is the tokens of the
    bytes delivered before the failure, the unfinished last one included. *)
Theorem Args_swallows_stream_errors :
  (∀ in_ w rd e,
     let w_err := with_streams (<[Stream in_ := failing_with e rd]> (streams w)) w in
     let w_eof := with_streams (<[Stream in_ := failing_with EOF rd]> (streams w)) w in
     ∃ a in' rd1 rd2,
       Input_Args in_ [] w_err =
         Ret (a, in', with_streams (<[Stream in_ := rd1]> (streams w_err)) w_err) ∧
       Input_Args in_ [] w_eof =
         Ret (a, in', with_streams (<[Stream in_ := rd2]> (streams w_eof)) w_eof)) ∧
  (∀ in_ w rd d code,
     streams w !! Stream in_ = Some rd → io.fail rd = ErrIO code →
     bytes_of (heap w) (ArgsDelim in_) = d → d ≠ [] →
     steady rd → pieces_fit d (pieces d (io.content rd)) →
     value (Input_Args in_ [] w)
       = Some (tokens d (io.content rd),
               with_skipToken (bool_decide (last (pieces d (io.content rd)) = Some [])) in_)) ∧
  (∀ fs, value (Args [] (init (io.mkReader (str "a" ++ [LF] ++ str "b") [] (ErrIO 5)) fs))
         = Some [str "a"; str "b"]).
Proof.
  split_and!.
  - intros in_ w rd e w_err w_eof.
    destruct (Input_Args_same_but_error in_ w rd e EOF) as (a & in' & rd1 & rd2 & H1 & H2 & _).
    by exists a, in', rd1, rd2.
  - intros in_ w rd d code Hrd _ Hdelim Hd Hst Hfit.
    destruct (Input_Args_delimited in_ w rd d Hrd Hdelim Hd Hst Hfit) as (rd' & -> & _).
    done.
  - intros fs. vm_compute. reflexivity.
Qed.

Lemma Args_swallows_stream_errors_witness :
  let rd := io.mkReader (str "a" ++ [LF] ++ str "b") [2; 1]%nat (ErrIO 5) in
  let w := init rd (λ _, None) in
  value (Input_Args (input w) [] w)
    = Some ([str "a"; str "b"], with_skipToken false (input w)).
Proof.
  intros rd w.
  apply (proj1 (proj2 Args_swallows_stream_errors) (input w) w rd [LF] 5%nat).
  - reflexivity.
  - reflexivity.
  - reflexivity.
  - discriminate.
  - right. repeat constructor.
  - vm_compute. repeat split; discriminate.
Defined.

(** C8, as the code has it.  Reading is destructive: what [Args] leaves
    of the stream is an end part of what it found, and it sets [skipToken]
    anew on every call, so that an [Input] may be used again.  On an
    exhausted stream [Args] returns no token.  The first call exhausts the
    stream, and a second call then returns no token, when the reader makes
    progress and every token fits the scanner (non-empty delimiter) or the
    stream is well-formed UTF-8 (empty delimiter).  Where the first call
    stops at a token too long for the scanner, the bytes behind the 64 KiB
    that the scanner had taken in stay in the stream, and the second call
    returns the tokens of these. *)
Theorem Args_second_call_reads_what_is_left :
  (∀ in_ w rd,
     streams w !! Stream in_ = Some rd →
     ∃ a in' rd',
       Input_Args in_ [] w =
         Ret (a, in', with_streams (<[Stream in_ := rd']> (streams w)) w) ∧
       io.content rd' `suffix_of` io.content rd) ∧
  (∀ in_ w rd,
     streams w !! Stream in_ = Some rd → io.content rd = [] →
     ∃ in' rd',
       Input_Args in_ [] w =
         Ret ([], in', with_streams (<[Stream in_ := rd']> (streams w)) w) ∧
       io.content rd' = []) ∧
  (∀ in_ b w, Input_Args (with_skipToken b in_) [] w = Input_Args in_ [] w) ∧
  (∀ in_ w rd d,
     streams w !! Stream in_ = Some rd →
     bytes_of (heap w) (ArgsDelim in_) = d → d ≠ [] →
     steady rd → pieces_fit d (pieces d (io.content rd)) →
     ∃ in1 w1 in2 w2,
       Input_Args in_ [] w = Ret (tokens d (io.content rd), in1, w1) ∧
       Input_Args in1 [] w1 = Ret ([], in2, w2)) ∧
  (∀ in_ w rd cps,
     streams w !! Stream in_ = Some rd →
     bytes_of (heap w) (ArgsDelim in_) = [] →
     steady rd → Forall scalar_value cps →
     io.content rd = concat (map encode cps) →
     ∃ in1 w1 in2 w2,
       Input_Args in_ [] w = Ret (map encode cps, in1, w1) ∧
       Input_Args in1 [] w1 = Ret ([], in2, w2)) ∧
  (∀ in_ w rd d pre rest,
     streams w !! Stream in_ = Some rd →
     bytes_of (heap w) (ArgsDelim in_) = d → d ≠ [] →
     steady rd →
     io.content rd = pre ++ rest →
     last (pieces d pre) = Some [] → pieces_fit d (pieces d pre) →
     bufio.MaxScanTokenSize ≤ len rest →
     find d (take (Z.to_nat bufio.MaxScanTokenSize) rest) = None →
     pieces_fit d (pieces d (drop (Z.to_nat bufio.MaxScanTokenSize) rest)) →
     ∃ in1 w1 in2 w2,
       Input_Args in_ [] w = Ret (tokens d pre, in1, w1) ∧
       Input_Args in1 [] w1
         = Ret (tokens d (drop (Z.to_nat bufio.MaxScanTokenSize) rest), in2, w2)) ∧
  (∀ fs, match Args [] (init (strings.NewReader (str "a" ++ [LF] ++ str "b" ++ [LF])) fs) with
         | Ret (a, w1) =>
           a = [str "a"; str "b"] ∧ skipToken (input w1) = true ∧
           value (Args [] w1) = Some []
         | _ => False
         end).
Proof.
  split_and!.
  - intros in_ w rd Hrd.
    destruct (Input_Args_any in_ w rd Hrd) as (a & in' & rd' & HA & _ & _ & Hsuf).
    by exists a, in', rd'.
  - apply Input_Args_exhausted.
  - intros in_ b w. by destruct in_.
  - intros in_ w rd d Hrd Hdelim Hd Hst Hfit.
    destruct (Input_Args_delimited in_ w rd d Hrd Hdelim Hd Hst Hfit)
      as (rd' & HA & Hc).
    set (in1 := with_skipToken _ in_) in HA.
    set (w1 := with_streams _ w) in HA.
    destruct (Input_Args_exhausted in1 w1 rd') as (in2 & rd2 & HA2 & _).
    { apply lookup_insert_eq. }
    { done. }
    by eexists _, _, _, _.
  - apply Input_Args_twice_runes.
  - apply Input_Args_twice_too_long.
  - intros fs. vm_compute. repeat split; reflexivity.
Qed.

Lemma Args_second_call_reads_what_is_left_witness :
  let rd := strings.NewReader (str "a" ++ [LF] ++ str "b" ++ [LF]) in
  let w := init rd (λ _, None) in
  let u0 := init (strings.NewReader (str "abc")) (λ _, None) in
  let u := with_input (with_ArgsDelim (mkSlice 0 0 0) (input u0)) u0 in
  (∃ in1 w1 in2 w2,
     Input_Args (input w) [] w = Ret (tokens [LF] (io.content rd), in1, w1) ∧
     Input_Args in1 [] w1 = Ret ([], in2, w2)) ∧
  (∃ in1 u1 in2 u2,
     Input_Args (input u) [] u = Ret (map encode [97; 98; 99], in1, u1) ∧
     Input_Args in1 [] u1 = Ret ([], in2, u2)).
Proof.
  intros rd w u0 u.
  destruct Args_second_call_reads_what_is_left as (_ & _ & _ & Hd & Hr & _).
  split.
  - apply (Hd (input w) w rd [LF]).
    + reflexivity.
    + reflexivity.
    + discriminate.
    + right. constructor.
    + vm_compute. repeat split; discriminate.
  - apply (Hr (input u) u (strings.NewReader (str "abc")) [97; 98; 99]).
    + reflexivity.
    + reflexivity.
    + right. constructor.
    + repeat constructor; unfold scalar_value; lia.
    + reflexivity.
Defined.

(** C8, as stated, fails: a second call can return tokens.  Over the
    stream of the line a, a line of 64 KiB, and b, the first [Args] returns
    a alone, since the scanner gives up at the long line, and the second
    [Args] on the same [Input] and stream returns the empty token and b,
    read from what the first call left. *)
Lemma Args_second_call_returns_tokens :
  let pre := str "a" ++ [LF] in
  let rest := replicate (Z.to_nat 65536) Byte.x78 ++ [LF] ++ str "b" in
  let w := init (strings.NewReader (pre ++ rest)) (λ _, None) in
  ∃ in1 w1 in2 w2,
    Input_Args (input w) [] w = Ret ([str "a"], in1, w1) ∧
    Input_Args in1 [] w1 = Ret ([[]; str "b"], in2, w2).
Proof.
  intros pre rest w.
  destruct (Input_Args_twice_too_long (input w) w
              (strings.NewReader (pre ++ rest)) [LF] pre rest)
    as (in1 & w1 & in2 & w2 & H1 & H2).
  - reflexivity.
  - reflexivity.
  - discriminate.
  - right. constructor.
  - reflexivity.
  - reflexivity.
  - vm_compute. repeat split; discriminate.
  - vm_compute. discriminate.
  - vm_compute. reflexivity.
  - vm_compute. repeat split; discriminate.
  - exists in1, w1, in2, w2. split.
    + exact H1.
    + replace [[]; str "b"]
        with (tokens [LF] (drop (Z.to_nat bufio.MaxScanTokenSize) rest))
        by (vm_compute; reflexivity).
      exact H2.
Qed.

(** C9, as the code has it.  A copy of an [Input] has the fields of the
    original, and what is done to the copy's fields stays with the copy:
    [Args] run on the copy leaves the package variable and every byte
    array alone, and a delimiter replaced by a new slice is the copy's
    only.  Two things are shared: the [Stream] handle, and the backing
    arrays of [ArgsDelim] and [ReadDelim], so that a byte stored through the
    copy's delimiter slice is stored in the original's delimiter. *)
Theorem Input_copy_shares_stream_and_delimiter_arrays :
  ∀ w,
    let a := Default w in
    a = input w ∧
    Stream a = Stream (input w) ∧
    (∀ args r in' w',
       Input_Args a args w = Ret (r, in', w') →
       input w' = input w ∧ heap w' = heap w) ∧
    (∀ bs,
       is_Some (heap w !! array (ArgsDelim (input w))) →
       let '(sl, w') := new_bytes bs w in
       bytes_of (heap w') (ArgsDelim (with_ArgsDelim sl a)) = bs ∧
       bytes_of (heap w') (ArgsDelim (input w'))
         = bytes_of (heap w) (ArgsDelim (input w))) ∧
    (∀ i b w',
       store_byte (ArgsDelim a) i b w = Ret w' →
       bytes_of (heap w') (ArgsDelim (input w'))
         = <[Z.to_nat i := b]> (bytes_of (heap w) (ArgsDelim (input w)))) ∧
    (∀ i b w',
       store_byte (ReadDelim a) i b w = Ret w' →
       bytes_of (heap w') (ReadDelim (input w'))
         = <[Z.to_nat i := b]> (bytes_of (heap w) (ReadDelim (input w)))).
Proof.
  intros w a. subst a. unfold Default. split_and!; try done.
  - intros args r in' w' HA.
    destruct (Input_Args_frame _ _ _ _ _ _ HA) as (? & ? & _). done.
  - intros bs Harr.
    pose proof (bytes_of_new_bytes bs (ArgsDelim (input w)) w Harr) as H.
    destruct (new_bytes bs w) as [sl w']. destruct H as (H1 & H2 & H3 & _).
    simpl. rewrite H3. done.
  - intros i b w' Hst.
    destruct (bytes_of_store _ _ _ _ _ Hst) as (H1 & H2 & _). by rewrite H2.
  - intros i b w' Hst.
    destruct (bytes_of_store _ _ _ _ _ Hst) as (H1 & H2 & _). by rewrite H2.
Qed.

Lemma Input_copy_shares_stream_and_delimiter_arrays_witness :
  let w := init (strings.NewReader (str "a,b")) (λ _, None) in
  let a := Default w in
  (let '(sl, w') := new_bytes (str ",") w in
   bytes_of (heap w') (ArgsDelim (with_ArgsDelim sl a)) = str "," ∧
   bytes_of (heap w') (ArgsDelim (input w'))
     = bytes_of (heap w) (ArgsDelim (input w))) ∧
  bytes_of (heap (with_heap (<[1%nat := str ","]> (heap w)) w))
           (ArgsDelim (input (with_heap (<[1%nat := str ","]> (heap w)) w)))
    = <[Z.to_nat 0 := Byte.x2c]> (bytes_of (heap w) (ArgsDelim (input w))).
Proof.
  intros w a.
  destruct (Input_copy_shares_stream_and_delimiter_arrays w)
    as (_ & _ & _ & Hnew & Hstore & _).
  split.
  - apply (Hnew (str ",")). by eexists.
  - apply (Hstore 0 Byte.x2c). reflexivity.
Defined.

(** C9, as stated, fails: a byte written through the delimiter slice of a
    copy obtained from [Default] changes the delimiter of the package
    variable, and with it what the top-level [Args] returns. *)
Lemma Input_copy_shares_delimiter_bytes :
  let w := init (strings.NewReader (str "a,b")) (λ _, None) in
  let a := Default w in
  ∃ w',
    store_byte (ArgsDelim a) 0 Byte.x2c w = Ret w' ∧
    bytes_of (heap w) (ArgsDelim (input w)) = [LF] ∧
    bytes_of (heap w') (ArgsDelim (input w')) = str "," ∧
    value (Args [] w) = Some [str "a,b"] ∧
    value (Args [] w') = Some [str "a"; str "b"].
Proof.
  intros w a. eexists. split; [reflexivity|].
  vm_compute. repeat split; reflexivity.
Qed.

(** * Further properties of the package *)

(** X1.  [Args] always returns: whatever the arguments, whatever the stream
    holds, however it hands its bytes out, whatever error it ends with and
    whatever the delimiter is, the call ends with a list of tokens; it
    neither panics nor runs forever.  Of the [Input] only [skipToken] may
    have changed, of the world only the stream that was read, and that
    stream has only moved forward. *)
Theorem Args_always_returns :
  ∀ in_ args w rd,
    streams w !! Stream in_ = Some rd →
    ∃ a in' rd',
      Input_Args in_ args w
        = Ret (a, in', with_streams (<[Stream in_ := rd']> (streams w)) w) ∧
      in' = with_skipToken (skipToken in') in_ ∧
      io.content rd' `suffix_of` io.content rd.
Proof.
  intros in_ args w rd Hrd. destruct args as [|x args].
  - destruct (Input_Args_any in_ w rd Hrd) as (a & in' & rd' & HA & _ & Hin & Hsuf).
    by exists a, in', rd'.
  - exists (x :: args), in_, rd. unfold Input_Args.
    replace (len (x :: args) =? 0) with false
      by (symmetry; apply Z.eqb_neq; unfold len; simpl length; lia).
    rewrite insert_id by done. split_and!; [by destruct w|by destruct in_|done].
Qed.

Lemma Args_always_returns_witness :
  ∃ a in' rd',
    Input_Args (Default (init (io.mkReader (str "a b") [2; 0; 1]%nat (ErrIO 5)) (λ _, None)))
               []
               (init (io.mkReader (str "a b") [2; 0; 1]%nat (ErrIO 5)) (λ _, None))
      = Ret (a, in',
             with_streams
               (<[os.Stdin := rd']>
                  (streams (init (io.mkReader (str "a b") [2; 0; 1]%nat (ErrIO 5)) (λ _, None))))
               (init (io.mkReader (str "a b") [2; 0; 1]%nat (ErrIO 5)) (λ _, None))) ∧
    in' = with_skipToken (skipToken in')
            (Default (init (io.mkReader (str "a b") [2; 0; 1]%nat (ErrIO 5)) (λ _, None))) ∧
    io.content rd' `suffix_of` str "a b".
Proof.
  apply (Args_always_returns
           (Default (init (io.mkReader (str "a b") [2; 0; 1]%nat (ErrIO 5)) (λ _, None)))
           []
           (init (io.mkReader (str "a b") [2; 0; 1]%nat (ErrIO 5)) (λ _, None))
           (io.mkReader (str "a b") [2; 0; 1]%nat (ErrIO 5))).
  reflexivity.
Defined.

(** X2.  No token that [Args] reads from the stream with a non-empty
    delimiter holds the delimiter: this is so for every reader, also one
    that fails, hands out its bytes in small parts, or holds tokens too long
    for the scanner. *)
Theorem Args_tokens_hold_no_delimiter :
  ∀ in_ w rd d,
    streams w !! Stream in_ = Some rd →
    bytes_of (heap w) (ArgsDelim in_) = d → d ≠ [] →
    ∃ a in' w',
      Input_Args in_ [] w = Ret (a, in', w') ∧
      Forall (λ t, ∀ j, ¬ d `prefix_of` drop j t) a.
Proof.
  intros in_ w rd d Hrd Hd Hne.
  destruct (Input_Args_any in_ w rd Hrd) as (a & in' & rd' & HA & Hok & _).
  eexists a, in', _. split; [done|].
  rewrite Hd in Hok. unfold token_ok in Hok.
  eapply Forall_impl; [done|]. simpl. intros t Ht. by case_if_in Ht.
Qed.

Lemma Args_tokens_hold_no_delimiter_witness :
  let w := init (io.mkReader (str "a" ++ [LF; CR; LF] ++ str "b") [1; 3]%nat (ErrIO 2))
                (λ _, None) in
  ∃ a in' w',
    Input_Args (input w) [] w = Ret (a, in', w') ∧
    Forall (λ t, ∀ j, ¬ [LF] `prefix_of` drop j t) a.
Proof.
  intros w.
  apply (Args_tokens_hold_no_delimiter (input w) w
           (io.mkReader (str "a" ++ [LF; CR; LF] ++ str "b") [1; 3]%nat (ErrIO 2)) [LF]).
  - reflexivity.
  - reflexivity.
  - discriminate.
Defined.

(** X3.  With the empty delimiter every token that [Args] returns is one
    well-formed UTF-8 sequence of one to four bytes, whatever bytes the
    stream holds: a byte that begins no well-formed sequence gives the
    token U+FFFD in its place. *)
Theorem Args_rune_tokens_are_wellformed :
  (∀ in_ w rd,
     streams w !! Stream in_ = Some rd →
     bytes_of (heap w) (ArgsDelim in_) = [] →
     ∃ a in' w',
       Input_Args in_ [] w = Ret (a, in', w') ∧
       Forall (λ t, wellformed t = true ∧ (1 ≤ length t ≤ 4)%nat) a) ∧
  (∀ fs, let w := init (strings.NewReader [Byte.xff; Byte.x61; Byte.xc3]) fs in
         value (Args [] (with_input (with_ArgsDelim (mkSlice 0 0 0) (input w)) w))
         = Some [bufio.errorRune; str "a"; bufio.errorRune]).
Proof.
  split.
  - intros in_ w rd Hrd Hd.
    destruct (Input_Args_any in_ w rd Hrd) as (a & in' & rd' & HA & Hok & _).
    eexists a, in', _. split; [done|].
    rewrite Hd in Hok. unfold token_ok in Hok.
    eapply Forall_impl; [done|]. simpl. intros t Ht. split; [done|].
    destruct t as [|? [|? [|? [|? [|? t]]]]]; simpl in *; try done; lia.
  - intros fs. vm_compute. reflexivity.
Qed.

Lemma Args_rune_tokens_are_wellformed_witness :
  let w0 := init (io.mkReader [Byte.xff; Byte.x61; Byte.xc3] [2]%nat (ErrIO 1))
                 (λ _, None) in
  let w := with_input (with_ArgsDelim (mkSlice 0 0 0) (input w0)) w0 in
  ∃ a in' w',
    Input_Args (input w) [] w = Ret (a, in', w') ∧
    Forall (λ t, wellformed t = true ∧ (1 ≤ length t ≤ 4)%nat) a.
Proof.
  intros w0 w.
  apply (proj1 Args_rune_tokens_are_wellformed (input w) w
           (io.mkReader [Byte.xff; Byte.x61; Byte.xc3] [2]%nat (ErrIO 1))).
  - reflexivity.
  - reflexivity.
Defined.

(** X4.  The first version of the package beside the later one.  Its
    [scanArgs] gives the same answers, and its [Args], reading standard
    input, returns the tokens that the later [Args] returns and after them
    the final empty token where the later version dropped it; with
    arguments both return the arguments.  Its [Reader] returns what the
    later one returns for an [Input] whose [Stream] is standard input. *)
Theorem Before_Args_keeps_final_empty_token :
  (∀ in_ w rd,
     Stream in_ = os.Stdin → streams w !! os.Stdin = Some rd →
     ∃ a in' w',
       Input_Args in_ [] w = Ret (a, in', w') ∧
       Before.Input_Args (before in_) [] w
         = Ret (a ++ (if skipToken in' then [[]] else []), w')) ∧
  (∀ in_ args w, args ≠ [] →
     Before.Input_Args (before in_) args w = Ret (args, w)) ∧
  (∀ h in_ data atEOF,
     Before.Input_scanArgs h (before in_) data atEOF =
       ('(_, out) ← Input_scanArgs h in_ data atEOF; Ret (before in_, out))) ∧
  (∀ in_ args w,
     Stream in_ = os.Stdin →
     Before.Input_Reader (before in_) args w = Input_Reader in_ args w) ∧
  (∀ fs, value (Before.Args [] (init (strings.NewReader
                                        (str "a" ++ [LF] ++ str "b" ++ [LF])) fs))
         = Some [str "a"; str "b"; []]).
Proof.
  split_and!.
  - intros in_ w rd Hst Hrd.
    assert (Hrd' : streams w !! Stream in_ = Some rd) by by rewrite Hst.
    rewrite (Input_Args_unfold in_ w rd Hrd').
    unfold Before.Input_Args.
    change (len (@nil gostring) =? 0) with true. cbv iota. rewrite Hrd.
    pose proof (Args_loop_before (heap w) (budget rd) (budget rd)
                  (with_skipToken false in_) (bufio.NewScanner rd)
                  (@nil gostring) (@nil gostring)) as H.
    rewrite before_with_skipToken in H.
    destruct (Args_loop_total (heap w) (budget rd) (budget rd)
                (with_skipToken false in_) (bufio.NewScanner rd) [])
      as (a & in' & s' & HA); [unfold budget, unread; simpl; lia..|].
    rewrite HA in H |- *.
    destruct (Before.Args_loop _ _ _ _ _ _) as [[a1 s1]| |];
      try (by exfalso; apply H; left).
    destruct H as (-> & -> & _); [by left|].
    simpl. rewrite Hst. by eexists _, _, _.
  - intros in_ args w Hne. unfold Before.Input_Args.
    destruct args as [|x args]; [done|].
    replace (len (x :: args) =? 0) with false
      by (symmetry; apply Z.eqb_neq; unfold len; simpl length; lia).
    done.
  - intros h in_ data atEOF. by apply Before_scanArgs.
  - intros in_ args w Hst. unfold Before.Input_Reader, Input_Reader.
    rewrite Hst. done.
  - intros fs. vm_compute. reflexivity.
Qed.

Lemma Before_Args_keeps_final_empty_token_witness :
  let w := init (strings.NewReader (str "a" ++ [LF] ++ str "b" ++ [LF])) (λ _, None) in
  ∃ a in' w',
    Input_Args (input w) [] w = Ret (a, in', w') ∧
    Before.Input_Args (before (input w)) [] w
      = Ret (a ++ (if skipToken in' then [[]] else []), w').
Proof.
  intros w.
  apply (proj1 Before_Args_keeps_final_empty_token (input w) w
           (strings.NewReader (str "a" ++ [LF] ++ str "b" ++ [LF]))).
  - reflexivity.
  - reflexivity.
Defined.

(** X5.  [Args] reads back what [Reader] joined.  With the same non-empty
    delimiter [d] as [ReadDelim] and [ArgsDelim], the reader that [Reader]
    makes of the arguments, read by [Args], gives the arguments again,
    provided that the delimiter begins inside no argument (nor across the
    end of one), the last argument is not empty, no argument ends in a
    carriage return when the delimiter is a newline, and every argument fits
    the scanner; a single argument has to be taken literally. *)
Theorem Args_reads_back_Reader :
  ∀ in_ w args d,
    args ≠ [] →
    (∀ a, args = [a] → Literal in_ = true ∨ files w a = None) →
    bytes_of (heap w) (ReadDelim in_) = d →
    bytes_of (heap w) (ArgsDelim in_) = d → d ≠ [] →
    Forall (clean d) args → last args ≠ Some [] →
    (d = [LF] → Forall (λ a, last a ≠ Some CR) args) →
    Forall (λ a, len a + len d ≤ bufio.MaxScanTokenSize) args →
    ∃ h w1 in' w2,
      Input_Reader in_ args w = (h, w1) ∧
      Input_Args (with_Stream h in_) [] w1 = Ret (args, in', w2).
Proof.
  intros in_ w args d Hne Hone Hrd Had Hd Hclean Hlast Hcr Hfit.
  set (h := fresh (dom (streams w))).
  set (rd := strings.NewReader (strings.Join args d)).
  set (w1 := with_streams (<[h := rd]> (streams w)) w).
  assert (HR : Input_Reader in_ args w = (h, w1)).
  { unfold Input_Reader. destruct args as [|a [|b rest]]; [done| |].
    - destruct (Hone a eq_refl) as [Hl|Hf].
      + by rewrite Hl.
      + destruct (Literal in_); simpl; [done|]. unfold os.Open. by rewrite Hf.
    - by rewrite Hrd. }
  destruct (Input_Args_delimited (with_Stream h in_) w1 rd d) as (rd' & HA & _);
    try done.
  - apply lookup_insert_eq.
  - apply steady_NewReader.
  - simpl. rewrite pieces_Join by done. by apply pieces_fit_all.
  - exists h, w1. eexists _, _. split; [done|]. rewrite HA. do 3 f_equal.
    simpl. unfold tokens. rewrite pieces_Join by done.
    apply tokens_of_same; [done|].
    apply Forall_forall. intros a Ha. apply strip_cr_same. intros Hlf.
    specialize (Hcr Hlf). rewrite Forall_forall in Hcr. by apply Hcr.
Qed.

Lemma Args_reads_back_Reader_witness :
  let w := init (strings.NewReader []) (λ _, None) in
  let in_ := with_ArgsDelim (ReadDelim (input w)) (input w) in
  ∃ h w1 in' w2,
    Input_Reader in_ [str "ab"; []; str "c"] w = (h, w1) ∧
    Input_Args (with_Stream h in_) [] w1 = Ret ([str "ab"; []; str "c"], in', w2).
Proof.
  intros w in_.
  apply (Args_reads_back_Reader in_ w [str "ab"; []; str "c"] [Byte.x20]).
  - discriminate.
  - intros a Ha. discriminate Ha.
  - reflexivity.
  - reflexivity.
  - discriminate.
  - repeat constructor; apply cleanb_clean; vm_compute; reflexivity.
  - discriminate.
  - intros Hlf. discriminate Hlf.
  - repeat constructor; vm_compute; discriminate.
Defined.

(** X6.  Nothing of the stream is lost between the tokens: the tokens that
    [Args] returns, joined with the delimiter, and followed by one more
    delimiter where the final empty token was dropped, are the bytes of the
    stream.  (A stream split at newlines must hold no carriage return for
    this, since one before a newline is taken away; reader and sizes as for
    C1.) *)
Theorem Args_tokens_join_to_the_stream :
  ∀ in_ w rd d,
    streams w !! Stream in_ = Some rd →
    bytes_of (heap w) (ArgsDelim in_) = d → d ≠ [] →
    steady rd → pieces_fit d (pieces d (io.content rd)) →
    (d = [LF] → CR ∉ io.content rd) →
    io.content rd ≠ [] →
    ∃ a in' w',
      Input_Args in_ [] w = Ret (a, in', w') ∧
      strings.Join a d ++ (if skipToken in' then d else []) = io.content rd.
Proof.
  intros in_ w rd d Hrd Hdelim Hd Hst Hfit Hcr Hne.
  destruct (Input_Args_delimited in_ w rd d Hrd Hdelim Hd Hst Hfit) as (rd' & HA & _).
  eexists _, _, _. split; [exact HA|]. simpl. unfold tokens.
  rewrite Join_tokens.
  - by apply Join_pieces.
  - by apply pieces_strip_cr.
  - intros H. by apply pieces_nil in H.
Qed.

Lemma Args_tokens_join_to_the_stream_witness :
  let rd := io.mkReader (str "a,,b,") [2]%nat EOF in
  let w0 := init rd (λ _, None) in
  let w := with_heap (<[3%nat := str ","]> (heap w0)) w0 in
  ∃ a in' w',
    Input_Args (with_ArgsDelim (mkSlice 3 0 1) (input w)) [] w = Ret (a, in', w') ∧
    strings.Join a (str ",") ++ (if skipToken in' then str "," else []) = str "a,,b,".
Proof.
  apply (Args_tokens_join_to_the_stream
           (with_ArgsDelim (mkSlice 3 0 1)
              (input (init (io.mkReader (str "a,,b,") [2]%nat EOF) (λ _, None))))
           (with_heap (<[3%nat := str ","]>
                         (heap (init (io.mkReader (str "a,,b,") [2]%nat EOF) (λ _, None))))
              (init (io.mkReader (str "a,,b,") [2]%nat EOF) (λ _, None)))
           (io.mkReader (str "a,,b,") [2]%nat EOF) (str ",")).
  - reflexivity.
  - reflexivity.
  - discriminate.
  - right. repeat constructor.
  - vm_compute. repeat split; discriminate.
  - intros Hlf. discriminate Hlf.
  - discriminate.
Defined.

(** X7.  Lines that end in CR LF are read as lines that end in LF.  With
    the newline as delimiter, a text of lines, each ended by CR LF or by
    LF, gives the lines without their line ends, and no token after the
    last line end; the lines hold no newline and end in no carriage return
    of their own.  (Reader and sizes as for C1.) *)
Theorem Args_reads_CRLF_lines_as_LF_lines :
  ∀ in_ w rd (ls : list (list byte * bool)),
    streams w !! Stream in_ = Some rd →
    bytes_of (heap w) (ArgsDelim in_) = [LF] →
    steady rd →
    io.content rd = lines_text ls →
    Forall (λ x, (LF ∉ fst x) ∧ last (fst x) ≠ Some CR ∧
                 len (fst x) + 2 ≤ bufio.MaxScanTokenSize) ls →
    value (Input_Args in_ [] w) = Some (map fst ls, with_skipToken true in_).
Proof.
  intros in_ w rd ls Hrd Hdelim Hst Hc Hls.
  assert (Hp : pieces [LF] (io.content rd)
               = map (λ x : list byte * bool, fst x ++ (if snd x then [CR] else [])) ls
                 ++ [[]]).
  { rewrite Hc. apply pieces_lines. eapply Forall_impl; [done|]. by intros x (? & _). }
  destruct (Input_Args_delimited in_ w rd [LF] Hrd Hdelim) as (rd' & HA & _);
    [done|done| |].
  - rewrite Hp. apply pieces_fit_terminated. apply Forall_map.
    eapply Forall_impl; [done|]. intros [l c] (_ & _ & Hl). simpl in *.
    rewrite len_app. destruct c; unfold len in *; simpl in *; lia.
  - rewrite HA. simpl. unfold tokens. rewrite Hp, tokens_of_terminated, last_snoc.
    rewrite bool_decide_true by done. do 2 f_equal.
    rewrite map_map. apply map_ext_Forall.
    eapply Forall_impl; [done|]. intros [l c] (_ & Hl & _). simpl.
    by apply strip_cr_line.
Qed.

Lemma Args_reads_CRLF_lines_as_LF_lines_witness :
  let ls := [(str "one", true); ([], false); (str "two ", true)] in
  let w := init (strings.NewReader (lines_text ls)) (λ _, None) in
  value (Input_Args (input w) [] w)
    = Some ([str "one"; []; str "two "], with_skipToken true (input w)).
Proof.
  intros ls w.
  apply (Args_reads_CRLF_lines_as_LF_lines (input w) w
           (strings.NewReader (lines_text ls)) ls).
  - reflexivity.
  - reflexivity.
  - apply steady_NewReader.
  - reflexivity.
  - repeat constructor; simpl; try discriminate;
      try (rewrite MaxScanTokenSize_val; unfold len; simpl; lia);
      intros H; repeat (apply elem_of_cons in H as [H|H]; [discriminate H|]);
      by apply elem_of_nil in H.
Defined.

(** X8.  [scanArgs] keeps to what the scanner asks of a split function.
    On every buffer the scanner can hand it, it returns; it advances by
    no less than nothing and no more than the buffer holds; a token without
    an error comes with a positive advance; without a token nothing is
    consumed and the [Input] is as before; the one error it ever returns is
    the final token's, at the end of the stream only, with the whole rest as
    the token, and this is the one place where [skipToken] is set.  Called
    on an empty buffer before the end, with the empty delimiter, it
    panics. *)
Theorem scanArgs_keeps_the_split_contract :
  (∀ h in_ data atEOF,
     data ≠ [] ∨ atEOF = true ∨ bytes_of h (ArgsDelim in_) ≠ [] →
     ∃ in' adv tok e,
       Input_scanArgs h in_ data atEOF = Ret (in', (adv, tok, e)) ∧
       0 ≤ adv ≤ len data ∧
       (tok = None → adv = 0 ∧ e = None) ∧
       (e = None → in' = in_ ∧ (tok ≠ None → 0 < adv)) ∧
       (e ≠ None →
        e = Some ErrFinalToken ∧ atEOF = true ∧ adv = 0 ∧ tok = Some data ∧
        bytes_of h (ArgsDelim in_) ≠ [] ∧
        in' = with_skipToken (len data =? 0) in_)) ∧
  (∀ h in_,
     bytes_of h (ArgsDelim in_) = [] → Input_scanArgs h in_ [] false = Panic).
Proof.
  split.
  - intros h in_ data atEOF Hcall.
    destruct (decide (bytes_of h (ArgsDelim in_) = [])) as [Hd|Hd].
    + rewrite scanArgs_runes by done.
      destruct (ScanRunes_returns data atEOF) as (adv & tok & e & Hs).
      { destruct Hcall as [?|[?|?]]; [by left|by right|done]. }
      rewrite Hs. simpl. exists in_, adv, tok, e. split; [done|].
      destruct tok as [t|].
      * apply ScanRunes_token in Hs as (-> & _ & Ha & _).
        split_and!; [lia|lia|done| |done]. intros _. split; [done|]. intros _. lia.
      * apply ScanRunes_none in Hs as [-> ->].
        pose proof (len_nonneg data). split_and!; [lia|lia|done|done|done].
    + rewrite (scanArgs_cases h in_ _ data atEOF eq_refl Hd).
      pose proof (len_delim_pos _ Hd) as Hpos.
      destruct (find _ data) as [i|] eqn:Hf.
      * pose proof (find_bound _ _ _ Hf) as Hb. unfold emit.
        eexists _, _, _, _. split; [done|].
        split_and!; [unfold len in *; lia|unfold len in *; lia|done| |done].
        intros _. split; [done|]. intros _. unfold len in *. lia.
      * pose proof (len_nonneg data).
        destruct atEOF; eexists _, _, _, _; (split; [done|]);
          split_and!; try done; try lia.
  - intros h in_ Hd. by rewrite scanArgs_runes.
Qed.

Lemma scanArgs_keeps_the_split_contract_witness :
  let h : gmap loc (list byte) := {[ 1%nat := [LF] ]} in
  let in_ := mkInput os.Stdin false (mkSlice 1 0 1) (mkSlice 2 0 1) false in
  ∃ in' adv tok e,
    Input_scanArgs h in_ [] true = Ret (in', (adv, tok, e)) ∧
    0 ≤ adv ≤ len (@nil byte) ∧
    (tok = None → adv = 0 ∧ e = None) ∧
    (e = None → in' = in_ ∧ (tok ≠ None → 0 < adv)) ∧
    (e ≠ None →
     e = Some ErrFinalToken ∧ true = true ∧ adv = 0 ∧ tok = Some [] ∧
     bytes_of h (ArgsDelim in_) ≠ [] ∧
     in' = with_skipToken (len (@nil byte) =? 0) in_).
Proof.
  intros h in_.
  apply (proj1 scanArgs_keeps_the_split_contract h in_ [] true).
  right. left. reflexivity.
Defined.

(** X9.  [Fields] is idempotent and leaves a list without empty strings
    as it is; its result holds no empty string, is never longer than the
    arguments, and the result for two lists one after the other is the two
    results one after the other.  For arguments that are not empty it is
    [Args] with the empty strings removed. *)
Theorem Fields_is_idempotent :
  ∀ in_ (args : list gostring) w,
    ∃ r,
      Input_Fields in_ args w = (r, in_, w) ∧
      Forall (λ s, s ≠ []) r ∧
      Input_Fields in_ r w = (r, in_, w) ∧
      (length r ≤ length args)%nat ∧
      (Forall (λ s, s ≠ []) args ↔ r = args) ∧
      (∀ args2 r2,
         Input_Fields in_ args2 w = (r2, in_, w) →
         Input_Fields in_ (args ++ args2) w = (r ++ r2, in_, w)) ∧
      (args ≠ [] →
       ∃ a, Input_Args in_ args w = Ret (a, in_, w) ∧ r = filter (λ s, s ≠ []) a).
Proof.
  intros in_ args w. exists (filter (λ s, s ≠ []) args).
  assert (HF : ∀ l, Input_Fields in_ l w = (filter (λ s, s ≠ []) l, in_, w)).
  { intros l. unfold Input_Fields. by rewrite Fields_loop_filter. }
  split_and!.
  - apply HF.
  - apply Forall_forall. intros s Hs. by apply list_elem_of_filter in Hs as [? _].
  - rewrite HF. do 2 f_equal. apply list_filter_filter_l. done.
  - apply length_filter.
  - split.
    + intros Hall. induction Hall as [|s l Hs Hall IH]; [done|].
      rewrite filter_cons_True by done. f_equal. exact IH.
    + intros Heq. rewrite <-Heq. apply Forall_forall. intros s Hs.
      by apply list_elem_of_filter in Hs as [? _].
  - intros args2 r2 H2. rewrite HF in H2. injection H2 as <-.
    rewrite HF. by rewrite filter_app.
  - intros Hne. exists args. split; [|done].
    unfold Input_Args. destruct args as [|x args]; [done|].
    replace (len (x :: args) =? 0) with false
      by (symmetry; apply Z.eqb_neq; unfold len; simpl length; lia).
    done.
Qed.

(** X10.  [Reader] leaves the world as it finds it: the byte arrays, the
    package variable, the files and every reader there is stay as they are.
    With no argument it makes nothing new; with arguments it makes one new
    reader, which no earlier call returned.  The file system is consulted
    for exactly one argument with [Literal] unset, and never else. *)
Theorem Reader_leaves_the_world_alone :
  (∀ in_ args w,
     ∃ h w',
       Input_Reader in_ args w = (h, w') ∧
       heap w' = heap w ∧ input w' = input w ∧ files w' = files w ∧
       (∀ h0 rd, streams w !! h0 = Some rd → streams w' !! h0 = Some rd) ∧
       (args = [] → h = Stream in_ ∧ w' = w) ∧
       (args ≠ [] →
        streams w !! h = None ∧
        ∃ rd, streams w' = <[h := rd]> (streams w))) ∧
  (∀ in_ args w fs',
     length args ≠ 1%nat ∨ Literal in_ = true →
     ∃ h s',
       Input_Reader in_ args w = (h, mkWorld (heap w) s' (files w) (input w)) ∧
       Input_Reader in_ args (mkWorld (heap w) (streams w) fs' (input w))
         = (h, mkWorld (heap w) s' fs' (input w))).
Proof.
  assert (Hfresh : ∀ w : World, streams w !! fresh (dom (streams w)) = None).
  { intros w. apply not_elem_of_dom, is_fresh. }
  assert (Hkeep : ∀ (w : World) rd0 h0 rd,
            streams w !! h0 = Some rd →
            <[fresh (dom (streams w)) := rd0]> (streams w) !! h0 = Some rd).
  { intros w rd0 h0 rd H. rewrite lookup_insert_ne; [done|].
    intros Heq. rewrite <-Heq, Hfresh in H. done. }
  split.
  - intros in_ args w. unfold Input_Reader, os.Open, new_stream.
    destruct args as [|a [|b rest]].
    + exists (Stream in_), w. split_and!; try done.
    + destruct (Literal in_); simpl; [|destruct (files w a); simpl];
        eexists _, _; (split; [done|]); simpl;
        (split_and!; [done|done|done|by apply Hkeep|done|]);
        intros _; (split; [by apply Hfresh|by eexists]).
    + eexists _, _. split; [done|]. simpl.
      split_and!; [done|done|done|by apply Hkeep|done|].
      intros _. split; [by apply Hfresh|by eexists].
  - intros in_ args w fs' Hcase. unfold Input_Reader, os.Open, new_stream.
    destruct args as [|a [|b rest]].
    + exists (Stream in_), (streams w). split; [by destruct w|done].
    + destruct Hcase as [Hl|Hl]; [done|]. rewrite Hl. simpl.
      eexists _, _. split; done.
    + eexists _, _. split; done.
Qed.

Lemma Reader_leaves_the_world_alone_witness :
  let fs : gostring → option io.Reader :=
    λ name, if bool_decide (name = str "notes.txt")
            then Some (strings.NewReader (str "in the file")) else None in
  let w := init (strings.NewReader []) (λ _, None) in
  let in_ := with_Literal true (input w) in
  ∃ h s',
    Input_Reader in_ [str "notes.txt"] w
      = (h, mkWorld (heap w) s' (files w) (input w)) ∧
    Input_Reader in_ [str "notes.txt"] (mkWorld (heap w) (streams w) fs (input w))
      = (h, mkWorld (heap w) s' fs (input w)).
Proof.
  intros fs w in_.
  apply (proj2 Reader_leaves_the_world_alone in_ [str "notes.txt"] w fs).
  right. reflexivity.
Defined.





(** X13.  The test [ExampleInput_Args] passes: a copy of the default
    [Input] whose [Stream] is a reader over the test's text prints the six
    lines that the test expects, blanks and tabs kept, the empty lines
    kept, and nothing for the end of the text after the last newline;
    standard input is not read. *)
Example ExampleInput_Args_output :
  ∀ stdin fs,
    match ExampleInput_Args (init stdin fs) with
    | Ret (out, w') =>
      out = str "[]" ++ [LF] ++
            str "[a stream]" ++ [LF] ++
            str "[]" ++ [LF] ++
            str "[of  ]" ++ [LF] ++
            str "[" ++ [Byte.x09] ++ str "input" ++ [Byte.x09] ++ str "]" ++ [LF] ++
            str "[  tokens]" ++ [LF] ∧
      streams w' !! os.Stdin = Some stdin
    | _ => False
    end.
Proof. intros stdin fs. vm_compute. split; reflexivity. Qed.

(** X14.  The test [ExampleArgs] passes: the three arguments are printed
    as they are given, the empty one included, whatever standard input
    holds, and standard input is not read. *)
Example ExampleArgs_output :
  ∀ stdin fs,
    ExampleArgs (init stdin fs)
      = Ret (str "[ordinary ]" ++ [LF] ++ str "[ flags]" ++ [LF] ++ str "[]" ++ [LF],
             init stdin fs).
Proof. intros stdin fs. reflexivity. Qed.
